(** * QR code generator: the adapter around the encoding engine and the PNG export

    A shallow embedding of [src/components/QrPreview.tsx], which holds three
    modules of the repository one after the other:
    - lines 15-290, the application: [getSvgSize] (29-40), [saveSvgAsPng]
      (42-75), the memoised [result] (88-108), [handleSavePng] (110-122), the
      two version fields (220, 235) and the choice of the panel (255-285);
    - lines 291-454, the adapter that the application imports as
      [./lib-adapters/qr]: [clampVersion] (346-348), [buildSegments] (350-364),
      [detectUsedMode] (366-383), [countDarkModules] (385-395), [toSvg]
      (397-410) and [generateQrCode] (422-454);
    followed by the properties proved about them.

    The encoding engine, imported as [../libs/qrCodeGenerator], is a
    collaborator of the adapter: it appears here as the record [Engine], and
    every statement about the adapter holds for every engine.  Where the time
    of a call matters, the adapter is given again over an engine with a state
    of its own ([Stateful]). *)

From Stdlib Require Import ZArith QArith Qround Qreduction List String Ascii Bool Lia.
From Stdlib Require Import Floats.SpecFloat DecimalString DecimalPos Sorted Permutation.
Import ListNotations.

Local Open Scope Z_scope.

(* ================================================================= *)
(** * ECMAScript numbers *)

(** A [number] is an IEEE-754 binary64 value.  Finite values are carried by
    their exact value, a rational; the two zeros are one value (nothing in
    these sources tells them apart: no division, no [Object.is]).  The
    operations that round in IEEE arithmetic ([Number] on a string, [*]) go
    through [round64]; [Math.trunc], [Math.round], [Math.max], [Math.min] and
    the comparisons are exact on binary64 values. *)
Module JsNumber.

Inductive number : Type :=
| NaN
| Infinity (negative : bool)
| Finite (q : Q).

Definition of_Z (n : Z) : number := Finite (inject_Z n).

(** The value of a binary64 in the standard library's IEEE specification. *)
Definition of_spec_float (f : spec_float) : number :=
  match f with
  | S754_zero _ => Finite 0
  | S754_infinity s => Infinity s
  | S754_nan => NaN
  | S754_finite s m e =>
      let v := match e with
               | Zneg k => Qmake (Zpos m) (Pos.shiftl 1 (Npos k))
               | _ => inject_Z (Zpos m * 2 ^ e)
               end in
      Finite (Qred (if s then Qopp v else v))
  end.

(** Round to nearest, ties to even, overflow to infinity: the quotient of two
    integers as IEEE division rounds it ([prec = 53], [emax = 1024]). *)
Definition round64 (q : Q) : number :=
  match Qnum q with
  | Z0 => Finite 0
  | Zpos n =>
      of_spec_float (SFdiv 53 1024 (S754_finite false n 0) (S754_finite false (Qden q) 0))
  | Zneg n =>
      of_spec_float (SFdiv 53 1024 (S754_finite true n 0) (S754_finite false (Qden q) 0))
  end.

(** [a < b]; false as soon as one side is [NaN]. *)
Definition less_than (a b : number) : bool :=
  match a, b with
  | NaN, _ | _, NaN => false
  | Infinity sa, Infinity sb => sa && negb sb
  | Infinity sa, Finite _ => sa
  | Finite _, Infinity sb => negb sb
  | Finite p, Finite q => match Qcompare p q with Lt => true | _ => false end
  end.

(** [a > b]. *)
Definition greater_than (a b : number) : bool := less_than b a.

(** [ToBoolean]: [0] and [NaN] are falsy. *)
Definition ToBoolean (a : number) : bool :=
  match a with
  | NaN => false
  | Infinity _ => true
  | Finite q => negb (Qeq_bool q 0)
  end.

(** [a || b] on numbers. *)
Definition logical_or (a b : number) : number := if ToBoolean a then a else b.

Definition Math_max (a b : number) : number :=
  match a, b with
  | NaN, _ | _, NaN => NaN
  | _, _ => if less_than a b then b else a
  end.

Definition Math_min (a b : number) : number :=
  match a, b with
  | NaN, _ | _, NaN => NaN
  | _, _ => if less_than b a then b else a
  end.

(** [Math.trunc]: drops the fraction, towards zero. *)
Definition Math_trunc (a : number) : number :=
  match a with
  | Finite q => of_Z (Z.quot (Qnum q) (Zpos (Qden q)))
  | _ => a
  end.

(** [Math.round]: the nearest integer, ties towards [+Infinity]. *)
Definition Math_round (a : number) : number :=
  match a with
  | Finite q => of_Z (Qfloor (q + (1 # 2)))
  | _ => a
  end.

Definition Number_isFinite (a : number) : bool :=
  match a with
  | Finite _ => true
  | _ => false
  end.

Definition is_negative (q : Q) : bool := Z.ltb (Qnum q) 0.

(** [a * b]. *)
Definition mul (a b : number) : number :=
  match a, b with
  | NaN, _ | _, NaN => NaN
  | Infinity sa, Infinity sb => Infinity (xorb sa sb)
  | Infinity s, Finite q | Finite q, Infinity s =>
      if Qeq_bool q 0 then NaN else Infinity (xorb s (is_negative q))
  | Finite p, Finite q => round64 (p * q)
  end.

(** The integer a number stands for, when it is one. *)
Definition to_Z (a : number) : option Z :=
  match a with
  | Finite q => if Qeq_bool q (inject_Z (Qfloor q)) then Some (Qfloor q) else None
  | _ => None
  end.

End JsNumber.
Import JsNumber.

(* ================================================================= *)
(** * Option resolver *)

(** Lines 346-348: [Math.min(40, Math.max(1, Math.trunc(value) || 1))]. *)
Definition clampVersion (value : number) : number :=
  Math_min (of_Z 40) (Math_max (of_Z 1) (logical_or (Math_trunc value) (of_Z 1))).


(* ================================================================= *)
(** * Strings *)

(** A string is its sequence of code units; the model carries the code units
    below 256, one [ascii] each. *)
Module JsString.

Local Open Scope string_scope.

Definition dquote : ascii := "034"%char.

Definition code (c : ascii) : N := N_of_ascii c.

Definition is_digit (c : ascii) : bool := (48 <=? code c)%N && (code c <=? 57)%N.

(** White space and line terminators below 256: TAB, LF, VT, FF, CR, SP,
    NBSP.  It is the set that [trim] strips and that [\s] matches. *)
Definition is_space (c : ascii) : bool :=
  match code c with
  | 9 | 10 | 11 | 12 | 13 | 32 | 160 => true
  | _ => false
  end%N.

(** [ToString] of an integer-valued number: its decimal digits, with a
    leading [-] below zero. *)
Definition ToString (n : Z) : string := NilZero.string_of_int (Z.to_int n).

Fixpoint trimStart (s : string) : string :=
  match s with
  | String c s' => if is_space c then trimStart s' else s
  | EmptyString => EmptyString
  end.

Fixpoint trimEnd (s : string) : string :=
  match s with
  | String c s' =>
      match trimEnd s' with
      | EmptyString => if is_space c then EmptyString else String c EmptyString
      | t => String c t
      end
  | EmptyString => EmptyString
  end.

(** [s.trim()] *)
Definition trim (s : string) : string := trimEnd (trimStart s).

(** The first [n] code units of [s]. *)
Fixpoint take (n : nat) (s : string) : string :=
  match n, s with
  | S n', String c s' => String c (take n' s')
  | _, _ => EmptyString
  end.

Fixpoint every (p : ascii -> bool) (s : string) : bool :=
  match s with
  | String c s' => p c && every p s'
  | EmptyString => true
  end.

Fixpoint count (p : ascii -> bool) (s : string) : nat :=
  match s with
  | String c s' => (if p c then 1 else 0) + count p s'
  | EmptyString => 0
  end.

(** ** [Number(s)] on unsigned decimal literals

    [Number] is applied in these sources to captures of [([\d.]+)] only.  Such
    a string is a numeric literal exactly when it has at least one digit and
    at most one dot; every other string over digits and dots is [NaN]. *)

Record decimal := { digits : Z; scale : Z; seen_dot : bool; seen_digit : bool }.

Definition digit_value (c : ascii) : Z := Z.of_N (code c) - 48.

Fixpoint scan_decimal (s : string) (d : decimal) : option decimal :=
  match s with
  | EmptyString => if seen_digit d then Some d else None
  | String c s' =>
      if is_digit c then
        scan_decimal s'
          {| digits := 10 * digits d + digit_value c;
             scale := if seen_dot d then 10 * scale d else scale d;
             seen_dot := seen_dot d;
             seen_digit := true |}
      else if Ascii.eqb c "." then
        if seen_dot d then None
        else scan_decimal s'
               {| digits := digits d; scale := scale d; seen_dot := true;
                  seen_digit := seen_digit d |}
      else None
  end.

Definition Number (s : string) : number :=
  match scan_decimal s {| digits := 0; scale := 1; seen_dot := false; seen_digit := false |} with
  | Some d => round64 (Qmake (digits d) (Z.to_pos (scale d)))
  | None => NaN
  end.

End JsString.
Import JsString.

(* ================================================================= *)
(** * Regular expressions *)

(** The fragment of the pattern language that [getSvgSize] uses: literal
    characters, character classes, greedy [*] and [+] over a class, capturing
    groups and concatenation, matched by backtracking, leftmost match first. *)
Module RegExp.

Inductive regex : Type :=
| Lit (c : ascii)
| Class (p : ascii -> bool)
| Star (p : ascii -> bool)
| Plus (p : ascii -> bool)
| Group (r : regex)
| Cat (r1 r2 : regex).

(** [Canonicalize] under the [i] flag.  A pattern character is a code unit
    below 128 in these sources; a code unit from 128 on never canonicalizes to
    one below 128, so upper-casing [a]..[z] is the whole observable effect. *)
Definition canonicalize (c : ascii) : ascii :=
  if (97 <=? code c)%N && (code c <=? 122)%N then ascii_of_N (code c - 32) else c.

Definition char_matches (ignoreCase : bool) (pat c : ascii) : bool :=
  if ignoreCase then Ascii.eqb (canonicalize pat) (canonicalize c) else Ascii.eqb pat c.

(** What [r] consumed between the input [s] and the rest [s']. *)
Definition consumed (s s' : string) : string :=
  take (String.length s - String.length s') s.

Section Matcher.
Context {A : Type}.

(** Greedy [p*]: the longest run first, then shorter ones. *)
Fixpoint star (p : ascii -> bool) (s : string) (k : string -> option A) : option A :=
  match s with
  | String c s' =>
      if p c then
        match star p s' k with
        | Some a => Some a
        | None => k s
        end
      else k s
  | EmptyString => k s
  end.

(** [rmatch i r s caps k]: match [r] at the head of [s], then hand the rest
    and the captures so far to [k]; on failure of [k], backtrack. *)
Fixpoint rmatch (i : bool) (r : regex) (s : string) (caps : list string)
    (k : string -> list string -> option A) : option A :=
  match r with
  | Lit c =>
      match s with
      | String a s' => if char_matches i c a then k s' caps else None
      | EmptyString => None
      end
  | Class p =>
      match s with
      | String a s' => if p a then k s' caps else None
      | EmptyString => None
      end
  | Star p => star p s (fun s' => k s' caps)
  | Plus p =>
      match s with
      | String a s' => if p a then star p s' (fun s'' => k s'' caps) else None
      | EmptyString => None
      end
  | Group r' => rmatch i r' s caps (fun s' caps' => k s' (caps' ++ [consumed s s'])%list)
  | Cat r1 r2 => rmatch i r1 s caps (fun s' caps' => rmatch i r2 s' caps' k)
  end.
End Matcher.

(** A match at the head of [s]: the array [match], whole match first. *)
Definition match_here (i : bool) (r : regex) (s : string) : option (list string) :=
  rmatch i r s [] (fun s' caps => Some (consumed s s' :: caps)).

(** [s.match(r)] without the [g] flag: the leftmost position that matches. *)
Fixpoint String_match (i : bool) (r : regex) (s : string) : option (list string) :=
  match match_here i r s with
  | Some m => Some m
  | None =>
      match s with
      | String _ s' => String_match i r s'
      | EmptyString => None
      end
  end.

(** A literal word, character by character, before [r]. *)
Fixpoint word (w : string) (r : regex) : regex :=
  match w with
  | String c w' => Cat (Lit c) (word w' r)
  | EmptyString => r
  end.

End RegExp.
Import RegExp.

(* ================================================================= *)
(** * Raster exporter: the intrinsic size (lines 26-40) *)

Definition PNG_SCALE : number := of_Z 16.
Definition DEFAULT_PNG_SIZE : number := of_Z 512.

Definition not_dquote (c : ascii) : bool := negb (Ascii.eqb c dquote).
Definition digit_or_dot (c : ascii) : bool := is_digit c || Ascii.eqb c ".".

(** The pattern [/viewBox=Q[^Q]*\s([\d.]+)\s([\d.]+)Q/i], writing [Q] for the
    double quote. *)
Definition viewBox_regex : regex :=
  word "viewBox="
    (Cat (Lit dquote)
    (Cat (Star not_dquote)
    (Cat (Class is_space)
    (Cat (Group (Plus digit_or_dot))
    (Cat (Class is_space)
    (Cat (Group (Plus digit_or_dot))
         (Lit dquote))))))).

(** Lines 29-40. *)
Definition getSvgSize (svg : string) : number :=
  match String_match true viewBox_regex svg with
  | None => DEFAULT_PNG_SIZE
  | Some m =>
      let width := Number (nth 1 m EmptyString) in
      let height := Number (nth 2 m EmptyString) in
      let size := Math_max width height in
      if Number_isFinite size && greater_than size (of_Z 0) then size else DEFAULT_PNG_SIZE
  end.


(* ================================================================= *)
(** * Raster exporter: the export call (lines 42-75) *)

(** The page's side of [saveSvgAsPng]: object URLs, the image decoder, the
    canvas and the download link.  A run is a function of the world it starts
    in; what the host does that the code cannot decide (whether the image
    decodes, whether a 2d context exists, which PNG comes out) is read from the
    [host] record.  Every call into the page is appended to the world's
    trace. *)
Module Browser.

Inductive JsError : Type :=
| Error (message : string).

Definition url := nat.

Inductive event : Type :=
| CreateObjectURL (u : url)
| RevokeObjectURL (u : url)
| ImageSrc (u : url)
| CreateCanvas
| CanvasWidth (n : number)
| CanvasHeight (n : number)
| GetContext2d
| ImageSmoothingEnabled (b : bool)
| DrawImage (dx dy dw dh : number)
| ToDataURL
| LinkClick (href download : string).

Record host : Type := {
  image_loads : string -> bool;
  has_2d_context : bool;
  png_data_url : string
}.

Record world : Type := {
  trace : list event;
  next_url : url
}.

Definition IO (A : Type) : Type := world -> (A + JsError) * world.

Definition ret {A} (a : A) : IO A := fun w => (inl a, w).

Definition throw {A} (e : JsError) : IO A := fun w => (inr e, w).

Definition bind {A B} (m : IO A) (f : A -> IO B) : IO B :=
  fun w =>
    match m w with
    | (inl a, w') => f a w'
    | (inr e, w') => (inr e, w')
    end.

(** [try { body } finally { cleanup }]: [cleanup] runs after [body] however
    [body] ends; the outcome of [body] stands unless [cleanup] throws. *)
Definition try_finally {A} (body : IO A) (cleanup : IO unit) : IO A :=
  fun w =>
    let '(r, w') := body w in
    match cleanup w' with
    | (inl _, w'') => (r, w'')
    | (inr e, w'') => (inr e, w'')
    end.

Definition emit (e : event) : IO unit :=
  fun w => (inl tt, {| trace := trace w ++ [e]; next_url := next_url w |}).

(** [URL.createObjectURL(blob)]: a URL not handed out before. *)
Definition URL_createObjectURL : IO url :=
  fun w =>
    let u := next_url w in
    (inl u, {| trace := trace w ++ [CreateObjectURL u]; next_url := S u |}).

(** [URL.revokeObjectURL(u)] *)
Definition URL_revokeObjectURL (u : url) : IO unit :=
  emit (RevokeObjectURL u).

End Browser.
Import Browser.

Declare Scope io_scope.
Notation "x <- m ;; k" := (Browser.bind m (fun x => k))
  (at level 61, m at next level, right associativity) : io_scope.
Notation "m ;;; k" := (Browser.bind m (fun _ => k))
  (at level 61, right associativity) : io_scope.
Delimit Scope io_scope with io.

Local Open Scope string_scope.

(** The promise around [new Image()]: [onload] resolves it, [onerror] rejects
    it with [Error('Unable to render QR image')]. *)
Definition load_image (h : host) (svg : string) (svgUrl : url) : IO unit :=
  (emit (ImageSrc svgUrl) ;;;
   if image_loads h svg then Browser.ret tt
   else Browser.throw (Error "Unable to render QR image"))%io.

(** [canvas.getContext('2d')]: [null] when the host has none. *)
Definition getContext (h : host) : IO bool :=
  (emit GetContext2d ;;; Browser.ret (has_2d_context h))%io.

(** Lines 42-75. *)
Definition saveSvgAsPng (h : host) (svg filename : string) : IO unit :=
  (svgUrl <- URL_createObjectURL ;;
   try_finally
     (load_image h svg svgUrl ;;;
      let size := Math_round (mul (getSvgSize svg) PNG_SCALE) in
      emit CreateCanvas ;;;
      emit (CanvasWidth size) ;;;
      emit (CanvasHeight size) ;;;
      ctx <- getContext h ;;
      if negb ctx then Browser.throw (Error "Unable to create image canvas")
      else
        emit (ImageSmoothingEnabled false) ;;;
        emit (DrawImage (of_Z 0) (of_Z 0) size size) ;;;
        emit ToDataURL ;;;
        let pngUrl := png_data_url h in
        emit (LinkClick pngUrl filename))
     (URL_revokeObjectURL svgUrl))%io.

(* ================================================================= *)
(** * The adapter (lines 291-454) *)

Definition SVG_BORDER : Z := 2.

Inductive QrMode : Type := mode_auto | mode_numeric | mode_alphanumeric | mode_byte.
Inductive QrEcc : Type := LOW | MEDIUM | QUARTILE | HIGH.
(** ['auto' | 0 | 1 | ... | 7] *)
Inductive QrMask : Type := mask_auto | mask_index (n : Z).
Inductive QrModeUsed : Type :=
  used_none | used_numeric | used_alphanumeric | used_byte | used_mixed.

Definition QrModeUsed_eqb (a b : QrModeUsed) : bool :=
  match a, b with
  | used_none, used_none | used_numeric, used_numeric
  | used_alphanumeric, used_alphanumeric | used_byte, used_byte
  | used_mixed, used_mixed => true
  | _, _ => false
  end.

(** A call returns or throws. *)
Inductive result (X A : Type) : Type :=
| Ok (a : A)
| Throw (x : X).
Arguments Ok {X A} a.
Arguments Throw {X A} x.

Definition rbind {X A B} (m : result X A) (f : A -> result X B) : result X B :=
  match m with
  | Ok a => f a
  | Throw x => Throw x
  end.

Notation "x <-- m ;; k" := (rbind m (fun x => k))
  (at level 61, m at next level, right associativity).

(** ** The engine, as the adapter uses it *)

Module QrCode.
(** The fields of [qrcodegen.QrCode] that the adapter reads; the engine
    types them [int]. *)
Record t (Ecc : Type) : Type := {
  version : Z;
  size : Z;
  errorCorrectionLevel : Ecc;
  mask : Z;
  getModule : Z -> Z -> bool
}.
Arguments version {Ecc} _.
Arguments size {Ecc} _.
Arguments errorCorrectionLevel {Ecc} _.
Arguments mask {Ecc} _.
Arguments getModule {Ecc} _ _ _.
End QrCode.

Record Engine : Type := {
  (** what the engine throws *)
  exn : Type;
  (** [qrcodegen.QrSegment], and [segment.mode.modeBits] *)
  QrSegment : Type;
  modeBits : QrSegment -> Z;
  (** [qrcodegen.QrCode.Ecc], its four constants and [ecc.ordinal] *)
  Ecc : Type;
  Ecc_LOW : Ecc;
  Ecc_MEDIUM : Ecc;
  Ecc_QUARTILE : Ecc;
  Ecc_HIGH : Ecc;
  ordinal : Ecc -> Z;
  makeSegments : string -> result exn (list QrSegment);
  makeNumeric : string -> result exn QrSegment;
  makeAlphanumeric : string -> result exn QrSegment;
  makeBytes : list Z -> result exn QrSegment;
  isNumeric : string -> bool;
  isAlphanumeric : string -> bool;
  encodeSegments :
    list QrSegment -> Ecc -> number -> number -> Z -> bool -> result exn (QrCode.t Ecc)
}.

(** What [generateQrCode] throws: its own [RangeError], or whatever the engine
    threw, passed on untouched. *)
Inductive thrown (X : Type) : Type :=
| RangeError (message : string)
| Raised (x : X).
Arguments RangeError {X} message.
Arguments Raised {X} x.

Definition InvalidRange {X} : thrown X :=
  RangeError "Minimum version cannot be greater than maximum version".

Definition lift {X A} (m : result X A) : result (thrown X) A :=
  match m with
  | Ok a => Ok a
  | Throw x => Throw (Raised x)
  end.

Module Options.
Record GenerateQrOptions : Type := {
  text : string;
  mode : QrMode;
  ecl : QrEcc;
  minVersion : number;
  maxVersion : number;
  mask : QrMask;
  boostEcl : bool
}.
End Options.

Module Metadata.
Record t : Type := {
  requestedMode : QrMode;
  usedMode : QrModeUsed;
  requestedEcl : QrEcc;
  (** [undefined] when the ordinal is not in [ECL_BY_ORDINAL] *)
  actualEcl : option QrEcc;
  version : Z;
  size : Z;
  mask : Z;
  segmentCount : Z;
  darkModules : Z
}.
End Metadata.

Record GenerateQrResult : Type := {
  svg : string;
  metadata : Metadata.t
}.

(** Property lookup in an object literal with integer keys. *)
Fixpoint lookup {A} (table : list (Z * A)) (key : Z) : option A :=
  match table with
  | (k, v) :: rest => if Z.eqb k key then Some v else lookup rest key
  | [] => None
  end.

Definition ECL_BY_ORDINAL : list (Z * QrEcc) :=
  [(0, LOW); (1, MEDIUM); (2, QUARTILE); (3, HIGH)].

Definition MODE_BY_BITS : list (Z * QrModeUsed) :=
  [(1, used_numeric); (2, used_alphanumeric); (4, used_byte)].

(** [new TextEncoder().encode(text)]: UTF-8, here of code units below 256. *)
Fixpoint TextEncoder_encode (text : string) : list Z :=
  match text with
  | EmptyString => []
  | String c rest =>
      let u := Z.of_N (code c) in
      List.app (if (u <? 128)%Z then [u] else [192 + u / 64; 128 + u mod 64])
               (TextEncoder_encode rest)
  end.

(** [for (let i = 0; i < n; i += 1) body], threading the variables the body
    assigns. *)
Definition for_range {S} (n : Z) (body : Z -> S -> S) (s : S) : S :=
  fold_left (fun acc i => body (Z.of_nat i) acc) (seq 0 (Z.to_nat n)) s.

(** [used.add(mode)] on a [Set]: insertion order, no duplicates. *)
Definition Set_add (m : QrModeUsed) (used : list QrModeUsed) : list QrModeUsed :=
  if existsb (QrModeUsed_eqb m) used then used else (used ++ [m])%list.

Section Adapter.
Variable E : Engine.

Definition ECL_MAP (e : QrEcc) : Ecc E :=
  match e with
  | LOW => Ecc_LOW E
  | MEDIUM => Ecc_MEDIUM E
  | QUARTILE => Ecc_QUARTILE E
  | HIGH => Ecc_HIGH E
  end.

(** Lines 350-364. *)
Definition buildSegments (text : string) (mode : QrMode)
    : result (exn E) (list (QrSegment E)) :=
  match mode with
  | mode_auto => makeSegments E text
  | mode_numeric => s <-- makeNumeric E text ;; Ok [s]
  | mode_alphanumeric => s <-- makeAlphanumeric E text ;; Ok [s]
  | mode_byte => s <-- makeBytes E (TextEncoder_encode text) ;; Ok [s]
  end.

(** Lines 366-383. *)
Definition detectUsedMode (segments : list (QrSegment E)) : QrModeUsed :=
  if (List.length segments =? 0)%nat then used_none
  else
    let used :=
      fold_left
        (fun used segment =>
           let mode := match lookup MODE_BY_BITS (modeBits E segment) with
                       | Some m => m
                       | None => used_mixed
                       end in
           Set_add mode used)
        segments [] in
    match used with
    | [single] => single
    | _ => used_mixed
    end.

(** Lines 385-395. *)
Definition countDarkModules (qr : QrCode.t (Ecc E)) : Z :=
  for_range (QrCode.size qr)
    (fun y dark =>
       for_range (QrCode.size qr)
         (fun x dark => if QrCode.getModule qr x y then dark + 1 else dark)
         dark)
    0.

(** Lines 397-410. *)
Definition toSvg (qr : QrCode.t (Ecc E)) : string :=
  let viewBox := QrCode.size qr + SVG_BORDER * 2 in
  let path :=
    for_range (QrCode.size qr)
      (fun y path =>
         for_range (QrCode.size qr)
           (fun x path =>
              if QrCode.getModule qr x y
              then path ++ "M" ++ ToString (x + SVG_BORDER) ++ ","
                        ++ ToString (y + SVG_BORDER) ++ "h1v1h-1z "
              else path)
           path)
      EmptyString in
  "<svg xmlns=" ++ String dquote "http://www.w3.org/2000/svg" ++ String dquote " viewBox="
    ++ String dquote "0 0 " ++ ToString viewBox ++ " " ++ ToString viewBox
    ++ String dquote " shape-rendering=" ++ String dquote "crispEdges" ++ String dquote "><rect width="
    ++ String dquote "100%" ++ String dquote " height=" ++ String dquote "100%" ++ String dquote " fill="
    ++ String dquote "#fff" ++ String dquote "/><path d=" ++ String dquote (trim path)
    ++ String dquote " fill=" ++ String dquote "#000" ++ String dquote "/></svg>".

(** Lines 412-420. *)
Definition getInputCapabilities (text : string) : bool * bool :=
  (isNumeric E text, isAlphanumeric E text).

(** Lines 422-454. *)
Definition generateQrCode (options : Options.GenerateQrOptions)
    : result (thrown (exn E)) GenerateQrResult :=
  let minVersion := clampVersion (Options.minVersion options) in
  let maxVersion := clampVersion (Options.maxVersion options) in
  if greater_than minVersion maxVersion then Throw InvalidRange
  else
    segments <-- lift (buildSegments (Options.text options) (Options.mode options)) ;;
    qr <-- lift (encodeSegments E segments (ECL_MAP (Options.ecl options))
                   minVersion maxVersion
                   (match Options.mask options with
                    | mask_auto => -1
                    | mask_index n => n
                    end)
                   (Options.boostEcl options)) ;;
    Ok {| svg := toSvg qr;
          metadata :=
            {| Metadata.requestedMode := Options.mode options;
               Metadata.usedMode := detectUsedMode segments;
               Metadata.requestedEcl := Options.ecl options;
               Metadata.actualEcl :=
                 lookup ECL_BY_ORDINAL (ordinal E (QrCode.errorCorrectionLevel qr));
               Metadata.version := QrCode.version qr;
               Metadata.size := QrCode.size qr;
               Metadata.mask := QrCode.mask qr;
               Metadata.segmentCount := Z.of_nat (List.length segments);
               Metadata.darkModules := countDarkModules qr |} |}.
End Adapter.

(* ================================================================= *)
(** * A model of the engine *)

(** Modelled from the spec: the engine [libs/qrCodeGenerator], which is not
    among the sources.  The segment constructors, the classifiers and the
    automatic segmenter follow sections 4.2 and 6: a numeric or alphanumeric
    segment is refused when the text leaves the mode's alphabet, a byte
    segment takes any byte sequence, and the empty text gives no segment.
    Symbol construction is outside the spec: [encodeSegments] takes the
    smallest allowed version, keeps the requested level and mask, and hands
    back the matrix of the three finder patterns.  The model is the concrete
    engine of the examples; the theorems on the adapter hold for every
    [Engine]. *)
Module ModelEngine.

Inductive Mode : Type := NUMERIC | ALPHANUMERIC | BYTE.

Record segment : Type := { mode : Mode; numChars : Z; data : list Z }.

Inductive ecc : Type := ecc_L | ecc_M | ecc_Q | ecc_H.

Inductive error : Type := UnsupportedCharacters | CapacityExceeded.

Definition mode_bits (m : Mode) : Z :=
  match m with
  | NUMERIC => 1
  | ALPHANUMERIC => 2
  | BYTE => 4
  end.

Definition ecc_ordinal (e : ecc) : Z :=
  match e with
  | ecc_L => 0
  | ecc_M => 1
  | ecc_Q => 2
  | ecc_H => 3
  end.

Definition is_upper (c : ascii) : bool := (65 <=? code c)%N && (code c <=? 90)%N.

Definition is_alphanumeric_symbol (c : ascii) : bool :=
  existsb (Ascii.eqb c) (list_ascii_of_string " $%*+-./:").

Definition is_numeric (s : string) : bool := every is_digit s.

Definition is_alphanumeric (s : string) : bool :=
  every (fun c => is_digit c || is_upper c || is_alphanumeric_symbol c) s.

Definition code_units (s : string) : list Z :=
  List.map (fun c => Z.of_N (code c)) (list_ascii_of_string s).

Definition make_numeric (s : string) : result error segment :=
  if is_numeric s
  then Ok {| mode := NUMERIC; numChars := Z.of_nat (String.length s); data := code_units s |}
  else Throw UnsupportedCharacters.

Definition make_alphanumeric (s : string) : result error segment :=
  if is_alphanumeric s
  then Ok {| mode := ALPHANUMERIC; numChars := Z.of_nat (String.length s);
             data := code_units s |}
  else Throw UnsupportedCharacters.

Definition make_bytes (bytes : list Z) : result error segment :=
  Ok {| mode := BYTE; numChars := Z.of_nat (List.length bytes); data := bytes |}.

Definition make_segments (s : string) : result error (list segment) :=
  match s with
  | EmptyString => Ok []
  | _ =>
      if is_numeric s then x <-- make_numeric s ;; Ok [x]
      else if is_alphanumeric s then x <-- make_alphanumeric s ;; Ok [x]
      else x <-- make_bytes (TextEncoder_encode s) ;; Ok [x]
  end.

(** A 7x7 finder pattern with its top-left corner at [(ox, oy)]. *)
Definition finder (ox oy x y : Z) : bool :=
  let dx := Z.abs (x - ox - 3) in
  let dy := Z.abs (y - oy - 3) in
  let d := Z.max dx dy in
  (d <=? 3)%Z && negb (d =? 2)%Z.

Definition finder_patterns (size x y : Z) : bool :=
  (0 <=? x)%Z && (x <? size)%Z && (0 <=? y)%Z && (y <? size)%Z
  && (finder 0 0 x y || finder (size - 7) 0 x y || finder 0 (size - 7) x y).

Definition encode_segments (segs : list segment) (e : ecc) (minVersion maxVersion : number)
    (mask : Z) (boostEcl : bool) : result error (QrCode.t ecc) :=
  match to_Z minVersion with
  | Some v =>
      Ok {| QrCode.version := v;
            QrCode.size := 4 * v + 17;
            QrCode.errorCorrectionLevel := e;
            QrCode.mask := if (mask =? -1)%Z then 0 else mask;
            QrCode.getModule := finder_patterns (4 * v + 17) |}
  | None => Throw CapacityExceeded
  end.

Definition engine : Engine :=
  {| exn := error;
     QrSegment := segment;
     modeBits := fun s => mode_bits (mode s);
     Ecc := ecc;
     Ecc_LOW := ecc_L;
     Ecc_MEDIUM := ecc_M;
     Ecc_QUARTILE := ecc_Q;
     Ecc_HIGH := ecc_H;
     ordinal := ecc_ordinal;
     makeSegments := make_segments;
     makeNumeric := make_numeric;
     makeAlphanumeric := make_alphanumeric;
     makeBytes := make_bytes;
     isNumeric := is_numeric;
     isAlphanumeric := is_alphanumeric;
     encodeSegments := encode_segments |}.

Definition request (text : string) (m : QrMode) : Options.GenerateQrOptions :=
  {| Options.text := text;
     Options.mode := m;
     Options.ecl := MEDIUM;
     Options.minVersion := of_Z 1;
     Options.maxVersion := of_Z 40;
     Options.mask := mask_auto;
     Options.boostEcl := true |}.

End ModelEngine.

(* ================================================================= *)
(** * Statements: the vocabulary of the properties *)

Local Open Scope Z_scope.

(** ** Version normalization *)

(** The integer that [clampVersion] returns. *)
Definition clamped_version (value : number) : Z :=
  match value with
  | NaN => 1
  | Infinity negative => if negative then 1 else 40
  | Finite q => Z.min 40 (Z.max 1 (Z.quot (Qnum q) (Zpos (Qden q))))
  end.

(** The normalization as section 4.1 words it: truncate, take 1 when the
    value is non-positive or non-finite, then clamp into [1, 40]. *)
Definition clampVersion_as_specified (value : number) : number :=
  let truncated := Math_trunc value in
  let repaired :=
    if negb (Number_isFinite truncated) || negb (greater_than truncated (of_Z 0))
    then of_Z 1
    else truncated in
  Math_min (of_Z 40) (Math_max (of_Z 1) repaired).

Definition is_positive_infinity (value : number) : bool :=
  match value with
  | Infinity false => true
  | _ => false
  end.

(** ** The vector document *)

(** The values of a loop counter that runs from 0 below [n]. *)
Definition range (n : Z) : list Z := List.map Z.of_nat (seq 0 (Z.to_nat n)).

(** The cells [(x, y)] of a matrix of side [n], rows from the top, each row
    from the left. *)
Definition row_major (n : Z) : list (Z * Z) :=
  flat_map (fun y => List.map (fun x => (x, y)) (range n)) (range n).

(** [c1] comes before [c2] in that order. *)
Definition row_major_lt (c1 c2 : Z * Z) : Prop :=
  snd c1 < snd c2 \/ (snd c1 = snd c2 /\ fst c1 < fst c2).

Definition dark_cells {Ecc} (qr : QrCode.t Ecc) : list (Z * Z) :=
  filter (fun c => QrCode.getModule qr (fst c) (snd c)) (row_major (QrCode.size qr)).

(** The closed unit square of the cell [(x, y)], moved by the border. *)
Definition subpath (c : Z * Z) : string :=
  "M" ++ ToString (fst c + 2) ++ "," ++ ToString (snd c + 2) ++ "h1v1h-1z".

(** The document around a side [w] and a path [d]: the root with its
    [viewBox], the white rectangle over the whole canvas, the black path. *)
Definition svg_document (w : Z) (d : string) : string :=
  "<svg xmlns=" ++ String dquote "http://www.w3.org/2000/svg" ++ String dquote " viewBox="
    ++ String dquote "0 0 " ++ ToString w ++ " " ++ ToString w
    ++ String dquote " shape-rendering=" ++ String dquote "crispEdges" ++ String dquote "><rect width="
    ++ String dquote "100%" ++ String dquote " height=" ++ String dquote "100%" ++ String dquote " fill="
    ++ String dquote "#fff" ++ String dquote "/><path d=" ++ String dquote d
    ++ String dquote " fill=" ++ String dquote "#000" ++ String dquote "/></svg>".

(** The number of subpaths of a path: each opens with its one [M] and closes
    with its one [z]. *)
Definition moveto_count (s : string) : Z := Z.of_nat (count (Ascii.eqb "M") s).
Definition closepath_count (s : string) : Z := Z.of_nat (count (Ascii.eqb "z") s).

Definition flatten (l : list string) : string := fold_right String.append EmptyString l.

(** The characters of a printed integer. *)
Definition digit_or_minus (c : ascii) : bool := is_digit c || Ascii.eqb c "-".

(** A piece of a path: it starts with something that is not white space and
    ends in [z]. *)
Definition piece (p : string) : Prop :=
  exists c body, p = String c (body ++ "z")%string /\ is_space c = false.


(** ** Concrete inputs of the examples *)

(** The version 1 symbol of the model engine. *)
Definition sample_qr : QrCode.t ModelEngine.ecc :=
  {| QrCode.version := 1;
     QrCode.size := 21;
     QrCode.errorCorrectionLevel := ModelEngine.ecc_M;
     QrCode.mask := 0;
     QrCode.getModule := ModelEngine.finder_patterns 21 |}.

(** ** Modes *)

(** [MODE_BY_BITS[bits] ?? 'mixed'] *)
Definition mode_of_bits (bits : Z) : QrModeUsed :=
  match lookup MODE_BY_BITS bits with
  | Some m => m
  | None => used_mixed
  end.

(** One turn of the loop of [detectUsedMode]. *)
Definition used_step (E : Engine) (used : list QrModeUsed) (segment : QrSegment E)
    : list QrModeUsed :=
  Set_add (mode_of_bits (modeBits E segment)) used.

(** Modelled from the spec: the automatic segmenter [makeSegments] of the
    engine [libs/qrCodeGenerator], which is not among the sources, in what
    sections 3 and 4.2 say of it: a request yields zero segments only for the
    empty text, and the empty text yields zero segments. *)
Definition auto_segmenter_contract (E : Engine) : Prop :=
  forall text segments,
    makeSegments E text = Ok segments -> (segments = [] <-> text = EmptyString).

(** The edge case of section 4.2 as it is worded, for one mode: the empty
    text gives zero segments, so a result reports no segment and no mode. *)
Definition empty_text_gives_no_segment (E : Engine) (m : QrMode) : Prop :=
  forall o r,
    Options.text o = EmptyString -> Options.mode o = m -> generateQrCode E o = Ok r ->
    Metadata.segmentCount (metadata r) = 0 /\ Metadata.usedMode (metadata r) = used_none.

(** Modelled from the spec: the engine [libs/qrCodeGenerator], which is not
    among the sources, on the empty text.  Section 4.2 has the encoding of
    the empty text succeed in every mode, and section 6 has [encode] fail only
    for want of capacity: the constructor of the requested mode accepts the
    empty input (the automatic segmenter answers with no segment), and the
    segments so made are encoded at every level, for every version range
    within 1..40, every mask from -1 (automatic) to 7 and both boost flags. *)
Definition engine_encodes (E : Engine) (segments : list (QrSegment E)) : Prop :=
  forall level a b mask boostEcl,
    1 <= a -> a <= b -> b <= 40 -> -1 <= mask <= 7 ->
    exists qr, encodeSegments E segments level (of_Z a) (of_Z b) mask boostEcl = Ok qr.

Definition engine_accepts_empty_text (E : Engine) (m : QrMode) : Prop :=
  match m with
  | mode_auto => makeSegments E EmptyString = Ok [] /\ engine_encodes E []
  | mode_numeric => exists s, makeNumeric E EmptyString = Ok s /\ engine_encodes E [s]
  | mode_alphanumeric => exists s, makeAlphanumeric E EmptyString = Ok s /\ engine_encodes E [s]
  | mode_byte => exists s, makeBytes E [] = Ok s /\ engine_encodes E [s]
  end.

(** ** Matching *)

(** What a pattern can consume at the head of a string, and the captures it
    leaves, whatever the order in which the matcher tries the choices. *)
Inductive matches (i : bool) : regex -> string -> list string -> Prop :=
| matches_Lit c a :
    char_matches i c a = true -> matches i (Lit c) (String a EmptyString) []
| matches_Class p a :
    p a = true -> matches i (Class p) (String a EmptyString) []
| matches_Star p run :
    every p run = true -> matches i (Star p) run []
| matches_Plus p a run :
    p a = true -> every p run = true -> matches i (Plus p) (String a run) []
| matches_Group r run caps :
    matches i r run caps -> matches i (Group r) run (caps ++ [run])%list
| matches_Cat r1 r2 run1 run2 caps1 caps2 :
    matches i r1 run1 caps1 -> matches i r2 run2 caps2 ->
    matches i (Cat r1 r2) (run1 ++ run2)%string (caps1 ++ caps2)%list.

(** [lit] is at the head of [s], letter case apart. *)
Fixpoint starts_with_ci (lit s : string) : bool :=
  match lit, s with
  | EmptyString, _ => true
  | String c lit', String a s' => char_matches true c a && starts_with_ci lit' s'
  | String _ _, EmptyString => false
  end.

(** The first position of [s] where [lit] is, letter case apart. *)
Fixpoint find_ci (lit s : string) : option nat :=
  if starts_with_ci lit s then Some 0%nat
  else match s with
       | String _ s' => option_map S (find_ci lit s')
       | EmptyString => None
       end.

(** The opening of the attribute: [viewBox=] and the double quote. *)
Definition viewBox_open : string := "viewBox=" ++ String dquote EmptyString.

(** A numeric token of the pattern: one digit or dot at least. *)
Definition is_token (s : string) : bool :=
  match s with
  | EmptyString => false
  | _ => every digit_or_dot s
  end.

(** [s] opens with a [viewBox] attribute whose value, free of quotes, ends in
    white space, the token [w], white space, the token [h]. *)
Definition viewBox_attribute (s w h : string) : Prop :=
  exists name body c1 c2 rest,
    s = (name ++ String dquote (body ++ String c1 (w ++ String c2 (h ++ String dquote rest))))%string
    /\ String.length name = 8%nat
    /\ starts_with_ci viewBox_open s = true
    /\ every not_dquote body = true
    /\ is_space c1 = true /\ is_space c2 = true
    /\ is_token w = true /\ is_token h = true.

(** The first [viewBox=] of the document, letter case apart, opens such an
    attribute. *)
Definition first_viewBox (svg w h : string) : Prop :=
  exists before attribute,
    svg = (before ++ attribute)%string
    /\ find_ci viewBox_open svg = Some (String.length before)
    /\ viewBox_attribute attribute w h.

(** The size that [getSvgSize] reads off the two tokens. *)
Definition size_of_tokens (w h : string) : number :=
  let size := Math_max (Number w) (Number h) in
  if Number_isFinite size && greater_than size (of_Z 0) then size else DEFAULT_PNG_SIZE.

(** An attribute of that shape opens [s]. *)
Definition opens_attribute (s : string) : Prop := exists w h, viewBox_attribute s w h.

(** What a document declares: the tokens [w] and [h] of the leftmost
    attribute of that shape, or nothing when no position of the document opens
    one. *)
Definition declares (svg : string) (d : option (string * string)) : Prop :=
  match d with
  | Some (w, h) =>
      exists before attribute,
        svg = (before ++ attribute)%string
        /\ viewBox_attribute attribute w h
        /\ forall b a, svg = (b ++ a)%string ->
                       (String.length b < String.length before)%nat -> ~ opens_attribute a
  | None => forall b a, svg = (b ++ a)%string -> ~ opens_attribute a
  end.

(** ** The export call *)

(** The side of the canvas. *)
Definition raster_side (svg : string) : number := Math_round (mul (getSvgSize svg) PNG_SCALE).

(** What the export does between taking the object URL and giving it back. *)
Definition export_steps (h : host) (svg filename : string) (u : url) : list event :=
  ImageSrc u ::
  (if image_loads h svg then
     [CreateCanvas; CanvasWidth (raster_side svg); CanvasHeight (raster_side svg); GetContext2d]
     ++ (if has_2d_context h then
           [ImageSmoothingEnabled false;
            DrawImage (of_Z 0) (of_Z 0) (raster_side svg) (raster_side svg);
            ToDataURL;
            LinkClick (png_data_url h) filename]
         else [])
   else [])%list.

(** How the export ends. *)
Definition export_outcome (h : host) (svg : string) : unit + JsError :=
  if image_loads h svg then
    if has_2d_context h then inl tt else inr (Error "Unable to create image canvas")
  else inr (Error "Unable to render QR image").

Definition is_url_event (e : event) : bool :=
  match e with
  | CreateObjectURL _ | RevokeObjectURL _ => true
  | _ => false
  end.

Definition revokes (u : url) (e : event) : bool :=
  match e with
  | RevokeObjectURL u' => Nat.eqb u u'
  | _ => false
  end.

(** A page that decodes everything and has a canvas. *)
Definition sample_host : host :=
  {| image_loads := fun _ => true; has_2d_context := true; png_data_url := "data:image/png;base64," |}.

Definition sample_world : world := {| trace := []; next_url := 0%nat |}.

Definition svg_with_viewBox (value : string) : string :=
  "<svg viewBox=" ++ String dquote value ++ String dquote "></svg>".

(* ================================================================= *)
(** * The application around the adapter *)

(** Lines 220 and 235, the two version fields: the state receives
    [Number(event.target.value) || 1] and [Number(event.target.value) || 40];
    [value] is the number read from the field. *)
Definition minVersion_onChange (value : number) : number := logical_or value (of_Z 1).

Definition maxVersion_onChange (value : number) : number := logical_or value (of_Z 40).

(** Lines 333-338: the place of a level in [ECL_BY_ORDINAL]. *)
Definition QrEcc_ordinal (e : QrEcc) : Z :=
  match e with
  | LOW => 0
  | MEDIUM => 1
  | QUARTILE => 2
  | HIGH => 3
  end.

(** Line 436: [options.mask === 'auto' ? -1 : options.mask]. *)
Definition engine_mask (m : QrMask) : Z :=
  match m with
  | mask_auto => -1
  | mask_index n => n
  end.

(** Modelled from the spec: the model engine with the boost of section 6
    (the final level is possibly raised above the request when [boostEcc] is
    set and capacity allows); the symbols of the model always have room, so
    the level is raised to the highest whenever the flag is set. *)
Definition boosting_engine : Engine :=
  {| exn := ModelEngine.error;
     QrSegment := ModelEngine.segment;
     modeBits := fun s => ModelEngine.mode_bits (ModelEngine.mode s);
     Ecc := ModelEngine.ecc;
     Ecc_LOW := ModelEngine.ecc_L;
     Ecc_MEDIUM := ModelEngine.ecc_M;
     Ecc_QUARTILE := ModelEngine.ecc_Q;
     Ecc_HIGH := ModelEngine.ecc_H;
     ordinal := ModelEngine.ecc_ordinal;
     makeSegments := ModelEngine.make_segments;
     makeNumeric := ModelEngine.make_numeric;
     makeAlphanumeric := ModelEngine.make_alphanumeric;
     makeBytes := ModelEngine.make_bytes;
     isNumeric := ModelEngine.is_numeric;
     isAlphanumeric := ModelEngine.is_alphanumeric;
     encodeSegments := fun segments level minVersion maxVersion mask boostEcl =>
       ModelEngine.encode_segments segments
         (if boostEcl then ModelEngine.ecc_H else level) minVersion maxVersion mask boostEcl |}.

(** Lines 88-108, the memoised [result] of the component: the generated
    symbol, or the message of what [generateQrCode] threw.  Lines 255-285
    render it as one of two panels. *)
Module App.

Record result : Type := { data : option GenerateQrResult; error : option string }.

Inductive panel : Type :=
| ErrorBox (message : string)
| Preview (svg : string) (metadata : Metadata.t).

End App.

Section AppDefs.

Variable E : Engine.

(** [error.message] when [error instanceof Error] holds of a value thrown by
    the engine, nothing otherwise.  The adapter's own [RangeError] is an
    [Error]. *)
Variable Error_message : exn E -> option string.

Definition caught_message (t : thrown (exn E)) : string :=
  match t with
  | RangeError message => message
  | Raised x =>
      match Error_message x with
      | Some message => message
      | None => "Failed to generate QR"
      end
  end.

Definition App_result (o : Options.GenerateQrOptions) : App.result :=
  match generateQrCode E o with
  | Ok r => {| App.data := Some r; App.error := None |}
  | Throw t => {| App.data := None; App.error := Some (caught_message t) |}
  end.

End AppDefs.

(** Lines 255-285: [result.error ? error box : preview of result.data!].  A
    string is truthy when it is not empty, and reading [result.data!.svg] of
    [null] throws, which leaves no panel. *)
Definition App_panel (result : App.result) : option App.panel :=
  let preview :=
    match App.data result with
    | Some d => Some (App.Preview (svg d) (metadata d))
    | None => None
    end in
  match App.error result with
  | Some EmptyString | None => preview
  | Some message => Some (App.ErrorBox message)
  end.

(** Lines 110-122: nothing happens without data; otherwise the symbol is
    exported as [qr-code.png] and a failure is shown with [window.alert].
    Everything [saveSvgAsPng] throws is an [Error], so the fallback text of
    line 119 is never used.  The result is the alert shown, if any, and the
    world after. *)
Definition handleSavePng (h : host) (result : App.result) (w : world) : option string * world :=
  match App.data result with
  | None => (None, w)
  | Some d =>
      match saveSvgAsPng h (svg d) "qr-code.png" w with
      | (inl _, w') => (None, w')
      | (inr (Error message), w') => (Some message, w')
      end
  end.

(* ================================================================= *)
(** * The engine in time *)

(** The adapter is a client of a library that it does not control: a call of
    the engine may read and change whatever state the library keeps.
    [Stateful] is the adapter of lines 350-454 once more, with every call of
    the engine ([makeSegments], the three constructors, [encodeSegments],
    [getModule], the two classifiers) threaded, in the order of evaluation,
    through a state [S] of the library.  The data fields of the engine's
    objects ([segment.mode.modeBits], [qr.size], [qr.version], [qr.mask],
    [qr.errorCorrectionLevel.ordinal]) are read without a call. *)
Module Stateful.

(** A call: from the state before, the answer and the state after. *)
Definition call (S A : Type) : Type := S -> A * S.

Record Engine (S : Type) : Type := {
  exn : Type;
  QrSegment : Type;
  modeBits : QrSegment -> Z;
  Ecc : Type;
  Ecc_LOW : Ecc;
  Ecc_MEDIUM : Ecc;
  Ecc_QUARTILE : Ecc;
  Ecc_HIGH : Ecc;
  ordinal : Ecc -> Z;
  QrCode : Type;
  version : QrCode -> Z;
  size : QrCode -> Z;
  errorCorrectionLevel : QrCode -> Ecc;
  mask : QrCode -> Z;
  getModule : QrCode -> Z -> Z -> call S bool;
  makeSegments : string -> call S (result exn (list QrSegment));
  makeNumeric : string -> call S (result exn QrSegment);
  makeAlphanumeric : string -> call S (result exn QrSegment);
  makeBytes : list Z -> call S (result exn QrSegment);
  isNumeric : string -> call S bool;
  isAlphanumeric : string -> call S bool;
  encodeSegments :
    list QrSegment -> Ecc -> number -> number -> Z -> bool -> call S (result exn QrCode)
}.
Arguments exn {S} _.
Arguments QrSegment {S} _.
Arguments modeBits {S} _ _.
Arguments Ecc {S} _.
Arguments Ecc_LOW {S} _.
Arguments Ecc_MEDIUM {S} _.
Arguments Ecc_QUARTILE {S} _.
Arguments Ecc_HIGH {S} _.
Arguments ordinal {S} _ _.
Arguments QrCode {S} _.
Arguments version {S} _ _.
Arguments size {S} _ _.
Arguments errorCorrectionLevel {S} _ _.
Arguments mask {S} _ _.
Arguments getModule {S} _ _ _ _ _.
Arguments makeSegments {S} _ _ _.
Arguments makeNumeric {S} _ _ _.
Arguments makeAlphanumeric {S} _ _ _.
Arguments makeBytes {S} _ _ _.
Arguments isNumeric {S} _ _ _.
Arguments isAlphanumeric {S} _ _ _.
Arguments encodeSegments {S} _ _ _ _ _ _ _ _.

Section Adapter.
Variable S : Type.
Variable E : Engine S.

Definition ECL_MAP (e : QrEcc) : Ecc E :=
  match e with
  | LOW => Ecc_LOW E
  | MEDIUM => Ecc_MEDIUM E
  | QUARTILE => Ecc_QUARTILE E
  | HIGH => Ecc_HIGH E
  end.

(** Lines 350-364. *)
Definition buildSegments (text : string) (mode : QrMode)
    : call S (result (exn E) (list (QrSegment E))) :=
  fun s =>
    match mode with
    | mode_auto => makeSegments E text s
    | mode_numeric =>
        let (made, s') := makeNumeric E text s in (x <-- made ;; Ok [x], s')
    | mode_alphanumeric =>
        let (made, s') := makeAlphanumeric E text s in (x <-- made ;; Ok [x], s')
    | mode_byte =>
        let (made, s') := makeBytes E (TextEncoder_encode text) s in (x <-- made ;; Ok [x], s')
    end.

(** Lines 366-383: no call, the mode indicators are fields. *)
Definition detectUsedMode (segments : list (QrSegment E)) : QrModeUsed :=
  if (List.length segments =? 0)%nat then used_none
  else
    let used :=
      fold_left
        (fun used segment =>
           let mode := match lookup MODE_BY_BITS (modeBits E segment) with
                       | Some m => m
                       | None => used_mixed
                       end in
           Set_add mode used)
        segments [] in
    match used with
    | [single] => single
    | _ => used_mixed
    end.

(** Lines 385-395: one call of [getModule] for each cell, rows from the top,
    each row from the left. *)
Definition countDarkModules (qr : QrCode E) : call S Z :=
  fun s =>
    for_range (size E qr)
      (fun y '(dark, s) =>
         for_range (size E qr)
           (fun x '(dark, s) =>
              let (module, s') := getModule E qr x y s in
              (if module then dark + 1 else dark, s'))
           (dark, s))
      (0, s).

(** Lines 397-410. *)
Definition toSvg (qr : QrCode E) : call S string :=
  fun s =>
    let viewBox := size E qr + SVG_BORDER * 2 in
    let (path, s') :=
      for_range (size E qr)
        (fun y '(path, s) =>
           for_range (size E qr)
             (fun x '(path, s) =>
                let (module, s') := getModule E qr x y s in
                (if module
                 then path ++ "M" ++ ToString (x + SVG_BORDER) ++ ","
                           ++ ToString (y + SVG_BORDER) ++ "h1v1h-1z "
                 else path, s'))
             (path, s))
        (EmptyString, s) in
    ("<svg xmlns=" ++ String dquote "http://www.w3.org/2000/svg" ++ String dquote " viewBox="
       ++ String dquote "0 0 " ++ ToString viewBox ++ " " ++ ToString viewBox
       ++ String dquote " shape-rendering=" ++ String dquote "crispEdges" ++ String dquote "><rect width="
       ++ String dquote "100%" ++ String dquote " height=" ++ String dquote "100%" ++ String dquote " fill="
       ++ String dquote "#fff" ++ String dquote "/><path d=" ++ String dquote (trim path)
       ++ String dquote " fill=" ++ String dquote "#000" ++ String dquote "/></svg>",
     s').

(** Lines 412-420. *)
Definition getInputCapabilities (text : string) : call S (bool * bool) :=
  fun s =>
    let (numeric, s1) := isNumeric E text s in
    let (alphanumeric, s2) := isAlphanumeric E text s1 in
    ((numeric, alphanumeric), s2).

(** Lines 422-454: the segments are built, the symbol is encoded, and the
    object literal is evaluated in the order it is written, [toSvg(qr)]
    before [countDarkModules(qr)]. *)
Definition generateQrCode (options : Options.GenerateQrOptions)
    : call S (result (thrown (exn E)) GenerateQrResult) :=
  fun s =>
    let minVersion := clampVersion (Options.minVersion options) in
    let maxVersion := clampVersion (Options.maxVersion options) in
    if greater_than minVersion maxVersion then (Throw InvalidRange, s)
    else
      let (built, s1) := buildSegments (Options.text options) (Options.mode options) s in
      match built with
      | Throw x => (Throw (Raised x), s1)
      | Ok segments =>
          let (encoded, s2) :=
            encodeSegments E segments (ECL_MAP (Options.ecl options))
              minVersion maxVersion
              (match Options.mask options with
               | mask_auto => -1
               | mask_index n => n
               end)
              (Options.boostEcl options) s1 in
          match encoded with
          | Throw x => (Throw (Raised x), s2)
          | Ok qr =>
              let (document, s3) := toSvg qr s2 in
              let (dark, s4) := countDarkModules qr s3 in
              (Ok {| svg := document;
                     metadata :=
                       {| Metadata.requestedMode := Options.mode options;
                          Metadata.usedMode := detectUsedMode segments;
                          Metadata.requestedEcl := Options.ecl options;
                          Metadata.actualEcl :=
                            lookup ECL_BY_ORDINAL (ordinal E (errorCorrectionLevel E qr));
                          Metadata.version := version E qr;
                          Metadata.size := size E qr;
                          Metadata.mask := mask E qr;
                          Metadata.segmentCount := Z.of_nat (List.length segments);
                          Metadata.darkModules := dark |} |},
               s4)
          end
      end.

End Adapter.

Arguments ECL_MAP {S} E e.
Arguments buildSegments {S} E text mode _.
Arguments detectUsedMode {S} E segments.
Arguments countDarkModules {S} E qr _.
Arguments toSvg {S} E qr _.
Arguments getInputCapabilities {S} E text _.
Arguments generateQrCode {S} E options _.

(** The answer of a call does not depend on the state it is made in. *)
Definition deterministic {S A : Type} (f : call S A) : Prop :=
  forall s s', fst (f s) = fst (f s').

(** Modelled from the spec: the engine [libs/qrCodeGenerator], which is not
    among the sources, in what sections 3 and 5 say of it: the module matrix
    is immutable once returned, and a call is a pure function of its inputs,
    with no state shared between calls.  Whatever state the library keeps,
    the answers of its operations do not depend on it. *)
Definition deterministic_engine {S : Type} (E : Engine S) : Prop :=
  (forall text, deterministic (makeSegments E text))
  /\ (forall text, deterministic (makeNumeric E text))
  /\ (forall text, deterministic (makeAlphanumeric E text))
  /\ (forall bytes, deterministic (makeBytes E bytes))
  /\ (forall segments level minVersion maxVersion mask boostEcl,
        deterministic (encodeSegments E segments level minVersion maxVersion mask boostEcl))
  /\ (forall qr x y, deterministic (getModule E qr x y)).

End Stateful.

(** The symbol [qr] as it reads in the state [s]. *)
Definition snapshot {S : Type} (E : Stateful.Engine S) (s : S) (qr : Stateful.QrCode E)
    : QrCode.t (Stateful.Ecc E) :=
  {| QrCode.version := Stateful.version E qr;
     QrCode.size := Stateful.size E qr;
     QrCode.errorCorrectionLevel := Stateful.errorCorrectionLevel E qr;
     QrCode.mask := Stateful.mask E qr;
     QrCode.getModule := fun x y => fst (Stateful.getModule E qr x y s) |}.

(** The engine as it answers in the state [s]. *)
Definition at_state {S : Type} (E : Stateful.Engine S) (s : S) : Engine :=
  {| exn := Stateful.exn E;
     QrSegment := Stateful.QrSegment E;
     modeBits := Stateful.modeBits E;
     Ecc := Stateful.Ecc E;
     Ecc_LOW := Stateful.Ecc_LOW E;
     Ecc_MEDIUM := Stateful.Ecc_MEDIUM E;
     Ecc_QUARTILE := Stateful.Ecc_QUARTILE E;
     Ecc_HIGH := Stateful.Ecc_HIGH E;
     ordinal := Stateful.ordinal E;
     makeSegments := fun text => fst (Stateful.makeSegments E text s);
     makeNumeric := fun text => fst (Stateful.makeNumeric E text s);
     makeAlphanumeric := fun text => fst (Stateful.makeAlphanumeric E text s);
     makeBytes := fun bytes => fst (Stateful.makeBytes E bytes s);
     isNumeric := fun text => fst (Stateful.isNumeric E text s);
     isAlphanumeric := fun text => fst (Stateful.isAlphanumeric E text s);
     encodeSegments := fun segments level minVersion maxVersion mask boostEcl =>
       match fst (Stateful.encodeSegments E segments level minVersion maxVersion mask boostEcl s)
       with
       | Ok qr => Ok (snapshot E s qr)
       | Throw x => Throw x
       end |}.

(** Modelled from the spec: the model engine as a library with a state, the
    number of calls made to it so far.  [drift] is what the time does to the
    matrix: [getModule] answers [drift t module] at the call number [t]. *)
Definition timed_engine (drift : Z -> bool -> bool) : Stateful.Engine Z :=
  {| Stateful.exn := ModelEngine.error;
     Stateful.QrSegment := ModelEngine.segment;
     Stateful.modeBits := fun s => ModelEngine.mode_bits (ModelEngine.mode s);
     Stateful.Ecc := ModelEngine.ecc;
     Stateful.Ecc_LOW := ModelEngine.ecc_L;
     Stateful.Ecc_MEDIUM := ModelEngine.ecc_M;
     Stateful.Ecc_QUARTILE := ModelEngine.ecc_Q;
     Stateful.Ecc_HIGH := ModelEngine.ecc_H;
     Stateful.ordinal := ModelEngine.ecc_ordinal;
     Stateful.QrCode := QrCode.t ModelEngine.ecc;
     Stateful.version := QrCode.version;
     Stateful.size := QrCode.size;
     Stateful.errorCorrectionLevel := QrCode.errorCorrectionLevel;
     Stateful.mask := QrCode.mask;
     Stateful.getModule := fun qr x y t => (drift t (QrCode.getModule qr x y), t + 1);
     Stateful.makeSegments := fun text t => (ModelEngine.make_segments text, t + 1);
     Stateful.makeNumeric := fun text t => (ModelEngine.make_numeric text, t + 1);
     Stateful.makeAlphanumeric := fun text t => (ModelEngine.make_alphanumeric text, t + 1);
     Stateful.makeBytes := fun bytes t => (ModelEngine.make_bytes bytes, t + 1);
     Stateful.isNumeric := fun text t => (ModelEngine.is_numeric text, t + 1);
     Stateful.isAlphanumeric := fun text t => (ModelEngine.is_alphanumeric text, t + 1);
     Stateful.encodeSegments := fun segments level minVersion maxVersion mask boostEcl t =>
       (ModelEngine.encode_segments segments level minVersion maxVersion mask boostEcl, t + 1) |}.

(** An engine whose answers do not change with time. *)
Definition counting_engine : Stateful.Engine Z := timed_engine (fun _ module => module).

(** An engine that is not deterministic: from its call number 1000 on, every
    module reads light. *)
Definition fading_engine : Stateful.Engine Z :=
  timed_engine (fun t module => (t <? 1000) && module).

(* ================================================================= *)
(** * Properties *)

(** ** Numbers *)

Example round64_one_tenth :
  round64 (1 # 10) = Finite (3602879701896397 # 36028797018963968).
Proof. vm_compute. reflexivity. Qed.

Example round64_overflows : round64 (inject_Z (10 ^ 400)) = Infinity false.
Proof. vm_compute. reflexivity. Qed.

Example Number_of_tokens :
  Number "25" = of_Z 25 /\ Number "5." = of_Z 5 /\ Number ".5" = Finite (1 # 2)
  /\ Number "007" = of_Z 7 /\ Number "." = NaN /\ Number "1.2.3" = NaN.
Proof. vm_compute. repeat split; reflexivity. Qed.

Example clampVersion_at_some_values :
  clampVersion (Finite (27 # 10)) = of_Z 2
  /\ clampVersion (Finite (- 27 # 10)) = of_Z 1
  /\ clampVersion (Finite (1 # 2)) = of_Z 1
  /\ clampVersion (of_Z 0) = of_Z 1
  /\ clampVersion (of_Z 1000) = of_Z 40
  /\ clampVersion NaN = of_Z 1
  /\ clampVersion (Infinity true) = of_Z 1.
Proof. vm_compute. repeat split; reflexivity. Qed.

Lemma less_than_of_Z (a b : Z) : less_than (of_Z a) (of_Z b) = (a <? b).
Proof.
  unfold less_than, of_Z, Qcompare, Z.ltb; simpl.
  now rewrite !Z.mul_1_r.
Qed.

Lemma ToBoolean_of_Z (z : Z) : ToBoolean (of_Z z) = negb (z =? 0).
Proof.
  unfold ToBoolean, of_Z, Qeq_bool; simpl.
  now rewrite Z.mul_1_r.
Qed.

Lemma Math_max_of_Z (a b : Z) : Math_max (of_Z a) (of_Z b) = of_Z (Z.max a b).
Proof.
  unfold Math_max. change (Finite (inject_Z a)) with (of_Z a).
  change (Finite (inject_Z b)) with (of_Z b).
  rewrite less_than_of_Z. destruct (Z.ltb_spec a b); [rewrite Z.max_r by lia | rewrite Z.max_l by lia]; reflexivity.
Qed.

Lemma Math_min_of_Z (a b : Z) : Math_min (of_Z a) (of_Z b) = of_Z (Z.min a b).
Proof.
  unfold Math_min. change (Finite (inject_Z a)) with (of_Z a).
  change (Finite (inject_Z b)) with (of_Z b).
  rewrite less_than_of_Z. destruct (Z.ltb_spec b a); [rewrite Z.min_r by lia | rewrite Z.min_l by lia]; reflexivity.
Qed.

Lemma of_Z_inj (a b : Z) : of_Z a = of_Z b -> a = b.
Proof. unfold of_Z, inject_Z; congruence. Qed.

Lemma clamped_version_range (value : number) : 1 <= clamped_version value <= 40.
Proof.
  destruct value as [|[|]|q]; simpl; lia.
Qed.

Lemma clampVersion_clamped (value : number) :
  clampVersion value = of_Z (clamped_version value).
Proof.
  unfold clampVersion.
  destruct value as [|[|]|q]; try reflexivity.
  simpl Math_trunc. unfold logical_or. rewrite ToBoolean_of_Z.
  set (z := Z.quot (Qnum q) (Zpos (Qden q))).
  destruct (Z.eqb_spec z 0) as [Hz|Hz]; simpl negb; cbv iota;
    rewrite Math_max_of_Z, Math_min_of_Z; simpl clamped_version; fold z;
    apply (f_equal of_Z); lia.
Qed.

Lemma clampVersion_as_specified_clamped (value : number) :
  is_positive_infinity value = false ->
  clampVersion_as_specified value = of_Z (clamped_version value).
Proof.
  intros Hinf. unfold clampVersion_as_specified.
  destruct value as [|[|]|q]; try reflexivity; try discriminate.
  simpl Math_trunc. simpl Number_isFinite. unfold greater_than. rewrite less_than_of_Z.
  set (z := Z.quot (Qnum q) (Zpos (Qden q))).
  simpl negb at 1. rewrite orb_false_l.
  destruct (Z.ltb_spec 0 z); simpl negb; cbv iota;
    rewrite Math_max_of_Z, Math_min_of_Z; simpl clamped_version; fold z;
    apply (f_equal of_Z); lia.
Qed.

(** C5 (as stated, refuted): at [+Infinity] the code answers 40, where the
    normalization as the spec words it (1 for a non-finite value) answers 1. *)
Lemma clampVersion_positive_infinity_is_40 :
  clampVersion (Infinity false) = of_Z 40
  /\ clampVersion_as_specified (Infinity false) = of_Z 1
  /\ clampVersion (Infinity false) <> clampVersion_as_specified (Infinity false).
Proof.
  repeat split; try reflexivity. intros H. apply of_Z_inj in H. discriminate.
Qed.

(** C5 (amended): [clampVersion] is total and returns an integer of [1, 40]:
    the truncation towards zero clamped into [1, 40] for a finite value, 1 for
    [NaN] and [-Infinity], 40 for [+Infinity]; it is the normalization of
    section 4.1 at every value but [+Infinity]. *)
Theorem clampVersion_total_in_range (value : number) :
  clampVersion value = of_Z (clamped_version value)
  /\ 1 <= clamped_version value <= 40
  /\ clampVersion value =
       (if is_positive_infinity value then of_Z 40 else clampVersion_as_specified value).
Proof.
  split; [apply clampVersion_clamped|].
  split; [apply clamped_version_range|].
  destruct (is_positive_infinity value) eqn:Hinf.
  - destruct value as [|[|]|q]; try discriminate. reflexivity.
  - now rewrite clampVersion_clamped, clampVersion_as_specified_clamped.
Qed.

(** ** The range check *)

Lemma greater_than_clampVersion (a b : number) :
  greater_than (clampVersion a) (clampVersion b) = (clamped_version b <? clamped_version a).
Proof. unfold greater_than. now rewrite !clampVersion_clamped, less_than_of_Z. Qed.

(** C3: [generateQrCode] throws its [RangeError] exactly when the clamped
    minimum exceeds the clamped maximum; then there is no result, hence no
    document, and whenever the clamped minimum is at most the clamped maximum
    that error is not what the call ends with. *)
Theorem generateQrCode_InvalidRange (E : Engine) (o : Options.GenerateQrOptions) :
  (generateQrCode E o = Throw InvalidRange
   <-> greater_than (clampVersion (Options.minVersion o)) (clampVersion (Options.maxVersion o)) = true)
  /\ (greater_than (clampVersion (Options.minVersion o)) (clampVersion (Options.maxVersion o)) = true
      <-> clamped_version (Options.maxVersion o) < clamped_version (Options.minVersion o)).
Proof.
  split.
  - unfold generateQrCode.
    destruct (greater_than (clampVersion _) (clampVersion _)); split; try reflexivity; try discriminate.
    destruct (buildSegments E _ _) as [segments|x]; simpl; [|discriminate].
    destruct (encodeSegments E _ _ _ _ _ _) as [qr|x]; simpl; discriminate.
  - rewrite greater_than_clampVersion. apply Z.ltb_lt.
Qed.

(** ** Strings *)

Lemma str_app_assoc (a b c : string) : ((a ++ b) ++ c = a ++ (b ++ c))%string.
Proof. induction a as [|x a IH]; simpl; [reflexivity | now rewrite IH]. Qed.

Lemma str_app_nil_r (a : string) : (a ++ EmptyString = a)%string.
Proof. induction a as [|x a IH]; simpl; [reflexivity | now rewrite IH]. Qed.

Lemma str_length_app (a b : string) :
  String.length (a ++ b) = (String.length a + String.length b)%nat.
Proof. induction a as [|x a IH]; simpl; [reflexivity | now rewrite IH]. Qed.

Lemma count_app (p : ascii -> bool) (a b : string) :
  count p (a ++ b) = (count p a + count p b)%nat.
Proof. induction a as [|x a IH]; simpl; [reflexivity | rewrite IH; lia]. Qed.

Lemma every_app (p : ascii -> bool) (a b : string) :
  every p (a ++ b) = every p a && every p b.
Proof.
  induction a as [|x a IH]; simpl; [reflexivity | now rewrite IH, andb_assoc].
Qed.

Lemma count_none (p q : ascii -> bool) (s : string) :
  (forall c, q c = true -> p c = false) -> every q s = true -> count p s = 0%nat.
Proof.
  intros Hpq. induction s as [|x s IH]; simpl; [reflexivity|].
  intros H. apply andb_prop in H as [Hx Hs].
  now rewrite (Hpq x Hx), IH.
Qed.

Lemma string_of_uint_digits (d : Decimal.uint) :
  every digit_or_minus (NilEmpty.string_of_uint d) = true.
Proof. induction d; simpl; auto. Qed.

Lemma ToString_digits (n : Z) : every digit_or_minus (ToString n) = true.
Proof.
  unfold ToString, NilZero.string_of_int, NilZero.string_of_uint.
  destruct (Z.to_int n) as [d|d]; destruct d; simpl;
    try reflexivity; apply string_of_uint_digits.
Qed.

Lemma digit_or_minus_not_M (c : ascii) : digit_or_minus c = true -> Ascii.eqb "M" c = false.
Proof. destruct c as [[] [] [] [] [] [] [] []]; simpl; intros H; try reflexivity; discriminate H. Qed.

Lemma digit_or_minus_not_z (c : ascii) : digit_or_minus c = true -> Ascii.eqb "z" c = false.
Proof. destruct c as [[] [] [] [] [] [] [] []]; simpl; intros H; try reflexivity; discriminate H. Qed.

Lemma trimEnd_app (a b : string) :
  trimEnd b <> EmptyString -> trimEnd (a ++ b) = (a ++ trimEnd b)%string.
Proof.
  intros Hb. induction a as [|x a IH]; simpl; [reflexivity|].
  rewrite IH. destruct (a ++ trimEnd b)%string eqn:Hab; [|reflexivity].
  destruct a; simpl in Hab; [contradiction | discriminate].
Qed.

Lemma flatten_app (l1 l2 : list string) :
  flatten (l1 ++ l2) = (flatten l1 ++ flatten l2)%string.
Proof.
  induction l1 as [|x l1 IH]; simpl; [reflexivity|].
  now rewrite IH, str_app_assoc.
Qed.

Lemma trimEnd_piece (p : string) :
  piece p -> trimEnd (p ++ " ")%string = p /\ p <> EmptyString.
Proof.
  intros (c & body & -> & Hc). split; [|discriminate].
  change (String c (body ++ "z") ++ " ")%string with (String c ((body ++ "z") ++ " "))%string.
  rewrite str_app_assoc.
  change (String c (body ++ "z" ++ " "))%string with (String c body ++ "z ")%string.
  rewrite trimEnd_app by (simpl; discriminate).
  reflexivity.
Qed.

Lemma concat_pieces_nonempty (p : string) (l : list string) :
  p <> EmptyString -> String.concat " " (p :: l) <> EmptyString.
Proof.
  intros Hp. destruct l; simpl; [assumption|].
  destruct p; [contradiction | discriminate].
Qed.

Lemma trimEnd_pieces (p : string) (l : list string) :
  Forall piece (p :: l) ->
  trimEnd (flatten (List.map (fun p => (p ++ " ")%string) (p :: l))) = String.concat " " (p :: l).
Proof.
  revert p. induction l as [|p' l IH]; intros p Hall.
  - inversion Hall as [|? ? Hp _]; subst.
    cbn [List.map flatten fold_right String.concat].
    rewrite str_app_nil_r. now apply trimEnd_piece.
  - inversion Hall as [|? ? Hp Hl]; subst.
    specialize (IH p' Hl).
    change (flatten (List.map (fun p => (p ++ " ")%string) (p :: p' :: l)))
      with ((p ++ " ") ++ flatten (List.map (fun p => (p ++ " ")%string) (p' :: l)))%string.
    rewrite trimEnd_app.
    + rewrite IH, str_app_assoc. reflexivity.
    + rewrite IH. apply concat_pieces_nonempty.
      inversion Hl as [|? ? Hp' _]; subst. now apply trimEnd_piece.
Qed.

(** What [trim] leaves of pieces that each end in a space: the pieces joined
    by single spaces. *)
Lemma trim_pieces (pieces : list string) :
  Forall piece pieces ->
  trim (flatten (List.map (fun p => (p ++ " ")%string) pieces)) = String.concat " " pieces.
Proof.
  intros Hall. destruct pieces as [|p l]; [reflexivity|].
  unfold trim.
  replace (trimStart (flatten (List.map (fun p => (p ++ " ")%string) (p :: l))))
    with (flatten (List.map (fun p => (p ++ " ")%string) (p :: l))).
  - now apply trimEnd_pieces.
  - inversion Hall as [|? ? (c & body & -> & Hc) _]; subst.
    simpl. now rewrite Hc.
Qed.

(** ** Loops *)

Lemma for_range_fold {S} (n : Z) (body : Z -> S -> S) (s : S) :
  for_range n body s = fold_left (fun acc i => body i acc) (range n) s.
Proof.
  unfold for_range, range. generalize (seq 0 (Z.to_nat n)) as l. intros l.
  revert s. induction l as [|i l IH]; intros s; simpl; [reflexivity | apply IH].
Qed.

Lemma fold_left_pointwise {A B} (f g : A -> B -> A) (l : list B) (a : A) :
  (forall a b, f a b = g a b) -> fold_left f l a = fold_left g l a.
Proof.
  intros Hfg. revert a. induction l as [|b l IH]; intros a; simpl; [reflexivity|].
  now rewrite Hfg, IH.
Qed.

Lemma In_range (n i : Z) : In i (range n) <-> 0 <= i < n.
Proof.
  unfold range. rewrite in_map_iff. split.
  - intros (k & <- & Hk). apply in_seq in Hk. lia.
  - intros Hi. exists (Z.to_nat i). split; [lia|]. apply in_seq. lia.
Qed.

Lemma In_row_major (n : Z) (c : Z * Z) :
  In c (row_major n) <-> 0 <= fst c < n /\ 0 <= snd c < n.
Proof.
  unfold row_major. rewrite in_flat_map. split.
  - intros (y & Hy & Hc). apply in_map_iff in Hc as (x & <- & Hx).
    apply In_range in Hx, Hy. simpl. lia.
  - intros [Hx Hy]. exists (snd c). split; [now apply In_range|].
    apply in_map_iff. exists (fst c). split; [now destruct c | now apply In_range].
Qed.

(** A loop that appends for the indices that pass a test. *)
Lemma fold_left_append {I} (p : I -> bool) (piece_of : I -> string) (l : list I) (acc : string) :
  fold_left (fun acc i => if p i then (acc ++ piece_of i)%string else acc) l acc
  = (acc ++ flatten (List.map piece_of (filter p l)))%string.
Proof.
  revert acc. induction l as [|i l IH]; intros acc; simpl.
  - now rewrite str_app_nil_r.
  - rewrite IH. destruct (p i); simpl; [now rewrite str_app_assoc | reflexivity].
Qed.

(** A loop that counts the indices that pass a test. *)
Lemma fold_left_count {I} (p : I -> bool) (l : list I) (acc : Z) :
  fold_left (fun acc i => if p i then acc + 1 else acc) l acc
  = acc + Z.of_nat (List.length (filter p l)).
Proof.
  revert acc. induction l as [|i l IH]; intros acc; simpl fold_left; simpl filter.
  - simpl. lia.
  - rewrite IH. destruct (p i); simpl List.length; lia.
Qed.

Lemma filter_row {A B} (g : A -> B -> bool) (y : B) (cols : list A) :
  filter (fun c => g (fst c) (snd c)) (List.map (fun x => (x, y)) cols)
  = List.map (fun x => (x, y)) (filter (fun x => g x y) cols).
Proof.
  induction cols as [|x cols IH]; simpl; [reflexivity|].
  destruct (g x y); simpl; now rewrite IH.
Qed.

Lemma subpath_emitted (x y : Z) :
  ("M" ++ ToString (x + SVG_BORDER) ++ "," ++ ToString (y + SVG_BORDER) ++ "h1v1h-1z ")%string
  = (subpath (x, y) ++ " ")%string.
Proof.
  unfold subpath, SVG_BORDER. simpl fst. simpl snd.
  rewrite !str_app_assoc. reflexivity.
Qed.

Section Rendering.
Variable E : Engine.
Implicit Types qr : QrCode.t (Ecc E).

Lemma path_loop qr (rows cols : list Z) (acc : string) :
  fold_left
    (fun path y =>
       fold_left
         (fun path x =>
            if QrCode.getModule qr x y
            then (path ++ "M" ++ ToString (x + SVG_BORDER) ++ ","
                       ++ ToString (y + SVG_BORDER) ++ "h1v1h-1z ")%string
            else path)
         cols path)
    rows acc
  = (acc ++ flatten (List.map (fun c => (subpath c ++ " ")%string)
               (filter (fun c => QrCode.getModule qr (fst c) (snd c))
                  (flat_map (fun y => List.map (fun x => (x, y)) cols) rows))))%string.
Proof.
  revert acc. induction rows as [|y rows IH]; intros acc; simpl fold_left.
  - simpl. now rewrite str_app_nil_r.
  - rewrite IH. cbn [flat_map]. rewrite filter_app, map_app, flatten_app, <- str_app_assoc.
    f_equal.
    rewrite (fold_left_append (fun x => QrCode.getModule qr x y)
               (fun x => ("M" ++ ToString (x + SVG_BORDER) ++ ","
                             ++ ToString (y + SVG_BORDER) ++ "h1v1h-1z ")%string)).
    f_equal. f_equal.
    rewrite (filter_row (QrCode.getModule qr)), map_map.
    apply map_ext. intros x. apply subpath_emitted.
Qed.

Lemma count_loop qr (rows cols : list Z) (acc : Z) :
  fold_left
    (fun dark y =>
       fold_left (fun dark x => if QrCode.getModule qr x y then dark + 1 else dark) cols dark)
    rows acc
  = acc + Z.of_nat (List.length
            (filter (fun c => QrCode.getModule qr (fst c) (snd c))
               (flat_map (fun y => List.map (fun x => (x, y)) cols) rows))).
Proof.
  revert acc. induction rows as [|y rows IH]; intros acc; simpl fold_left.
  - simpl. lia.
  - rewrite IH. cbn [flat_map]. rewrite filter_app, length_app.
    rewrite (fold_left_count (fun x => QrCode.getModule qr x y)).
    rewrite (filter_row (QrCode.getModule qr)), length_map. lia.
Qed.

Lemma subpath_piece (c : Z * Z) : piece (subpath c).
Proof.
  exists "M"%char, (ToString (fst c + 2) ++ "," ++ ToString (snd c + 2) ++ "h1v1h-1")%string.
  split; [|reflexivity].
  unfold subpath. simpl. f_equal.
  rewrite str_app_assoc. simpl. now rewrite str_app_assoc.
Qed.

Lemma path_of_dark_cells qr :
  for_range (QrCode.size qr)
    (fun y path =>
       for_range (QrCode.size qr)
         (fun x path =>
            if QrCode.getModule qr x y
            then (path ++ "M" ++ ToString (x + SVG_BORDER) ++ ","
                       ++ ToString (y + SVG_BORDER) ++ "h1v1h-1z ")%string
            else path)
         path)
    EmptyString
  = flatten (List.map (fun c => (subpath c ++ " ")%string) (dark_cells qr)).
Proof.
  rewrite for_range_fold.
  etransitivity; [apply fold_left_pointwise; intros; apply for_range_fold|].
  apply (path_loop qr (range (QrCode.size qr)) (range (QrCode.size qr)) EmptyString).
Qed.

(** The document that [toSvg] writes, cell by cell. *)
Lemma toSvg_dark_cells qr :
  toSvg E qr
  = svg_document (QrCode.size qr + 4) (String.concat " " (List.map subpath (dark_cells qr))).
Proof.
  unfold toSvg. rewrite path_of_dark_cells.
  rewrite <- (map_map subpath (fun p => (p ++ " ")%string)).
  rewrite trim_pieces; [reflexivity|].
  apply Forall_forall. intros p Hp. apply in_map_iff in Hp as (c & <- & _).
  apply subpath_piece.
Qed.

(** The count that [countDarkModules] returns. *)
Lemma countDarkModules_dark_cells qr :
  countDarkModules E qr = Z.of_nat (List.length (dark_cells qr)).
Proof.
  unfold countDarkModules. rewrite for_range_fold.
  etransitivity; [apply fold_left_pointwise; intros; apply for_range_fold|].
  apply (count_loop qr (range (QrCode.size qr)) (range (QrCode.size qr)) 0).
Qed.
End Rendering.

(** ** Counting the subpaths of a document *)

Lemma count_M_ToString (n : Z) : count (Ascii.eqb "M") (ToString n) = 0%nat.
Proof. exact (count_none _ _ _ digit_or_minus_not_M (ToString_digits n)). Qed.

Lemma count_z_ToString (n : Z) : count (Ascii.eqb "z") (ToString n) = 0%nat.
Proof. exact (count_none _ _ _ digit_or_minus_not_z (ToString_digits n)). Qed.

Lemma count_M_document (w : Z) (d : string) :
  count (Ascii.eqb "M") (svg_document w d) = count (Ascii.eqb "M") d.
Proof.
  unfold svg_document. rewrite !count_app. cbn [count]. rewrite ?count_app.
  rewrite !count_M_ToString. cbn. lia.
Qed.

Lemma count_z_document (w : Z) (d : string) :
  count (Ascii.eqb "z") (svg_document w d) = count (Ascii.eqb "z") d.
Proof.
  unfold svg_document. rewrite !count_app. cbn [count]. rewrite ?count_app.
  rewrite !count_z_ToString. cbn. lia.
Qed.

Lemma count_M_subpath (c : Z * Z) : count (Ascii.eqb "M") (subpath c) = 1%nat.
Proof.
  unfold subpath. rewrite !count_app, !count_M_ToString. reflexivity.
Qed.

Lemma count_z_subpath (c : Z * Z) : count (Ascii.eqb "z") (subpath c) = 1%nat.
Proof.
  unfold subpath. rewrite !count_app, !count_z_ToString. reflexivity.
Qed.

Lemma count_joined_subpaths (p : ascii -> bool) (cells : list (Z * Z)) :
  p " "%char = false ->
  (forall c, count p (subpath c) = 1%nat) ->
  count p (String.concat " " (List.map subpath cells)) = List.length cells.
Proof.
  intros Hsp Hone. induction cells as [|c cells IH]; [reflexivity|].
  destruct cells as [|c' cells]; [apply Hone|].
  change (String.concat " " (List.map subpath (c :: c' :: cells)))
    with (subpath c ++ " " ++ String.concat " " (List.map subpath (c' :: cells)))%string.
  rewrite !count_app, Hone, IH. simpl. now rewrite Hsp.
Qed.

(** ** The order of the cells *)

Lemma sorted_app {A} (R : A -> A -> Prop) (l1 l2 : list A) :
  StronglySorted R l1 -> StronglySorted R l2 ->
  (forall a b, In a l1 -> In b l2 -> R a b) ->
  StronglySorted R (l1 ++ l2).
Proof.
  intros H1 H2 H12. induction H1 as [|a l1 Hl1 IH Ha]; simpl; [assumption|].
  constructor.
  - apply IH. intros x y Hx Hy. apply H12; [now right | assumption].
  - apply Forall_app. split; [assumption|].
    apply Forall_forall. intros b Hb. apply H12; [now left | assumption].
Qed.

Lemma sorted_filter {A} (R : A -> A -> Prop) (p : A -> bool) (l : list A) :
  StronglySorted R l -> StronglySorted R (filter p l).
Proof.
  induction 1 as [|a l Hl IH Ha]; simpl; [constructor|].
  destruct (p a); [|assumption].
  constructor; [assumption|].
  apply Forall_forall. intros b Hb. apply filter_In in Hb as [Hb _].
  revert b Hb. now apply Forall_forall.
Qed.

Lemma sorted_map {A B} (R : A -> A -> Prop) (Q : B -> B -> Prop) (f : A -> B) (l : list A) :
  (forall a b, R a b -> Q (f a) (f b)) ->
  StronglySorted R l -> StronglySorted Q (List.map f l).
Proof.
  intros Hf. induction 1 as [|a l Hl IH Ha]; simpl; constructor; [assumption|].
  apply Forall_map. revert Ha. apply Forall_impl. intros b. apply Hf.
Qed.

Lemma sorted_seq (start len : nat) : StronglySorted Nat.lt (seq start len).
Proof.
  revert start. induction len as [|len IH]; intros start; simpl; constructor; [apply IH|].
  apply Forall_forall. intros k Hk. apply in_seq in Hk. unfold Nat.lt. lia.
Qed.

Lemma sorted_range (n : Z) : StronglySorted Z.lt (range n).
Proof.
  unfold range. apply (sorted_map Nat.lt); [|apply sorted_seq].
  unfold Nat.lt. intros a b Hab. lia.
Qed.

Lemma sorted_rows (rows cols : list Z) :
  StronglySorted Z.lt rows -> StronglySorted Z.lt cols ->
  StronglySorted row_major_lt (flat_map (fun y => List.map (fun x => (x, y)) cols) rows).
Proof.
  intros Hrows Hcols. induction Hrows as [|y rows Hrows IH Hy]; simpl; [constructor|].
  apply sorted_app.
  - apply (sorted_map Z.lt); [|assumption].
    intros a b Hab. right. simpl. split; [reflexivity | assumption].
  - assumption.
  - intros a b Ha Hb. apply in_map_iff in Ha as (x & <- & _).
    apply in_flat_map in Hb as (y' & Hy' & Hb). apply in_map_iff in Hb as (x' & <- & _).
    left. simpl. revert y' Hy'. now apply Forall_forall.
Qed.

Lemma sorted_row_major (n : Z) : StronglySorted row_major_lt (row_major n).
Proof. apply sorted_rows; apply sorted_range. Qed.

Lemma sorted_dark_cells {Ecc} (qr : QrCode.t Ecc) : StronglySorted row_major_lt (dark_cells qr).
Proof. apply sorted_filter, sorted_row_major. Qed.

Lemma dark_cells_ext {Ecc} (q1 q2 : QrCode.t Ecc) :
  QrCode.size q1 = QrCode.size q2 ->
  (forall x y, 0 <= x < QrCode.size q1 -> 0 <= y < QrCode.size q1 ->
               QrCode.getModule q1 x y = QrCode.getModule q2 x y) ->
  dark_cells q1 = dark_cells q2.
Proof.
  intros Hsize Hmod. unfold dark_cells. rewrite <- Hsize.
  apply filter_ext_in. intros c Hc. apply In_row_major in Hc as [Hx Hy].
  now apply Hmod.
Qed.

Lemma In_dark_cells {Ecc} (qr : QrCode.t Ecc) (c : Z * Z) :
  In c (dark_cells qr)
  <-> 0 <= fst c < QrCode.size qr /\ 0 <= snd c < QrCode.size qr
      /\ QrCode.getModule qr (fst c) (snd c) = true.
Proof.
  unfold dark_cells. rewrite filter_In, In_row_major. tauto.
Qed.

Lemma sorted_NoDup (cells : list (Z * Z)) : StronglySorted row_major_lt cells -> NoDup cells.
Proof.
  induction 1 as [|c cells Hs IH Hc]; constructor; [|assumption].
  intros Hin. rewrite Forall_forall in Hc. specialize (Hc c Hin).
  unfold row_major_lt in Hc. lia.
Qed.

(** ** The vector renderer *)

(** C1: for every matrix, [toSvg] writes the document whose [viewBox] is
    [0 0 (size+4) (size+4)], with the white rectangle over the whole canvas
    and one black path; the path is, joined by single spaces, one closed unit
    square [M(x+2),(y+2)h1v1h-1z] for each dark cell of the matrix and nothing
    for a light one, each cell once, rows from the top and each row from the
    left. *)
Theorem toSvg_unit_squares_row_major (E : Engine) (qr : QrCode.t (Ecc E)) :
  toSvg E qr
  = svg_document (QrCode.size qr + 4) (String.concat " " (List.map subpath (dark_cells qr)))
  /\ (forall x y, In (x, y) (dark_cells qr)
        <-> 0 <= x < QrCode.size qr /\ 0 <= y < QrCode.size qr
            /\ QrCode.getModule qr x y = true)
  /\ NoDup (dark_cells qr)
  /\ StronglySorted row_major_lt (dark_cells qr).
Proof.
  split; [apply toSvg_dark_cells|].
  split; [intros x y; apply (In_dark_cells qr (x, y))|].
  split; [apply sorted_NoDup|]; apply sorted_dark_cells.
Qed.

Lemma moveto_count_toSvg (E : Engine) (qr : QrCode.t (Ecc E)) :
  moveto_count (toSvg E qr) = countDarkModules E qr
  /\ closepath_count (toSvg E qr) = countDarkModules E qr.
Proof.
  unfold moveto_count, closepath_count.
  rewrite toSvg_dark_cells, countDarkModules_dark_cells, count_M_document, count_z_document.
  rewrite !count_joined_subpaths; auto using count_M_subpath, count_z_subpath.
Qed.

Lemma generateQrCode_Ok (E : Engine) (o : Options.GenerateQrOptions) (r : GenerateQrResult) :
  generateQrCode E o = Ok r ->
  exists segments qr,
    greater_than (clampVersion (Options.minVersion o)) (clampVersion (Options.maxVersion o)) = false
    /\ buildSegments E (Options.text o) (Options.mode o) = Ok segments
    /\ svg r = toSvg E qr
    /\ Metadata.usedMode (metadata r) = detectUsedMode E segments
    /\ Metadata.segmentCount (metadata r) = Z.of_nat (List.length segments)
    /\ Metadata.size (metadata r) = QrCode.size qr
    /\ Metadata.darkModules (metadata r) = countDarkModules E qr.
Proof.
  unfold generateQrCode.
  destruct (greater_than _ _); [discriminate|].
  destruct (buildSegments E _ _) as [segments|x]; [|discriminate]. simpl.
  destruct (encodeSegments E _ _ _ _ _ _) as [qr|x]; [|discriminate]. simpl.
  intros [= <-]. exists segments, qr. simpl. repeat split; reflexivity.
Qed.

(** C2: whenever [generateQrCode] returns, the [darkModules] of its metadata
    is the number of unit-square subpaths in the path of its document: the
    path is the join of that many subpaths, and the document has that many
    [M] commands and that many [z] commands. *)
Theorem darkModules_is_subpath_count (E : Engine) (o : Options.GenerateQrOptions)
    (r : GenerateQrResult) :
  generateQrCode E o = Ok r ->
  (exists cells,
      svg r = svg_document (Metadata.size (metadata r) + 4)
                (String.concat " " (List.map subpath cells))
      /\ Metadata.darkModules (metadata r) = Z.of_nat (List.length cells))
  /\ moveto_count (svg r) = Metadata.darkModules (metadata r)
  /\ closepath_count (svg r) = Metadata.darkModules (metadata r).
Proof.
  intros H. apply generateQrCode_Ok in H
    as (segments & qr & _ & _ & Hsvg & _ & _ & Hsize & Hdark).
  rewrite Hsvg, Hsize, Hdark. split; [|apply moveto_count_toSvg].
  exists (dark_cells qr). split; [apply toSvg_dark_cells | apply countDarkModules_dark_cells].
Qed.

Lemma darkModules_is_subpath_count_witness :
  exists r,
    generateQrCode ModelEngine.engine (ModelEngine.request "12345" mode_numeric) = Ok r
    /\ moveto_count (svg r) = Metadata.darkModules (metadata r)
    /\ Metadata.darkModules (metadata r) = 99.
Proof.
  eexists. split; [vm_compute; reflexivity|].
  split; [|vm_compute; reflexivity].
  eapply (darkModules_is_subpath_count ModelEngine.engine
            (ModelEngine.request "12345" mode_numeric)).
  vm_compute. reflexivity.
Defined.

(** ** Calls in time *)

Lemma for_range_threaded {S A} (n : Z) (body : Z -> A * S -> A * S) (answer : Z -> A -> A) :
  (forall i a s, fst (body i (a, s)) = answer i a) ->
  forall a s, fst (for_range n body (a, s)) = for_range n answer a.
Proof.
  intros Hbody. unfold for_range. generalize (seq 0 (Z.to_nat n)) as l.
  induction l as [|i l IH]; intros a s; simpl; [reflexivity|].
  specialize (Hbody (Z.of_nat i) a s).
  destruct (body (Z.of_nat i) (a, s)) as [a' s']. simpl in Hbody. subst a'. apply IH.
Qed.

Section Threading.
Variable S : Type.
Variable E : Stateful.Engine S.
Hypothesis engine_deterministic : Stateful.deterministic_engine E.

Lemma getModule_at_state (qr : Stateful.QrCode E) (x y : Z) (s s0 : S) :
  fst (Stateful.getModule E qr x y s0) = fst (Stateful.getModule E qr x y s).
Proof. apply engine_deterministic. Qed.

Lemma buildSegments_at_state (text : string) (m : QrMode) (s s0 : S) :
  fst (Stateful.buildSegments E text m s) = buildSegments (at_state E s0) text m.
Proof.
  destruct engine_deterministic as (Hauto & Hnum & Halpha & Hbytes & _).
  unfold Stateful.buildSegments, buildSegments. destruct m; simpl.
  - apply Hauto.
  - rewrite <- (Hnum text s s0). now destruct (Stateful.makeNumeric E text s).
  - rewrite <- (Halpha text s s0). now destruct (Stateful.makeAlphanumeric E text s).
  - rewrite <- (Hbytes (TextEncoder_encode text) s s0).
    now destruct (Stateful.makeBytes E (TextEncoder_encode text) s).
Qed.

Lemma countDarkModules_at_state (qr : Stateful.QrCode E) (s s0 : S) :
  fst (Stateful.countDarkModules E qr s) = countDarkModules (at_state E s0) (snapshot E s0 qr).
Proof.
  unfold Stateful.countDarkModules, countDarkModules.
  apply for_range_threaded. intros y dark s1. cbn beta iota.
  apply for_range_threaded. intros x dark' s2. cbn beta iota.
  cbn [QrCode.getModule snapshot]. rewrite (getModule_at_state qr x y s2 s0).
  now destruct (Stateful.getModule E qr x y s2).
Qed.

Lemma toSvg_at_state (qr : Stateful.QrCode E) (s s0 : S) :
  fst (Stateful.toSvg E qr s) = toSvg (at_state E s0) (snapshot E s0 qr).
Proof.
  unfold Stateful.toSvg, toSvg.
  match goal with
  | |- context [for_range ?n ?body (EmptyString, s)] =>
      pose proof (for_range_threaded n body
        (fun y path =>
           for_range (Stateful.size E qr)
             (fun x path =>
                if QrCode.getModule (snapshot E s0 qr) x y
                then (path ++ "M" ++ ToString (x + SVG_BORDER) ++ ","
                        ++ ToString (y + SVG_BORDER) ++ "h1v1h-1z ")%string
                else path)
             path)) as Hloop;
      destruct (for_range n body (EmptyString, s)) as [path s'] eqn:Hrun
  end.
  cbn [fst]. apply (f_equal fst) in Hrun. cbn [fst] in Hrun.
  rewrite Hloop in Hrun; [rewrite <- Hrun; reflexivity|].
  intros y path0 s1. cbn beta iota.
  apply for_range_threaded. intros x path1 s2. cbn beta iota.
  cbn [QrCode.getModule snapshot]. rewrite (getModule_at_state qr x y s2 s0).
  now destruct (Stateful.getModule E qr x y s2).
Qed.

Lemma generateQrCode_at_state (o : Options.GenerateQrOptions) (s s0 : S) :
  fst (Stateful.generateQrCode E o s) = generateQrCode (at_state E s0) o.
Proof.
  unfold Stateful.generateQrCode, generateQrCode.
  destruct (greater_than _ _); [reflexivity|].
  rewrite <- (buildSegments_at_state (Options.text o) (Options.mode o) s s0).
  destruct (Stateful.buildSegments E (Options.text o) (Options.mode o) s)
    as [[segments|x] s1]; [|reflexivity].
  change (ECL_MAP (at_state E s0) (Options.ecl o))
    with (Stateful.ECL_MAP E (Options.ecl o)).
  cbn [fst lift rbind encodeSegments at_state].
  match goal with
  | |- context [Stateful.encodeSegments E ?a ?b ?c ?d ?e ?f s1] =>
      rewrite <- (proj1 (proj2 (proj2 (proj2 (proj2 engine_deterministic))))
                    a b c d e f s1 s0);
      destruct (Stateful.encodeSegments E a b c d e f s1) as [[qr|x] s2]; [|reflexivity]
  end.
  cbn [fst lift rbind].
  rewrite <- (toSvg_at_state qr s2 s0).
  destruct (Stateful.toSvg E qr s2) as [document s3].
  rewrite <- (countDarkModules_at_state qr s3 s0).
  destruct (Stateful.countDarkModules E qr s3) as [dark s4].
  reflexivity.
Qed.

End Threading.

Lemma counting_engine_deterministic : Stateful.deterministic_engine counting_engine.
Proof. repeat split. Qed.

(** Without the engine's determinism there is none to prove: with an engine
    whose matrix fades with time, a second call for the same request does
    not return the document of the first. *)
Example fading_engine_second_call_differs :
  let o := ModelEngine.request "12345" mode_numeric in
  let first := Stateful.generateQrCode fading_engine o 0 in
  fst (Stateful.generateQrCode fading_engine o (snd first)) <> fst first.
Proof. vm_compute. discriminate. Qed.

(** C8: with an engine whose answers do not depend on the state of the
    library, [generateQrCode] is deterministic: two calls with equal options,
    made in any two states, end alike, and when they return, return the same
    document, byte for byte, and the same metadata; so does a second call
    made right after a first.  The document is the one of the matrix as the
    engine holds it, its dark cells written rows from the top and each row
    from the left. *)
Theorem generateQrCode_deterministic (S : Type) (E : Stateful.Engine S)
    (o1 o2 : Options.GenerateQrOptions) (s1 s2 : S) :
  Stateful.deterministic_engine E ->
  o1 = o2 ->
  fst (Stateful.generateQrCode E o1 s1) = fst (Stateful.generateQrCode E o2 s2)
  /\ (forall r1 r2,
        fst (Stateful.generateQrCode E o1 s1) = Ok r1 ->
        fst (Stateful.generateQrCode E o2 s2) = Ok r2 ->
        svg r1 = svg r2 /\ metadata r1 = metadata r2)
  /\ fst (Stateful.generateQrCode E o2 (snd (Stateful.generateQrCode E o1 s1)))
     = fst (Stateful.generateQrCode E o1 s1)
  /\ (forall qr,
        fst (Stateful.toSvg E qr s1) = fst (Stateful.toSvg E qr s2)
        /\ fst (Stateful.toSvg E qr s1)
           = svg_document (Stateful.size E qr + 4)
               (String.concat " " (List.map subpath (dark_cells (snapshot E s2 qr))))
        /\ StronglySorted row_major_lt (dark_cells (snapshot E s2 qr))).
Proof.
  intros Hengine <-.
  assert (Hsame : forall s s', fst (Stateful.generateQrCode E o1 s)
                               = fst (Stateful.generateQrCode E o1 s')).
  { intros s s'. now rewrite (generateQrCode_at_state S E Hengine o1 s s1),
                             (generateQrCode_at_state S E Hengine o1 s' s1). }
  split; [apply Hsame|]. split; [|split; [apply Hsame|]].
  - intros r1 r2 H1 H2. rewrite (Hsame s1 s2), H2 in H1. injection H1 as <-.
    split; reflexivity.
  - intros qr.
    rewrite (toSvg_at_state S E Hengine qr s1 s2), (toSvg_at_state S E Hengine qr s2 s2).
    split; [reflexivity|]. split; [apply toSvg_dark_cells | apply sorted_dark_cells].
Qed.

Lemma generateQrCode_deterministic_witness :
  fst (Stateful.generateQrCode counting_engine (ModelEngine.request "12345" mode_numeric) 0)
  = fst (Stateful.generateQrCode counting_engine (ModelEngine.request "12345" mode_numeric) 884)
  /\ snd (Stateful.generateQrCode counting_engine (ModelEngine.request "12345" mode_numeric) 0)
     = 884.
Proof.
  destruct (generateQrCode_deterministic Z counting_engine
              (ModelEngine.request "12345" mode_numeric)
              (ModelEngine.request "12345" mode_numeric) 0 884
              counting_engine_deterministic eq_refl) as [Hsame _].
  split; [exact Hsame | vm_compute; reflexivity].
Defined.

(** ** The mode classifier *)

Lemma QrModeUsed_eqb_eq (a b : QrModeUsed) : QrModeUsed_eqb a b = true <-> a = b.
Proof. destruct a, b; simpl; split; intros H; try reflexivity; discriminate H. Qed.

Lemma In_Set_add (m x : QrModeUsed) (used : list QrModeUsed) :
  In m (Set_add x used) <-> m = x \/ In m used.
Proof.
  unfold Set_add. destruct (existsb (QrModeUsed_eqb x) used) eqn:Hx.
  - apply existsb_exists in Hx as (x' & Hin & Heq). apply QrModeUsed_eqb_eq in Heq. subst x'.
    split; [now right | intros [-> | H]; assumption].
  - rewrite in_app_iff. simpl. intuition congruence.
Qed.

Lemma mode_of_bits_not_none (bits : Z) : mode_of_bits bits <> used_none.
Proof.
  unfold mode_of_bits, MODE_BY_BITS, lookup.
  destruct (1 =? bits); [discriminate|].
  destruct (2 =? bits); [discriminate|].
  destruct (4 =? bits); discriminate.
Qed.

Lemma mode_of_bits_table (bits : Z) (m : QrModeUsed) :
  In (bits, m) MODE_BY_BITS -> mode_of_bits bits = m.
Proof.
  simpl. intros [H | [H | [H | []]]]; injection H as <- <-; reflexivity.
Qed.

(** Two different mode indicators with the same name are both outside the
    table. *)
Lemma mode_of_bits_collision (b1 b2 : Z) :
  b1 <> b2 -> mode_of_bits b1 = mode_of_bits b2 -> mode_of_bits b1 = used_mixed.
Proof.
  unfold mode_of_bits, MODE_BY_BITS, lookup. intros Hne.
  destruct (Z.eqb_spec 1 b1), (Z.eqb_spec 2 b1), (Z.eqb_spec 4 b1),
    (Z.eqb_spec 1 b2), (Z.eqb_spec 2 b2), (Z.eqb_spec 4 b2);
    intros H; try reflexivity; try discriminate H; lia.
Qed.

Section Classifier.
Variable E : Engine.

Lemma In_used (segments : list (QrSegment E)) (used : list QrModeUsed) (m : QrModeUsed) :
  In m (fold_left (used_step E) segments used)
  <-> In m used \/ exists s, In s segments /\ mode_of_bits (modeBits E s) = m.
Proof.
  revert used. induction segments as [|s segments IH]; intros used; simpl.
  - split; [now left | intros [H | (s & [] & _)]; assumption].
  - rewrite IH. unfold used_step. rewrite In_Set_add. split.
    + intros [[-> | H] | (s' & Hs' & Hm)]; eauto.
    + intros [H | (s' & [<- | Hs'] & Hm)]; eauto.
Qed.

Lemma used_single_mode (segments : list (QrSegment E)) (m : QrModeUsed) :
  Forall (fun s => mode_of_bits (modeBits E s) = m) segments ->
  fold_left (used_step E) segments [m] = [m].
Proof.
  induction 1 as [|s segments Hs _ IH]; simpl; [reflexivity|].
  unfold used_step at 2. rewrite Hs. unfold Set_add. simpl existsb.
  replace (QrModeUsed_eqb m m) with true by (symmetry; now apply QrModeUsed_eqb_eq).
  simpl. apply IH.
Qed.

Lemma detectUsedMode_unfold (s : QrSegment E) (segments : list (QrSegment E)) :
  detectUsedMode E (s :: segments)
  = match fold_left (used_step E) segments [mode_of_bits (modeBits E s)] with
    | [single] => single
    | _ => used_mixed
    end.
Proof. reflexivity. Qed.

Lemma detectUsedMode_none (segments : list (QrSegment E)) :
  detectUsedMode E segments = used_none <-> segments = [].
Proof.
  destruct segments as [|s segments]; [split; reflexivity|].
  split; [|discriminate]. rewrite detectUsedMode_unfold.
  destruct (fold_left (used_step E) segments _) as [|single [|? ?]] eqn:Hused; try discriminate.
  intros ->.
  assert (Hin : In used_none (fold_left (used_step E) segments [mode_of_bits (modeBits E s)]))
    by (rewrite Hused; now left).
  apply In_used in Hin as [[H | []] | (s' & _ & H)]; now apply mode_of_bits_not_none in H.
Qed.

Lemma detectUsedMode_common (segments : list (QrSegment E)) (bits : Z) :
  segments <> [] ->
  Forall (fun s => modeBits E s = bits) segments ->
  detectUsedMode E segments = mode_of_bits bits.
Proof.
  destruct segments as [|s segments]; [congruence|]. intros _ Hall.
  inversion Hall as [|? ? Hs Hrest]; subst.
  rewrite detectUsedMode_unfold, used_single_mode; [reflexivity|].
  revert Hrest. apply Forall_impl. now intros s' ->.
Qed.

Lemma detectUsedMode_mixed (segments : list (QrSegment E)) (s1 s2 : QrSegment E) :
  In s1 segments -> In s2 segments -> modeBits E s1 <> modeBits E s2 ->
  detectUsedMode E segments = used_mixed.
Proof.
  intros H1 H2 Hne.
  destruct segments as [|s segments]; [contradiction|].
  rewrite detectUsedMode_unfold.
  destruct (fold_left (used_step E) segments _) as [|single [|? ?]] eqn:Hused; try reflexivity.
  assert (Hin : forall s', In s' (s :: segments) ->
                           mode_of_bits (modeBits E s') = single).
  { intros s' Hs'.
    assert (H : In (mode_of_bits (modeBits E s'))
                  (fold_left (used_step E) segments [mode_of_bits (modeBits E s)])).
    { apply In_used. destruct Hs' as [<- | Hs']; [left; now left | right; eauto]. }
    rewrite Hused in H. destruct H as [H | []]. now symmetry. }
  rewrite <- (Hin s1 H1). apply (mode_of_bits_collision _ _ Hne).
  now rewrite (Hin s1 H1), (Hin s2 H2).
Qed.

(** ** The segment builder *)

Lemma buildSegments_explicit (text : string) (m : QrMode) (segments : list (QrSegment E)) :
  m <> mode_auto -> buildSegments E text m = Ok segments -> exists s, segments = [s].
Proof.
  intros Hm. destruct m; [congruence| | |]; simpl;
    [destruct (makeNumeric E text) | destruct (makeAlphanumeric E text)
     | destruct (makeBytes E _)]; simpl; intros [= <-]; eauto.
Qed.

Lemma usedMode_none_iff (o : Options.GenerateQrOptions) (r : GenerateQrResult) :
  auto_segmenter_contract E ->
  Options.mode o = mode_auto ->
  generateQrCode E o = Ok r ->
  (Metadata.usedMode (metadata r) = used_none <-> Options.text o = EmptyString).
Proof.
  intros Hengine Hmode H.
  apply generateQrCode_Ok in H as (segments & qr & _ & Hseg & _ & -> & _).
  rewrite Hmode in Hseg. simpl in Hseg.
  rewrite detectUsedMode_none. now apply Hengine.
Qed.
End Classifier.

Lemma ModelEngine_auto_segmenter : auto_segmenter_contract ModelEngine.engine.
Proof.
  intros text segments. simpl. unfold ModelEngine.make_segments.
  destruct text as [|c text]; [intros [= <-]; split; reflexivity|].
  unfold ModelEngine.make_numeric, ModelEngine.make_alphanumeric, ModelEngine.make_bytes.
  destruct (ModelEngine.is_numeric _); simpl;
    [|destruct (ModelEngine.is_alphanumeric _); simpl];
    intros [= <-]; split; discriminate.
Qed.

(** C6: [detectUsedMode] answers ['none'] exactly for the empty list, the
    common mode when every segment carries the same one of the three mode
    indicators of [MODE_BY_BITS], and ['mixed'] as soon as two segments carry
    different mode indicators; and, with an engine whose automatic segmenter
    returns no segment exactly for the empty text, the [usedMode] of a result
    in mode [auto] is ['none'] if and only if the text is empty. *)
Theorem detectUsedMode_classifies (E : Engine) (segments : list (QrSegment E))
    (o : Options.GenerateQrOptions) (r : GenerateQrResult) :
  auto_segmenter_contract E ->
  Options.mode o = mode_auto ->
  generateQrCode E o = Ok r ->
  (detectUsedMode E segments = used_none <-> segments = [])
  /\ (forall bits m, In (bits, m) MODE_BY_BITS -> segments <> [] ->
        Forall (fun s => modeBits E s = bits) segments -> detectUsedMode E segments = m)
  /\ (forall s1 s2, In s1 segments -> In s2 segments -> modeBits E s1 <> modeBits E s2 ->
        detectUsedMode E segments = used_mixed)
  /\ (Metadata.usedMode (metadata r) = used_none <-> Options.text o = EmptyString).
Proof.
  intros Hengine Hmode Hr.
  split; [apply detectUsedMode_none|].
  split; [intros bits m Hm Hne Hall;
          rewrite <- (mode_of_bits_table bits m Hm); now apply (detectUsedMode_common E)|].
  split; [apply detectUsedMode_mixed | now apply (usedMode_none_iff E o r)].
Qed.

Lemma detectUsedMode_classifies_witness :
  exists r,
    generateQrCode ModelEngine.engine (ModelEngine.request "HELLO 42" mode_auto) = Ok r
    /\ (Metadata.usedMode (metadata r) = used_none <-> "HELLO 42"%string = EmptyString)
    /\ Metadata.usedMode (metadata r) = used_alphanumeric.
Proof.
  eexists. split; [vm_compute; reflexivity|].
  split; [|vm_compute; reflexivity].
  refine (proj2 (proj2 (proj2
    (detectUsedMode_classifies ModelEngine.engine []
       (ModelEngine.request "HELLO 42" mode_auto) _ ModelEngine_auto_segmenter _ _)))).
  - reflexivity.
  - vm_compute. reflexivity.
Defined.

(** C4 (as stated, refuted): the empty text in mode [numeric] gives one
    segment, an empty numeric one: the result reports [segmentCount = 1] and
    [usedMode = 'numeric'], not 0 and ['none']. *)
Lemma empty_numeric_text_has_one_segment :
  (exists r,
      generateQrCode ModelEngine.engine (ModelEngine.request EmptyString mode_numeric) = Ok r
      /\ Metadata.segmentCount (metadata r) = 1
      /\ Metadata.usedMode (metadata r) = used_numeric)
  /\ ~ empty_text_gives_no_segment ModelEngine.engine mode_numeric.
Proof.
  split.
  - eexists. split; [vm_compute; reflexivity|]. split; vm_compute; reflexivity.
  - intros H.
    destruct (generateQrCode ModelEngine.engine (ModelEngine.request EmptyString mode_numeric))
      as [r|x] eqn:Hr; [|vm_compute in Hr; discriminate].
    destruct (H (ModelEngine.request EmptyString mode_numeric) r eq_refl eq_refl Hr)
      as [_ Hmode].
    vm_compute in Hr. injection Hr as <-. discriminate Hmode.
Qed.

Lemma ModelEngine_accepts_empty_text (m : QrMode) :
  engine_accepts_empty_text ModelEngine.engine m.
Proof.
  assert (Henc : forall segments, engine_encodes ModelEngine.engine segments).
  { intros segments level a b mask boostEcl _ _ _ _. simpl.
    unfold ModelEngine.encode_segments, to_Z, of_Z.
    replace (Qfloor (inject_Z a)) with a by (symmetry; apply Qfloor_Z).
    rewrite (proj2 (Qeq_bool_iff _ _) (Qeq_refl _)). eauto. }
  destruct m; simpl.
  - split; [reflexivity | apply Henc].
  - eexists. split; [reflexivity | apply Henc].
  - eexists. split; [reflexivity | apply Henc].
  - eexists. split; [reflexivity | apply Henc].
Qed.

(** C4 (amended): for the empty text, building segments yields zero segments
    in mode [auto] and exactly one segment, the one the engine's constructor
    returns for the empty input, in the modes [numeric], [alphanumeric] and
    [byte].  With an engine that accepts the empty text, a version range
    that is in order after clamping and a mask of [QrMask], encoding
    succeeds, and the metadata has [segmentCount = 0] and [usedMode = 'none']
    in mode [auto], and [segmentCount = 1] and the mode of that one segment,
    never ['none'], in the other three. *)
Theorem empty_text_segments (E : Engine) (o : Options.GenerateQrOptions) :
  Options.text o = EmptyString ->
  engine_accepts_empty_text E (Options.mode o) ->
  clamped_version (Options.minVersion o) <= clamped_version (Options.maxVersion o) ->
  -1 <= engine_mask (Options.mask o) <= 7 ->
  exists r,
    generateQrCode E o = Ok r
    /\ match Options.mode o with
       | mode_auto =>
           buildSegments E EmptyString mode_auto = Ok []
           /\ Metadata.segmentCount (metadata r) = 0
           /\ Metadata.usedMode (metadata r) = used_none
       | mode_numeric =>
           exists s,
             makeNumeric E EmptyString = Ok s
             /\ buildSegments E EmptyString mode_numeric = Ok [s]
             /\ Metadata.segmentCount (metadata r) = 1
             /\ Metadata.usedMode (metadata r) = mode_of_bits (modeBits E s)
             /\ Metadata.usedMode (metadata r) <> used_none
       | mode_alphanumeric =>
           exists s,
             makeAlphanumeric E EmptyString = Ok s
             /\ buildSegments E EmptyString mode_alphanumeric = Ok [s]
             /\ Metadata.segmentCount (metadata r) = 1
             /\ Metadata.usedMode (metadata r) = mode_of_bits (modeBits E s)
             /\ Metadata.usedMode (metadata r) <> used_none
       | mode_byte =>
           exists s,
             makeBytes E [] = Ok s
             /\ buildSegments E EmptyString mode_byte = Ok [s]
             /\ Metadata.segmentCount (metadata r) = 1
             /\ Metadata.usedMode (metadata r) = mode_of_bits (modeBits E s)
             /\ Metadata.usedMode (metadata r) <> used_none
       end.
Proof.
  intros Htext Hengine Hrange Hmask.
  pose proof (clamped_version_range (Options.minVersion o)) as Hmin.
  pose proof (clamped_version_range (Options.maxVersion o)) as Hmax.
  unfold generateQrCode. fold (engine_mask (Options.mask o)).
  rewrite greater_than_clampVersion, !clampVersion_clamped, Htext.
  destruct (Z.ltb_spec (clamped_version (Options.maxVersion o))
              (clamped_version (Options.minVersion o))) as [Hlt|_]; [lia|].
  destruct (Options.mode o); simpl in Hengine |- *.
  - destruct Hengine as [Hseg Henc]. rewrite Hseg. simpl.
    destruct (Henc (ECL_MAP E (Options.ecl o)) _ _ _ (Options.boostEcl o)
                (proj1 Hmin) Hrange (proj2 Hmax) Hmask) as [qr Hqr].
    rewrite Hqr. simpl. eexists. split; [reflexivity|]. simpl.
    repeat split; reflexivity.
  - destruct Hengine as (s & Hseg & Henc). rewrite Hseg. simpl.
    destruct (Henc (ECL_MAP E (Options.ecl o)) _ _ _ (Options.boostEcl o)
                (proj1 Hmin) Hrange (proj2 Hmax) Hmask) as [qr Hqr].
    rewrite Hqr. simpl. eexists. split; [reflexivity|]. exists s. simpl.
    repeat split; try reflexivity. apply mode_of_bits_not_none.
  - destruct Hengine as (s & Hseg & Henc). rewrite Hseg. simpl.
    destruct (Henc (ECL_MAP E (Options.ecl o)) _ _ _ (Options.boostEcl o)
                (proj1 Hmin) Hrange (proj2 Hmax) Hmask) as [qr Hqr].
    rewrite Hqr. simpl. eexists. split; [reflexivity|]. exists s. simpl.
    repeat split; try reflexivity. apply mode_of_bits_not_none.
  - destruct Hengine as (s & Hseg & Henc). rewrite Hseg. simpl.
    destruct (Henc (ECL_MAP E (Options.ecl o)) _ _ _ (Options.boostEcl o)
                (proj1 Hmin) Hrange (proj2 Hmax) Hmask) as [qr Hqr].
    rewrite Hqr. simpl. eexists. split; [reflexivity|]. exists s. simpl.
    repeat split; try reflexivity. apply mode_of_bits_not_none.
Qed.

Lemma empty_text_segments_witness :
  exists r,
    generateQrCode ModelEngine.engine (ModelEngine.request EmptyString mode_auto) = Ok r
    /\ Metadata.segmentCount (metadata r) = 0
    /\ Metadata.usedMode (metadata r) = used_none.
Proof.
  destruct (empty_text_segments ModelEngine.engine
              (ModelEngine.request EmptyString mode_auto)) as (r & Hr & _ & Hcount & Hmode).
  - reflexivity.
  - apply ModelEngine_accepts_empty_text.
  - vm_compute. discriminate.
  - simpl. lia.
  - exists r. split; [exact Hr|]. split; [exact Hcount | exact Hmode].
Defined.

(** ** The matcher *)

Lemma take_app (run rest : string) : take (String.length run) (run ++ rest) = run.
Proof. induction run as [|c run IH]; simpl; [now destruct rest | now rewrite IH]. Qed.

Lemma consumed_app (run rest : string) : consumed (run ++ rest) rest = run.
Proof.
  unfold consumed. rewrite str_length_app.
  replace (String.length run + String.length rest - String.length rest)%nat
    with (String.length run) by lia.
  apply take_app.
Qed.

Section Star.
Context {A : Type}.
Implicit Types k : string -> option A.

Lemma star_sound p s k a :
  star p s k = Some a ->
  exists run rest, s = (run ++ rest)%string /\ every p run = true /\ k rest = Some a.
Proof.
  induction s as [|c s IH]; simpl.
  - intros H. now exists EmptyString, EmptyString.
  - destruct (p c) eqn:Hc.
    + destruct (star p s k) as [a'|] eqn:Hs.
      * intros [= <-]. destruct (IH eq_refl) as (run & rest & -> & Hrun & Hk).
        exists (String c run), rest. simpl. now rewrite Hc.
      * intros H. now exists EmptyString, (String c s).
    + intros H. now exists EmptyString, (String c s).
Qed.

Lemma star_complete p run rest k a :
  every p run = true -> k rest = Some a -> exists a', star p (run ++ rest) k = Some a'.
Proof.
  induction run as [|c run IH]; simpl.
  - intros _ Hk. destruct rest as [|c rest]; simpl; [eauto|].
    destruct (p c); [destruct (star p rest k)|]; eauto.
  - intros H Hk. apply andb_prop in H as [Hc Hrun]. rewrite Hc.
    destruct (IH Hrun Hk) as (a' & ->). eauto.
Qed.

Lemma rmatch_sound i r : forall s caps (k : string -> list string -> option A) a,
  rmatch i r s caps k = Some a ->
  exists run rest cs,
    s = (run ++ rest)%string /\ matches i r run cs /\ k rest (caps ++ cs)%list = Some a.
Proof.
  induction r as [c|p|p|p|r IH|r1 IH1 r2 IH2]; intros s caps k a; simpl.
  - destruct s as [|x s]; [discriminate|].
    destruct (char_matches i c x) eqn:Hc; [|discriminate]. intros Hk.
    exists (String x EmptyString), s, []. rewrite app_nil_r.
    repeat split; [now constructor | assumption].
  - destruct s as [|x s]; [discriminate|].
    destruct (p x) eqn:Hc; [|discriminate]. intros Hk.
    exists (String x EmptyString), s, []. rewrite app_nil_r.
    repeat split; [now constructor | assumption].
  - intros H. apply star_sound in H as (run & rest & -> & Hrun & Hk).
    exists run, rest, []. rewrite app_nil_r. repeat split; [now constructor | assumption].
  - destruct s as [|x s]; [discriminate|].
    destruct (p x) eqn:Hc; [|discriminate]. intros H.
    apply star_sound in H as (run & rest & -> & Hrun & Hk).
    exists (String x run), rest, []. rewrite app_nil_r.
    repeat split; [now constructor | assumption].
  - intros H. apply IH in H as (run & rest & cs & -> & Hm & Hk).
    rewrite consumed_app in Hk.
    exists run, rest, (cs ++ [run])%list. rewrite app_assoc.
    repeat split; [now constructor | assumption].
  - intros H. apply IH1 in H as (run1 & rest1 & cs1 & -> & Hm1 & H).
    apply IH2 in H as (run2 & rest & cs2 & -> & Hm2 & Hk).
    exists (run1 ++ run2)%string, rest, (cs1 ++ cs2)%list.
    rewrite str_app_assoc, app_assoc.
    repeat split; [now constructor | assumption].
Qed.

Lemma rmatch_complete i r run cs :
  matches i r run cs ->
  forall rest caps (k : string -> list string -> option A) a,
    k rest (caps ++ cs)%list = Some a ->
    exists a', rmatch i r (run ++ rest) caps k = Some a'.
Proof.
  induction 1 as [c x Hc|p x Hx|p run Hrun|p x run Hx Hrun|r run cs Hm IH
                 |r1 r2 run1 run2 cs1 cs2 Hm1 IH1 Hm2 IH2];
    intros rest caps k a Hk; simpl.
  - rewrite Hc. rewrite app_nil_r in Hk. eauto.
  - rewrite Hx. rewrite app_nil_r in Hk. eauto.
  - rewrite app_nil_r in Hk.
    apply (star_complete p run rest (fun s' => k s' caps) a); assumption.
  - rewrite Hx. rewrite app_nil_r in Hk.
    apply (star_complete p run rest (fun s' => k s' caps) a); assumption.
  - apply (IH rest caps
             (fun s' caps' => k s' (caps' ++ [consumed (run ++ rest) s'])%list) a).
    now rewrite consumed_app, <- app_assoc.
  - rewrite str_app_assoc.
    destruct (IH2 rest (caps ++ cs1)%list k a) as (a2 & H2); [now rewrite <- app_assoc|].
    apply (IH1 (run2 ++ rest)%string caps
             (fun s' caps' => rmatch i r2 s' caps' k) a2); assumption.
Qed.
End Star.

(** ** Splitting a string at a character *)

Lemma split_first_unique (p : ascii -> bool) (a a' b b' : string) (q q' : ascii) :
  (a ++ String q b = a' ++ String q' b')%string ->
  every p a = true -> every p a' = true -> p q = false -> p q' = false ->
  a = a' /\ q = q' /\ b = b'.
Proof.
  revert a'. induction a as [|x a IH]; intros [|x' a']; simpl; intros Heq Ha Ha' Hq Hq'.
  - injection Heq as -> ->. auto.
  - injection Heq as -> _. apply andb_prop in Ha' as [Hx _]. congruence.
  - injection Heq as -> _. apply andb_prop in Ha as [Hx _]. congruence.
  - injection Heq as -> Heq. apply andb_prop in Ha as [_ Ha]. apply andb_prop in Ha' as [_ Ha'].
    destruct (IH a' Heq Ha Ha' Hq Hq') as (-> & -> & ->). auto.
Qed.

Lemma split_last_unique (p : ascii -> bool) (a a' b b' : string) (q q' : ascii) :
  (a ++ String q b = a' ++ String q' b')%string ->
  every p b = true -> every p b' = true -> p q = false -> p q' = false ->
  a = a' /\ q = q' /\ b = b'.
Proof.
  revert a'. induction a as [|x a IH]; intros [|x' a']; simpl; intros Heq Hb Hb' Hq Hq'.
  - injection Heq as -> ->. auto.
  - injection Heq as -> ->. rewrite every_app in Hb. simpl in Hb.
    rewrite Hq', andb_false_r in Hb. discriminate.
  - injection Heq as -> <-. rewrite every_app in Hb'. simpl in Hb'.
    rewrite Hq, andb_false_r in Hb'. discriminate.
  - injection Heq as -> Heq.
    destruct (IH a' Heq Hb Hb' Hq Hq') as (-> & -> & ->). auto.
Qed.

Lemma app_same_length (a a' b b' : string) :
  (a ++ b = a' ++ b')%string -> String.length a = String.length a' -> a = a' /\ b = b'.
Proof.
  revert a'. induction a as [|x a IH]; intros [|x' a']; simpl; intros Heq Hlen;
    try discriminate; [auto|].
  injection Heq as -> Heq. injection Hlen as Hlen.
  destruct (IH a' Heq Hlen) as (-> & ->). auto.
Qed.

(** ** The character classes of the pattern *)

Lemma dquote_matches (a : ascii) : char_matches true dquote a = true -> a = dquote.
Proof.
  destruct a as [[] [] [] [] [] [] [] []]; vm_compute; intros H;
    try reflexivity; discriminate H.
Qed.

Lemma space_not_dquote (c : ascii) : is_space c = true -> not_dquote c = true.
Proof.
  destruct c as [[] [] [] [] [] [] [] []]; vm_compute; intros H;
    try reflexivity; discriminate H.
Qed.

Lemma space_not_token (c : ascii) : is_space c = true -> digit_or_dot c = false.
Proof.
  destruct c as [[] [] [] [] [] [] [] []]; vm_compute; intros H;
    try reflexivity; discriminate H.
Qed.

Lemma token_not_dquote (c : ascii) : digit_or_dot c = true -> not_dquote c = true.
Proof.
  destruct c as [[] [] [] [] [] [] [] []]; vm_compute; intros H;
    try reflexivity; discriminate H.
Qed.

Lemma every_impl (p q : ascii -> bool) (s : string) :
  (forall c, p c = true -> q c = true) -> every p s = true -> every q s = true.
Proof.
  intros Hpq. induction s as [|c s IH]; simpl; [reflexivity|].
  intros H. apply andb_prop in H as [Hc Hs]. now rewrite (Hpq c Hc), IH.
Qed.

Lemma is_token_every (s : string) : is_token s = true -> every digit_or_dot s = true.
Proof. destruct s; [discriminate | trivial]. Qed.

Lemma is_token_Plus (s : string) :
  is_token s = true <-> exists a run, s = String a run /\ digit_or_dot a = true
                                    /\ every digit_or_dot run = true.
Proof.
  split.
  - destruct s as [|a run]; [discriminate|]. simpl. intros H.
    apply andb_prop in H as [Ha Hrun]. eauto.
  - intros (a & run & -> & Ha & Hrun). simpl. now rewrite Ha, Hrun.
Qed.

(** ** The [viewBox] pattern *)

Lemma matches_Cat_eq i r1 r2 run1 run2 run caps1 caps2 caps :
  matches i r1 run1 caps1 -> matches i r2 run2 caps2 ->
  run = (run1 ++ run2)%string -> caps = (caps1 ++ caps2)%list ->
  matches i (Cat r1 r2) run caps.
Proof. intros H1 H2 -> ->. now constructor. Qed.

Ltac invert_matches :=
  repeat match goal with
         | H : matches _ (Cat _ _) _ _ |- _ => inversion H; subst; clear H
         | H : matches _ (Lit _) _ _ |- _ => inversion H; subst; clear H
         | H : matches _ (Class _) _ _ |- _ => inversion H; subst; clear H
         | H : matches _ (Star _) _ _ |- _ => inversion H; subst; clear H
         | H : matches _ (Plus _) _ _ |- _ => inversion H; subst; clear H
         | H : matches _ (Group _) _ _ |- _ => inversion H; subst; clear H
         end.

Lemma matches_viewBox_inv (run : string) (cs : list string) :
  matches true viewBox_regex run cs ->
  exists name body c1 w c2 h,
    run = (name ++ String dquote
             (body ++ String c1 (w ++ String c2 (h ++ String dquote EmptyString))))%string
    /\ String.length name = 8%nat
    /\ starts_with_ci viewBox_open run = true
    /\ every not_dquote body = true
    /\ is_space c1 = true /\ is_space c2 = true
    /\ is_token w = true /\ is_token h = true
    /\ cs = [w; h].
Proof.
  unfold viewBox_regex. cbn [word]. intros H. invert_matches.
  repeat match goal with
         | H : char_matches true dquote _ = true |- _ => apply dquote_matches in H; subst
         end.
  match goal with
  | |- context [(String ?a1 EmptyString ++ String ?a2 EmptyString ++ String ?a3 EmptyString
                 ++ String ?a4 EmptyString ++ String ?a5 EmptyString ++ String ?a6 EmptyString
                 ++ String ?a7 EmptyString ++ String ?a8 EmptyString ++ _)%string] =>
      exists (String a1 (String a2 (String a3 (String a4 (String a5 (String a6
                (String a7 (String a8 EmptyString))))))))
  end.
  match goal with
  | Hb : every not_dquote ?body = true,
    H1 : is_space ?c1 = true, H2 : is_space ?c2 = true |- _ =>
      match goal with
      | |- context [(body ++ String c1 EmptyString ++ String ?x ?w ++ String c2 EmptyString
                     ++ String ?y ?h ++ _)%string] =>
          exists body, c1, (String x w), c2, (String y h)
      end
  end.
  unfold viewBox_open. cbn [String.append starts_with_ci String.length every is_token List.app].
  rewrite (proj2 (andb_true_iff _ _) (conj eq_refl eq_refl) : char_matches true dquote dquote && true = true).
  repeat match goal with
         | H : char_matches true _ _ = true |- _ => rewrite H; clear H
         | H : digit_or_dot _ = true |- _ => rewrite H; clear H
         | H : every digit_or_dot _ = true |- _ => rewrite H; clear H
         end.
  repeat split; auto.
Qed.

Lemma viewBox_attribute_matches (s w h : string) :
  viewBox_attribute s w h ->
  exists run rest, s = (run ++ rest)%string /\ matches true viewBox_regex run [w; h].
Proof.
  intros (name & body & c1 & c2 & rest & -> & Hlen & Hstart & Hbody & Hc1 & Hc2 & Hw & Hh).
  destruct name as [|a1 [|a2 [|a3 [|a4 [|a5 [|a6 [|a7 [|a8 [|? ?]]]]]]]]];
    try discriminate Hlen. clear Hlen.
  unfold viewBox_open in Hstart.
  cbn [String.append starts_with_ci] in Hstart.
  repeat match type of Hstart with
         | (_ && _) = true => apply andb_prop in Hstart as [? Hstart]
         end.
  apply is_token_Plus in Hw as (x & w' & -> & Hx & Hw').
  apply is_token_Plus in Hh as (y & h' & -> & Hy & Hh').
  exists (String a1 (String a2 (String a3 (String a4 (String a5 (String a6 (String a7
            (String a8 (String dquote
               (body ++ String c1 (String x w' ++ String c2
                                     (String y h' ++ String dquote EmptyString))))))))))))%string.
  exists rest.
  split.
  - cbn [String.append]. do 9 f_equal.
    rewrite !str_app_assoc. cbn [String.append]. do 3 f_equal.
    rewrite !str_app_assoc. cbn [String.append]. do 3 f_equal.
    rewrite !str_app_assoc. reflexivity.
  - unfold viewBox_regex. cbn [word].
    do 9 (eapply (matches_Cat_eq true _ _ (String _ EmptyString) _ _ [] _);
          [apply matches_Lit; eassumption | | reflexivity | reflexivity]).
    eapply (matches_Cat_eq true _ _ body _ _ [] _);
      [apply matches_Star; assumption | | reflexivity | reflexivity].
    eapply (matches_Cat_eq true _ _ (String c1 EmptyString) _ _ [] _);
      [apply matches_Class; assumption | | reflexivity | reflexivity].
    eapply (matches_Cat_eq true _ _ (String x w') _ _ ([] ++ [String x w'])%list _);
      [apply matches_Group, matches_Plus; assumption | | reflexivity | reflexivity].
    eapply (matches_Cat_eq true _ _ (String c2 EmptyString) _ _ [] _);
      [apply matches_Class; assumption | | reflexivity | reflexivity].
    eapply (matches_Cat_eq true _ _ (String y h') _ _ ([] ++ [String y h'])%list []);
      [apply matches_Group, matches_Plus; assumption | | reflexivity | reflexivity].
    apply matches_Lit. reflexivity.
Qed.

(** Whatever the matcher tries, the captures at one position are the same. *)
Lemma matches_viewBox_unique (run run' rest rest' : string) (cs cs' : list string) :
  matches true viewBox_regex run cs -> matches true viewBox_regex run' cs' ->
  (run ++ rest = run' ++ rest')%string ->
  run = run' /\ cs = cs'.
Proof.
  intros H H' Heq.
  apply matches_viewBox_inv in H
    as (name & body & c1 & w & c2 & h & -> & Hlen & _ & Hbody & Hc1 & Hc2 & Hw & Hh & ->).
  apply matches_viewBox_inv in H'
    as (name' & body' & c1' & w' & c2' & h' & -> & Hlen' & _ & Hbody' & Hc1' & Hc2' & Hw' & Hh'
        & ->).
  apply is_token_every in Hw, Hh, Hw', Hh'.
  rewrite !str_app_assoc in Heq.
  apply app_same_length in Heq as [-> Heq]; [|congruence].
  cbn [String.append] in Heq. injection Heq as Heq.
  assert (Hvalue : forall b d u e v,
             every not_dquote b = true -> is_space d = true -> is_space e = true ->
             every digit_or_dot u = true -> every digit_or_dot v = true ->
             every not_dquote (b ++ String d (u ++ String e v)) = true).
  { intros b d u e v Hb Hd He Hu Hv.
    rewrite every_app. cbn [every]. rewrite every_app. cbn [every].
    rewrite Hb, (space_not_dquote d Hd), (space_not_dquote e He),
      (every_impl _ _ u token_not_dquote Hu), (every_impl _ _ v token_not_dquote Hv).
    reflexivity. }
  assert (Hshape : forall b d u e v t,
             ((b ++ String d (u ++ String e (v ++ String dquote EmptyString))) ++ t
              = (b ++ String d (u ++ String e v)) ++ String dquote t)%string).
  { intros. rewrite !str_app_assoc. cbn [String.append]. do 2 f_equal.
    rewrite !str_app_assoc. cbn [String.append]. do 2 f_equal.
    rewrite !str_app_assoc. reflexivity. }
  rewrite !Hshape in Heq.
  apply (split_first_unique not_dquote) in Heq as (Hvalue_eq & _ & _);
    [|now apply Hvalue|now apply Hvalue|reflexivity|reflexivity].
  replace (body ++ String c1 (w ++ String c2 h))%string
    with ((body ++ String c1 w) ++ String c2 h)%string in Hvalue_eq
    by (now rewrite str_app_assoc).
  replace (body' ++ String c1' (w' ++ String c2' h'))%string
    with ((body' ++ String c1' w') ++ String c2' h')%string in Hvalue_eq
    by (now rewrite str_app_assoc).
  apply (split_last_unique digit_or_dot) in Hvalue_eq as (Hfront & -> & ->);
    auto using space_not_token.
  apply (split_last_unique digit_or_dot) in Hfront as (-> & -> & ->);
    auto using space_not_token.
Qed.

(** A match at the head of [s]: exactly when an attribute opens [s], and then
    with its two tokens as captures. *)
Lemma match_here_viewBox (s w h : string) :
  viewBox_attribute s w h ->
  exists whole, match_here true viewBox_regex s = Some [whole; w; h].
Proof.
  intros Hattr. apply viewBox_attribute_matches in Hattr as (run & rest & -> & Hm).
  destruct (rmatch_complete true viewBox_regex run [w; h] Hm rest []
              (fun s' caps => Some (consumed (run ++ rest) s' :: caps))
              (consumed (run ++ rest) rest :: [w; h]) eq_refl) as (m & Hmatch).
  unfold match_here. rewrite Hmatch.
  apply rmatch_sound in Hmatch as (run' & rest' & cs' & Heq & Hm' & Hk).
  injection Hk as <-.
  destruct (matches_viewBox_unique run run' rest rest' [w; h] cs' Hm Hm' Heq) as [_ <-].
  eauto.
Qed.

Lemma match_here_viewBox_inv (s : string) (m : list string) :
  match_here true viewBox_regex s = Some m ->
  exists whole w h, m = [whole; w; h] /\ viewBox_attribute s w h.
Proof.
  unfold match_here. intros H.
  apply rmatch_sound in H as (run & rest & cs & -> & Hm & Hk).
  injection Hk as <-. simpl.
  apply matches_viewBox_inv in Hm
    as (name & body & c1 & w & c2 & h & -> & Hlen & Hstart & Hbody & Hc1 & Hc2 & Hw & Hh & ->).
  exists (consumed
            ((name ++ String dquote
                (body ++ String c1 (w ++ String c2 (h ++ String dquote EmptyString)))) ++ rest)
            rest), w, h.
  split; [reflexivity|].
  exists name, body, c1, c2, rest. repeat split; auto.
  - rewrite !str_app_assoc. cbn [String.append]. do 2 f_equal.
    rewrite !str_app_assoc. cbn [String.append]. do 2 f_equal.
    rewrite !str_app_assoc. cbn [String.append]. do 2 f_equal.
    rewrite !str_app_assoc. reflexivity.
  - revert Hstart. destruct name as [|? [|? [|? [|? [|? [|? [|? [|? [|? ?]]]]]]]]];
      try discriminate Hlen.
    unfold viewBox_open. cbn [String.append starts_with_ci]. trivial.
Qed.

(** ** The search for the attribute *)

Lemma rmatch_word_fail {A} (lit : string) (r : regex) :
  forall s caps (k : string -> list string -> option A),
    starts_with_ci lit s = false -> rmatch true (word lit r) s caps k = None.
Proof.
  induction lit as [|c lit IH]; intros s caps k; cbn [starts_with_ci word rmatch];
    [discriminate|].
  destruct s as [|a s]; [reflexivity|].
  destruct (char_matches true c a); cbn [andb]; [apply IH | reflexivity].
Qed.

Lemma match_here_needs_open (s : string) :
  starts_with_ci viewBox_open s = false -> match_here true viewBox_regex s = None.
Proof. intros H. unfold match_here. now apply (rmatch_word_fail viewBox_open). Qed.

Lemma String_match_here i r s m :
  match_here i r s = Some m -> String_match i r s = Some m.
Proof. intros H. destruct s; simpl; now rewrite H. Qed.

Lemma String_match_skip (before s : string) :
  find_ci viewBox_open (before ++ s) = Some (String.length before) ->
  String_match true viewBox_regex (before ++ s) = String_match true viewBox_regex s
  /\ starts_with_ci viewBox_open s = true.
Proof.
  induction before as [|c before IH]; cbn [String.append String.length].
  - intros H. split; [reflexivity|].
    destruct s as [|a s]; cbn [find_ci] in H.
    + destruct (starts_with_ci viewBox_open EmptyString); [reflexivity | discriminate].
    + destruct (starts_with_ci viewBox_open (String a s)); [reflexivity|].
      destruct (find_ci viewBox_open s); discriminate.
  - cbn [find_ci String_match]. intros H.
    destruct (starts_with_ci viewBox_open (String c (before ++ s))) eqn:Hc; [discriminate|].
    rewrite (match_here_needs_open _ Hc).
    apply IH. destruct (find_ci viewBox_open (before ++ s)); [|discriminate].
    simpl in H. now injection H as ->.
Qed.

Lemma String_match_none (s : string) :
  find_ci viewBox_open s = None -> String_match true viewBox_regex s = None.
Proof.
  induction s as [|c s IH]; cbn [find_ci String_match].
  - destruct (starts_with_ci viewBox_open EmptyString) eqn:H; [discriminate|].
    now rewrite (match_here_needs_open _ H).
  - destruct (starts_with_ci viewBox_open (String c s)) eqn:H; [discriminate|].
    rewrite (match_here_needs_open _ H).
    destruct (find_ci viewBox_open s); [discriminate|]. intros _. now apply IH.
Qed.

Lemma String_match_sound i r s m :
  String_match i r s = Some m ->
  exists before s', s = (before ++ s')%string /\ match_here i r s' = Some m.
Proof.
  induction s as [|c s IH]; cbn [String_match].
  - destruct (match_here i r EmptyString) eqn:H; [|discriminate].
    intros [= <-]. now exists EmptyString, EmptyString.
  - destruct (match_here i r (String c s)) eqn:H.
    + intros [= <-]. now exists EmptyString, (String c s).
    + intros Hs. destruct (IH Hs) as (before & s' & -> & Hm).
      now exists (String c before), s'.
Qed.

(** ** The intrinsic size *)

Lemma match_here_opens (s : string) (m : list string) :
  match_here true viewBox_regex s = Some m -> opens_attribute s.
Proof.
  intros H. apply match_here_viewBox_inv in H as (whole & w & h & _ & Hattr).
  now exists w, h.
Qed.

Lemma match_here_closed (s : string) :
  ~ opens_attribute s -> match_here true viewBox_regex s = None.
Proof.
  intros H. destruct (match_here true viewBox_regex s) as [m|] eqn:Hm; [|reflexivity].
  now apply match_here_opens in Hm.
Qed.

Lemma String_match_leftmost i r s m :
  String_match i r s = Some m ->
  exists before attribute,
    s = (before ++ attribute)%string /\ match_here i r attribute = Some m
    /\ forall b a, s = (b ++ a)%string -> (String.length b < String.length before)%nat ->
                   match_here i r a = None.
Proof.
  induction s as [|c s IH]; cbn [String_match].
  - destruct (match_here i r EmptyString) eqn:H; [|discriminate].
    intros [= <-]. exists EmptyString, EmptyString.
    repeat split; [assumption|]. simpl. intros; lia.
  - destruct (match_here i r (String c s)) eqn:H.
    + intros [= <-]. exists EmptyString, (String c s).
      repeat split; [assumption|]. simpl. intros; lia.
    + intros Hs. destruct (IH Hs) as (before & attribute & -> & Hm & Hleft).
      exists (String c before), attribute. repeat split; [assumption|].
      intros [|c' b] a Heq Hlen; simpl in Heq.
      * now subst a.
      * injection Heq as <- Heq. apply (Hleft b a Heq). simpl in Hlen. lia.
Qed.

Lemma String_match_nowhere i r s :
  String_match i r s = None ->
  forall b a, s = (b ++ a)%string -> match_here i r a = None.
Proof.
  induction s as [|c s IH]; cbn [String_match].
  - destruct (match_here i r EmptyString) eqn:H; [discriminate|].
    intros _ [|c' b] a Heq; simpl in Heq; [now subst a | discriminate].
  - destruct (match_here i r (String c s)) eqn:H; [discriminate|].
    intros Hs [|c' b] a Heq; simpl in Heq; [now subst a|].
    injection Heq as <- Heq. now apply (IH Hs b a).
Qed.

Lemma find_ci_before (lit b a : string) (n : nat) :
  find_ci lit (b ++ a) = Some n -> (String.length b < n)%nat -> starts_with_ci lit a = false.
Proof.
  revert n. induction b as [|c b IH]; intros n Hfind Hlen; cbn [String.append] in Hfind.
  - destruct a as [|x a']; cbn [find_ci] in Hfind;
      destruct (starts_with_ci lit _); try reflexivity;
      injection Hfind as <-; simpl in Hlen; lia.
  - cbn [find_ci] in Hfind.
    destruct (starts_with_ci lit (String c (b ++ a)));
      [injection Hfind as <-; simpl in Hlen; lia|].
    destruct (find_ci lit (b ++ a)) as [k|] eqn:Hk; [|discriminate].
    simpl in Hfind. injection Hfind as <-. simpl in Hlen.
    apply (IH k eq_refl). lia.
Qed.
Lemma getSvgSize_leftmost (svg w h : string) :
  declares svg (Some (w, h)) -> getSvgSize svg = size_of_tokens w h.
Proof.
  intros (before & attribute & -> & Hattr & Hleft).
  destruct (match_here_viewBox _ _ _ Hattr) as (whole & Hhere).
  unfold getSvgSize.
  destruct (String_match true viewBox_regex (before ++ attribute)) as [m|] eqn:Hm.
  - apply String_match_leftmost in Hm as (before' & attribute' & Heq & Hm' & Hleft').
    destruct (lt_eq_lt_dec (String.length before') (String.length before)) as [[Hlt|Hlen]|Hgt].
    + destruct (Hleft before' attribute' Heq Hlt). now apply match_here_opens in Hm'.
    + apply app_same_length in Heq as [-> ->]; [|congruence].
      rewrite Hhere in Hm'. injection Hm' as <-. reflexivity.
    + rewrite (Hleft' before attribute eq_refl Hgt) in Hhere. discriminate.
  - rewrite (String_match_nowhere _ _ _ Hm before attribute eq_refl) in Hhere. discriminate.
Qed.

Lemma getSvgSize_nowhere (svg : string) :
  declares svg None -> getSvgSize svg = DEFAULT_PNG_SIZE.
Proof.
  intros Hnone. unfold getSvgSize.
  destruct (String_match true viewBox_regex svg) as [m|] eqn:Hm; [|reflexivity].
  apply String_match_sound in Hm as (before & attribute & -> & Hm).
  destruct (Hnone before attribute eq_refl). now apply match_here_opens in Hm.
Qed.

Lemma getSvgSize_declared (svg : string) (d : option (string * string)) :
  declares svg d ->
  getSvgSize svg = match d with
                   | Some (w, h) => size_of_tokens w h
                   | None => DEFAULT_PNG_SIZE
                   end.
Proof.
  destruct d as [[w h]|]; [apply getSvgSize_leftmost | apply getSvgSize_nowhere].
Qed.

Lemma first_viewBox_declares (svg w h : string) :
  first_viewBox svg w h -> declares svg (Some (w, h)).
Proof.
  intros (before & attribute & -> & Hfind & Hattr).
  exists before, attribute. split; [reflexivity|]. split; [assumption|].
  intros b a Heq Hlen (w' & h' & name & body & c1 & c2 & rest & _ & _ & Hstart & _).
  rewrite Heq in Hfind. rewrite (find_ci_before _ _ _ _ Hfind Hlen) in Hstart. discriminate.
Qed.

(** Every document declares something. *)
Lemma declares_total (svg : string) : exists d, declares svg d.
Proof.
  destruct (String_match true viewBox_regex svg) as [m|] eqn:Hm.
  - apply String_match_leftmost in Hm as (before & attribute & -> & Hm & Hleft).
    apply match_here_viewBox_inv in Hm as (whole & w & h & -> & Hattr).
    exists (Some (w, h)), before, attribute. split; [reflexivity|]. split; [assumption|].
    intros b a Heq Hlen (w' & h' & Hattr').
    destruct (match_here_viewBox _ _ _ Hattr') as (whole' & Hhere).
    rewrite (Hleft b a Heq Hlen) in Hhere. discriminate.
  - exists None. intros b a Heq (w' & h' & Hattr').
    destruct (match_here_viewBox _ _ _ Hattr') as (whole' & Hhere).
    rewrite (String_match_nowhere _ _ _ Hm b a Heq) in Hhere. discriminate.
Qed.

Lemma getSvgSize_cases (svg : string) :
  getSvgSize svg = DEFAULT_PNG_SIZE
  \/ exists before attribute w h,
       svg = (before ++ attribute)%string /\ viewBox_attribute attribute w h
       /\ getSvgSize svg = size_of_tokens w h.
Proof.
  unfold getSvgSize. destruct (String_match true viewBox_regex svg) as [m|] eqn:Hm; [|now left].
  right. apply String_match_sound in Hm as (before & attribute & -> & Hm).
  apply match_here_viewBox_inv in Hm as (whole & w & h & -> & Hattr).
  exists before, attribute, w, h. auto.
Qed.

Lemma size_of_tokens_usable (w h : string) :
  Number_isFinite (size_of_tokens w h) = true /\ greater_than (size_of_tokens w h) (of_Z 0) = true.
Proof.
  unfold size_of_tokens.
  destruct (Number_isFinite (Math_max (Number w) (Number h))) eqn:Hf;
    [destruct (greater_than (Math_max (Number w) (Number h)) (of_Z 0)) eqn:Hp|]; simpl; auto.
Qed.

Lemma getSvgSize_usable (svg : string) :
  Number_isFinite (getSvgSize svg) = true /\ greater_than (getSvgSize svg) (of_Z 0) = true.
Proof.
  destruct (getSvgSize_cases svg) as [-> | (_ & _ & w & h & _ & _ & ->)];
    [split; reflexivity | apply size_of_tokens_usable].
Qed.

(** ** The export call *)

Lemma try_finally_emit {A} (body : IO A) (e : event) (w : world) :
  try_finally body (emit e) w
  = (fst (body w), {| trace := trace (snd (body w)) ++ [e];
                      next_url := next_url (snd (body w)) |}).
Proof. unfold try_finally, emit. now destruct (body w). Qed.

Lemma saveSvgAsPng_run (h : host) (svg filename : string) (w : world) :
  saveSvgAsPng h svg filename w
  = (export_outcome h svg,
     {| trace := trace w ++ [CreateObjectURL (next_url w)]
                   ++ export_steps h svg filename (next_url w)
                   ++ [RevokeObjectURL (next_url w)];
        next_url := S (next_url w) |}).
Proof.
  unfold saveSvgAsPng, URL_revokeObjectURL, Browser.bind at 1, URL_createObjectURL.
  rewrite try_finally_emit.
  unfold export_outcome, export_steps, load_image, getContext, raster_side.
  destruct (image_loads h svg); [destruct (has_2d_context h)|];
    cbn -[getSvgSize mul Math_round PNG_SCALE];
    repeat rewrite <- app_assoc; reflexivity.
Qed.

Lemma export_steps_keep_url (h : host) (svg filename : string) (u : url) :
  forallb (fun e => negb (is_url_event e)) (export_steps h svg filename u) = true.
Proof.
  unfold export_steps. destruct (image_loads h svg); [destruct (has_2d_context h)|]; reflexivity.
Qed.

Example getSvgSize_of_rendered_sample :
  getSvgSize (toSvg ModelEngine.engine sample_qr) = of_Z 25
  /\ raster_side (toSvg ModelEngine.engine sample_qr) = of_Z 400.
Proof. vm_compute. split; reflexivity. Qed.

Example getSvgSize_at_some_documents :
  getSvgSize (svg_with_viewBox "0 0 25 25") = of_Z 25
  /\ getSvgSize (svg_with_viewBox "5 5 30  20") = of_Z 512
  /\ getSvgSize (svg_with_viewBox "0 0 1.2.3 10") = of_Z 512
  /\ getSvgSize (svg_with_viewBox "25 25") = of_Z 512
  /\ getSvgSize "<svg></svg>" = of_Z 512.
Proof. vm_compute. repeat split; reflexivity. Qed.

(** C7: for every document, the exporter reads the intrinsic size off the
    tokens of the leftmost [viewBox] attribute that the pattern accepts, their
    maximum when it is finite and positive and 512 otherwise, and takes 512
    when the pattern accepts no position of the document; the size is finite
    and positive in every case; once the image has loaded, the canvas is given
    the width and the height [Math.round(size * 16)]; and the tokens 25 and 25
    give a side of 400. *)
Theorem raster_size_from_viewBox (h : host) (svg filename : string) (w : world) :
  image_loads h svg = true ->
  (exists d, declares svg d)
  /\ (forall d, declares svg d ->
        getSvgSize svg
        = match d with
          | Some (tw, th) =>
              let size := Math_max (Number tw) (Number th) in
              if Number_isFinite size && greater_than size (of_Z 0) then size else of_Z 512
          | None => of_Z 512
          end)
  /\ Number_isFinite (getSvgSize svg) = true
  /\ greater_than (getSvgSize svg) (of_Z 0) = true
  /\ (exists before after,
        trace (snd (saveSvgAsPng h svg filename w))
        = (trace w ++ before
             ++ [CanvasWidth (Math_round (mul (getSvgSize svg) (of_Z 16)));
                 CanvasHeight (Math_round (mul (getSvgSize svg) (of_Z 16)))]
             ++ after)%list)
  /\ Math_round (mul (size_of_tokens "25" "25") (of_Z 16)) = of_Z 400.
Proof.
  intros Hload.
  split; [apply declares_total|].
  split; [apply getSvgSize_declared|].
  split; [apply getSvgSize_usable|].
  split; [apply getSvgSize_usable|].
  split; [|vm_compute; reflexivity].
  rewrite saveSvgAsPng_run. cbn [trace snd]. unfold export_steps. rewrite Hload.
  exists [CreateObjectURL (next_url w); ImageSrc (next_url w); CreateCanvas].
  eexists. cbn [List.app]. reflexivity.
Qed.

Lemma raster_size_from_viewBox_witness :
  getSvgSize (svg_with_viewBox "0 0 25 25") = of_Z 25
  /\ exists before after,
       trace (snd (saveSvgAsPng sample_host (svg_with_viewBox "0 0 25 25") "qr-code.png"
                     sample_world))
       = (before ++ [CanvasWidth (of_Z 400); CanvasHeight (of_Z 400)] ++ after)%list.
Proof.
  destruct (raster_size_from_viewBox sample_host (svg_with_viewBox "0 0 25 25") "qr-code.png"
              sample_world) as (_ & Hsize & _ & _ & Htrace & _); [reflexivity|].
  assert (H25 : getSvgSize (svg_with_viewBox "0 0 25 25") = of_Z 25).
  { rewrite (Hsize (Some ("25", "25"))); [vm_compute; reflexivity|].
    apply first_viewBox_declares.
    exists "<svg ", ("viewBox=" ++ String dquote "0 0 25 25" ++ String dquote "></svg>")%string.
    split; [reflexivity|]. split; [vm_compute; reflexivity|].
    exists "viewBox=", "0 0", " "%char, " "%char, "></svg>".
    repeat split; reflexivity. }
  split; [exact H25|].
  destruct Htrace as (before & after & Htrace). exists before, after.
  rewrite Htrace, H25. reflexivity.
Defined.

(** C9: whatever the page does (the image loads and a context exists, the
    image fails to load, or no context exists), the call ends as that
    decides, and what it adds to the trace opens with the creation of one
    object URL and closes with the release of that same URL, with no other
    creation or release in between. *)
Theorem saveSvgAsPng_releases_url_once (h : host) (svg filename : string) (w : world) :
  fst (saveSvgAsPng h svg filename w) = export_outcome h svg
  /\ exists steps,
       trace (snd (saveSvgAsPng h svg filename w))
       = (trace w ++ [CreateObjectURL (next_url w)] ++ steps
            ++ [RevokeObjectURL (next_url w)])%list
       /\ forallb (fun e => negb (is_url_event e)) steps = true
       /\ List.length
            (filter (revokes (next_url w))
               ([CreateObjectURL (next_url w)] ++ steps ++ [RevokeObjectURL (next_url w)]))
          = 1%nat.
Proof.
  rewrite saveSvgAsPng_run. split; [reflexivity|].
  exists (export_steps h svg filename (next_url w)).
  split; [reflexivity|]. split; [apply export_steps_keep_url|].
  cbn [List.app filter revokes]. rewrite filter_app, length_app.
  cbn [filter revokes]. rewrite Nat.eqb_refl. cbn [List.length].
  replace (filter (revokes (next_url w)) (export_steps h svg filename (next_url w)))
    with (@nil event); [reflexivity|].
  unfold export_steps. destruct (image_loads h svg); [destruct (has_2d_context h)|]; reflexivity.
Qed.

(** C10 (as stated, refuted): the attribute [viewBox=Q0 0 0 0Q] ends in the
    numeric tokens 0 and 0, whose maximum is 0; [getSvgSize] answers 512. *)
Lemma getSvgSize_zero_viewBox :
  declares (svg_with_viewBox "0 0 0 0") (Some ("0", "0"))
  /\ Math_max (Number "0") (Number "0") = of_Z 0
  /\ getSvgSize (svg_with_viewBox "0 0 0 0") = of_Z 512
  /\ getSvgSize (svg_with_viewBox "0 0 0 0") <> Math_max (Number "0") (Number "0").
Proof.
  split.
  - apply first_viewBox_declares.
    exists "<svg ", ("viewBox=" ++ String dquote "0 0 0 0" ++ String dquote "></svg>")%string.
    split; [reflexivity|]. split; [vm_compute; reflexivity|].
    exists "viewBox=", "0 0", " "%char, " "%char, "></svg>".
    repeat split; reflexivity.
  - split; [vm_compute; reflexivity|]. split; [vm_compute; reflexivity|].
    vm_compute. discriminate.
Qed.

(** C10 (amended): when the first [viewBox] attribute of the document ends in
    the tokens [w] and [h], whatever comes before them in its value,
    [getSvgSize] returns the maximum of the two numbers if that maximum is
    finite and greater than zero, and 512 otherwise. *)
Theorem getSvgSize_max_of_tokens (svg w h : string) :
  declares svg (Some (w, h)) ->
  getSvgSize svg
  = (let size := Math_max (Number w) (Number h) in
     if Number_isFinite size && greater_than size (of_Z 0) then size else of_Z 512).
Proof. apply getSvgSize_leftmost. Qed.

Lemma getSvgSize_max_of_tokens_witness :
  getSvgSize (svg_with_viewBox "5 5 30 20") = of_Z 30.
Proof.
  rewrite (getSvgSize_max_of_tokens (svg_with_viewBox "5 5 30 20") "30" "20").
  - vm_compute. reflexivity.
  - apply first_viewBox_declares.
    exists "<svg ", ("viewBox=" ++ String dquote "5 5 30 20" ++ String dquote "></svg>")%string.
    split; [reflexivity|]. split; [vm_compute; reflexivity|].
    exists "viewBox=", "5 5", " "%char, " "%char, "></svg>".
    repeat split; reflexivity.
Defined.

(* ================================================================= *)
(** * More on the version range *)

Lemma clamped_version_of_Z (n : Z) : clamped_version (of_Z n) = Z.min 40 (Z.max 1 n).
Proof. simpl. now rewrite Z.quot_1_r. Qed.

(** X1: [clampVersion] is idempotent, and the values it leaves unchanged are
    exactly the integers from 1 to 40: every other number, NaN and the
    infinities included, is replaced. *)
Theorem clampVersion_idempotent (value : number) :
  clampVersion (clampVersion value) = clampVersion value
  /\ (clampVersion value = value <-> exists n, 1 <= n <= 40 /\ value = of_Z n).
Proof.
  pose proof (clamped_version_range value) as Hr.
  rewrite !clampVersion_clamped, clamped_version_of_Z. split.
  - apply (f_equal of_Z). lia.
  - split.
    + intros H. exists (clamped_version value). split; [assumption | now symmetry].
    + intros (n & Hn & ->). rewrite clamped_version_of_Z. apply (f_equal of_Z). lia.
Qed.

Lemma quot_spec (a : Z) (b : positive) :
  exists r, a = Zpos b * Z.quot a (Zpos b) + r
            /\ (0 <= a -> 0 <= r < Zpos b) /\ (a <= 0 -> - Zpos b < r <= 0).
Proof.
  exists (Z.rem a (Zpos b)). split; [apply Z.quot_rem'|]. split; intros Ha.
  - apply Z.rem_bound_pos; lia.
  - apply Z.rem_bound_pos_neg; lia.
Qed.

Lemma trunc_monotone (p q : Q) :
  Qle p q -> Z.quot (Qnum p) (Zpos (Qden p)) <= Z.quot (Qnum q) (Zpos (Qden q)).
Proof.
  destruct p as [a b], q as [c d]. unfold Qle. simpl. intros H.
  destruct (quot_spec a b) as (r1 & H1 & H1p & H1n).
  destruct (quot_spec c d) as (r2 & H2 & H2p & H2n).
  set (t1 := Z.quot a (Zpos b)) in *. set (t2 := Z.quot c (Zpos d)) in *.
  destruct (Z.le_gt_cases t1 t2) as [|Hgt]; [assumption|exfalso].
  destruct (Z.le_gt_cases 0 a) as [Ha|Ha], (Z.le_gt_cases 0 c) as [Hc|Hc];
    try specialize (H1p ltac:(lia)); try specialize (H1n ltac:(lia));
    try specialize (H2p ltac:(lia)); try specialize (H2n ltac:(lia)).
  - assert (Zpos b * (t2 + 1) <= a) by nia.
    assert (Zpos b * Zpos d * (t2 + 1) <= a * Zpos d) by nia.
    assert (c < Zpos d * (t2 + 1)) by nia.
    assert (c * Zpos b < Zpos b * Zpos d * (t2 + 1)) by nia. lia.
  - assert (0 <= a * Zpos d) by nia. assert (c * Zpos b < 0) by nia. lia.
  - assert (t1 <= 0) by nia. assert (0 <= t2) by nia. lia.
  - assert (Zpos b * t2 < a) by nia.
    assert (Zpos b * Zpos d * t2 < a * Zpos d) by nia.
    assert (c <= Zpos d * t2) by nia.
    assert (c * Zpos b <= Zpos b * Zpos d * t2) by nia. lia.
Qed.

Lemma clamped_version_monotone (a b : number) :
  b <> NaN -> less_than b a = false -> clamped_version a <= clamped_version b.
Proof.
  intros Hb Hlt. pose proof (clamped_version_range a). pose proof (clamped_version_range b).
  destruct a as [|[|]|p], b as [|[|]|q]; cbn [clamped_version less_than andb negb] in *;
    try congruence; try lia.
  assert (Hle : Qle p q).
  { apply Qnot_lt_le. intros H'. unfold Qlt in H'. unfold Qcompare in Hlt.
    apply Z.compare_lt_iff in H'. rewrite H' in Hlt. discriminate. }
  pose proof (trunc_monotone p q Hle). lia.
Qed.

Lemma generateQrCode_unfold (E : Engine) (o : Options.GenerateQrOptions) :
  generateQrCode E o
  = if greater_than (clampVersion (Options.minVersion o)) (clampVersion (Options.maxVersion o))
    then Throw InvalidRange
    else
      match buildSegments E (Options.text o) (Options.mode o) with
      | Throw x => Throw (Raised x)
      | Ok segments =>
          match encodeSegments E segments (ECL_MAP E (Options.ecl o))
                  (clampVersion (Options.minVersion o)) (clampVersion (Options.maxVersion o))
                  (match Options.mask o with mask_auto => -1 | mask_index n => n end)
                  (Options.boostEcl o) with
          | Throw x => Throw (Raised x)
          | Ok qr =>
              Ok {| svg := toSvg E qr;
                    metadata :=
                      {| Metadata.requestedMode := Options.mode o;
                         Metadata.usedMode := detectUsedMode E segments;
                         Metadata.requestedEcl := Options.ecl o;
                         Metadata.actualEcl :=
                           lookup ECL_BY_ORDINAL (ordinal E (QrCode.errorCorrectionLevel qr));
                         Metadata.version := QrCode.version qr;
                         Metadata.size := QrCode.size qr;
                         Metadata.mask := QrCode.mask qr;
                         Metadata.segmentCount := Z.of_nat (List.length segments);
                         Metadata.darkModules := countDarkModules E qr |} |}
          end
      end.
Proof.
  unfold generateQrCode. destruct (greater_than _ _); [reflexivity|].
  destruct (buildSegments E _ _); [|reflexivity]. simpl.
  destruct (encodeSegments E _ _ _ _ _ _); reflexivity.
Qed.

(** X2: [clampVersion] keeps the order of its inputs, so a request
    whose maximum is a number not below its minimum never ends with the
    range error of [generateQrCode], whatever the two values and the engine
    are. *)
Theorem ordered_versions_pass_the_range_check (E : Engine) (o : Options.GenerateQrOptions) :
  Options.maxVersion o <> NaN ->
  less_than (Options.maxVersion o) (Options.minVersion o) = false ->
  clamped_version (Options.minVersion o) <= clamped_version (Options.maxVersion o)
  /\ generateQrCode E o <> Throw InvalidRange.
Proof.
  intros Hmax Hle.
  pose proof (clamped_version_monotone _ _ Hmax Hle) as Hmono. split; [assumption|].
  rewrite generateQrCode_unfold, greater_than_clampVersion.
  destruct (Z.ltb_spec (clamped_version (Options.maxVersion o))
              (clamped_version (Options.minVersion o))); [lia|].
  destruct (buildSegments E _ _); [|discriminate].
  destruct (encodeSegments E _ _ _ _ _ _); discriminate.
Qed.

Lemma ordered_versions_pass_the_range_check_witness :
  clamped_version (Finite (- 7 # 2)) <= clamped_version (Infinity false)
  /\ generateQrCode ModelEngine.engine
       {| Options.text := "A"; Options.mode := mode_auto; Options.ecl := LOW;
          Options.minVersion := Finite (- 7 # 2); Options.maxVersion := Infinity false;
          Options.mask := mask_index 3; Options.boostEcl := false |}
     <> Throw InvalidRange.
Proof.
  apply (ordered_versions_pass_the_range_check ModelEngine.engine
           {| Options.text := "A"; Options.mode := mode_auto; Options.ecl := LOW;
              Options.minVersion := Finite (- 7 # 2); Options.maxVersion := Infinity false;
              Options.mask := mask_index 3; Options.boostEcl := false |}).
  - discriminate.
  - reflexivity.
Defined.

Lemma ToBoolean_false_clamped (value : number) :
  ToBoolean value = false -> clamped_version value = 1.
Proof.
  destruct value as [|s|q]; simpl; try discriminate; [reflexivity|].
  intros H. apply negb_false_iff, Qeq_bool_iff in H. unfold Qeq in H. simpl in H.
  assert (Qnum q = 0) by lia. rewrite H0. reflexivity.
Qed.

(** X3: the defaults of the two version fields meet [clampVersion] as
    follows.  [|| 1] in the minimum field changes nothing the adapter sees:
    the adapter would have made the same version of the raw number.  [|| 40]
    in the maximum field matters exactly for the falsy numbers (0 and NaN),
    which become 40 where the adapter alone would make 1. *)
Theorem version_field_defaults (value : number) :
  clampVersion (minVersion_onChange value) = clampVersion value
  /\ clampVersion (maxVersion_onChange value)
     = (if ToBoolean value then clampVersion value else of_Z 40).
Proof.
  unfold minVersion_onChange, maxVersion_onChange, logical_or.
  destruct (ToBoolean value) eqn:Hv; [split; reflexivity|].
  rewrite !clampVersion_clamped, (ToBoolean_false_clamped value Hv). split; reflexivity.
Qed.

(* ================================================================= *)
(** * More on the adapter: the engine call, its failures, the metadata *)

Lemma lookup_ECL_BY_ORDINAL (n : Z) :
  (forall e, lookup ECL_BY_ORDINAL n = Some e <-> n = QrEcc_ordinal e)
  /\ (lookup ECL_BY_ORDINAL n = None <-> n < 0 \/ 3 < n).
Proof.
  unfold ECL_BY_ORDINAL, lookup.
  destruct (Z.eqb_spec 0 n); [|destruct (Z.eqb_spec 1 n); [|destruct (Z.eqb_spec 2 n);
    [|destruct (Z.eqb_spec 3 n)]]]; subst;
    (split; [intros []; simpl; split; intros H; try discriminate H; try reflexivity; try lia
            | split; [try discriminate; intros _; lia | try lia; try reflexivity]]).
Qed.

(** X4: what [generateQrCode] throws.  A value thrown by the engine
    reaches the caller unchanged, and does so exactly when the range check
    passed and either [buildSegments] threw it, or the segments were built and
    [encodeSegments], called with the clamped versions, threw it: the range
    check comes first, and encoding is not attempted without segments.  The
    only [RangeError] of the adapter itself is the range error, with its one
    message. *)
Theorem generateQrCode_engine_failure (E : Engine) (o : Options.GenerateQrOptions) (x : exn E) :
  (generateQrCode E o = Throw (Raised x)
   <-> greater_than (clampVersion (Options.minVersion o))
         (clampVersion (Options.maxVersion o)) = false
       /\ (buildSegments E (Options.text o) (Options.mode o) = Throw x
           \/ exists segments,
                buildSegments E (Options.text o) (Options.mode o) = Ok segments
                /\ encodeSegments E segments (ECL_MAP E (Options.ecl o))
                     (clampVersion (Options.minVersion o)) (clampVersion (Options.maxVersion o))
                     (engine_mask (Options.mask o)) (Options.boostEcl o) = Throw x))
  /\ (forall message, generateQrCode E o = Throw (RangeError message) ->
        message = "Minimum version cannot be greater than maximum version"
        /\ clamped_version (Options.maxVersion o) < clamped_version (Options.minVersion o)).
Proof.
  rewrite generateQrCode_unfold. fold (engine_mask (Options.mask o)).
  rewrite greater_than_clampVersion.
  destruct (Z.ltb_spec (clamped_version (Options.maxVersion o))
              (clamped_version (Options.minVersion o))) as [Hlt|Hle].
  - split; [split; [discriminate | intros [H _]; discriminate H]|].
    intros message [= <-]. split; [reflexivity | assumption].
  - split; [|destruct (buildSegments E _ _); [destruct (encodeSegments E _ _ _ _ _ _)|];
             discriminate].
    destruct (buildSegments E _ _) as [segments|x'].
    + destruct (encodeSegments E _ _ _ _ _ _) as [qr|x'] eqn:Henc.
      * split; [discriminate|]. intros [_ [H | (s & [= <-] & H)]]; [discriminate|].
        rewrite Henc in H. discriminate.
      * split.
        -- intros [= ->]. split; [reflexivity|]. right. now exists segments.
        -- intros [_ [H | (s & [= <-] & H)]]; [discriminate|].
           rewrite Henc in H. now injection H as ->.
    + split.
      * intros [= ->]. split; [reflexivity|]. now left.
      * intros [_ [[= ->] | (s & H & _)]]; [reflexivity | discriminate].
Qed.

(** X5: on success the engine has been called with versions
    [a] and [b] that are integers with [1 <= a <= b <= 40], the clamped
    requests, with the mapped level, with mask [-1] for ['auto'] and the
    requested index otherwise; version, size and mask of the metadata are those
    of the symbol the engine returned, and the requested mode and level are
    echoed. *)
Theorem generateQrCode_engine_call (E : Engine) (o : Options.GenerateQrOptions)
    (r : GenerateQrResult) :
  generateQrCode E o = Ok r ->
  exists segments qr a b,
    1 <= a /\ a <= b /\ b <= 40
    /\ a = clamped_version (Options.minVersion o)
    /\ b = clamped_version (Options.maxVersion o)
    /\ buildSegments E (Options.text o) (Options.mode o) = Ok segments
    /\ encodeSegments E segments (ECL_MAP E (Options.ecl o)) (of_Z a) (of_Z b)
         (engine_mask (Options.mask o)) (Options.boostEcl o) = Ok qr
    /\ Metadata.version (metadata r) = QrCode.version qr
    /\ Metadata.size (metadata r) = QrCode.size qr
    /\ Metadata.mask (metadata r) = QrCode.mask qr
    /\ Metadata.requestedMode (metadata r) = Options.mode o
    /\ Metadata.requestedEcl (metadata r) = Options.ecl o.
Proof.
  rewrite generateQrCode_unfold. fold (engine_mask (Options.mask o)).
  rewrite greater_than_clampVersion, !clampVersion_clamped.
  pose proof (clamped_version_range (Options.minVersion o)).
  pose proof (clamped_version_range (Options.maxVersion o)).
  destruct (Z.ltb_spec (clamped_version (Options.maxVersion o))
              (clamped_version (Options.minVersion o))) as [Hlt|Hle]; [discriminate|].
  destruct (buildSegments E _ _) as [segments|x]; [|discriminate].
  destruct (encodeSegments E _ _ _ _ _ _) as [qr|x] eqn:Henc; [|discriminate].
  intros [= <-].
  exists segments, qr, (clamped_version (Options.minVersion o)),
    (clamped_version (Options.maxVersion o)).
  simpl. repeat split; try reflexivity; try lia; assumption.
Qed.

(** X6: [actualEcl] is read from [ECL_BY_ORDINAL] at the ordinal of the
    level of the symbol that [encodeSegments] returned for this request (which
    the engine may have raised above the requested level): it is level [e]
    exactly when that ordinal is the place of [e] (LOW 0, MEDIUM 1, QUARTILE
    2, HIGH 3), and it is missing ([undefined]) exactly when the ordinal is
    outside 0..3. *)
Theorem actualEcl_by_ordinal (E : Engine) (o : Options.GenerateQrOptions)
    (r : GenerateQrResult) :
  generateQrCode E o = Ok r ->
  exists segments qr,
    buildSegments E (Options.text o) (Options.mode o) = Ok segments
    /\ encodeSegments E segments (ECL_MAP E (Options.ecl o))
         (clampVersion (Options.minVersion o)) (clampVersion (Options.maxVersion o))
         (engine_mask (Options.mask o)) (Options.boostEcl o) = Ok qr
    /\ (forall e, Metadata.actualEcl (metadata r) = Some e
                  <-> ordinal E (QrCode.errorCorrectionLevel qr) = QrEcc_ordinal e)
    /\ (Metadata.actualEcl (metadata r) = None
        <-> ordinal E (QrCode.errorCorrectionLevel qr) < 0
            \/ 3 < ordinal E (QrCode.errorCorrectionLevel qr)).
Proof.
  rewrite generateQrCode_unfold. fold (engine_mask (Options.mask o)).
  destruct (greater_than _ _); [discriminate|].
  destruct (buildSegments E _ _) as [segments|x]; [|discriminate].
  destruct (encodeSegments E _ _ _ _ _ _) as [qr|x] eqn:Henc; [|discriminate].
  intros [= <-]. exists segments, qr. simpl.
  split; [reflexivity|]. split; [exact Henc|].
  apply lookup_ECL_BY_ORDINAL.
Qed.

Lemma generateQrCode_engine_call_witness :
  exists r,
    generateQrCode ModelEngine.engine
      {| Options.text := "A"; Options.mode := mode_auto; Options.ecl := LOW;
         Options.minVersion := Finite (- 7 # 2); Options.maxVersion := Infinity false;
         Options.mask := mask_index 3; Options.boostEcl := false |} = Ok r
    /\ exists segments qr,
         encodeSegments ModelEngine.engine segments ModelEngine.ecc_L (of_Z 1) (of_Z 40) 3 false
         = Ok qr
         /\ Metadata.version (metadata r) = QrCode.version qr.
Proof.
  eexists. split; [vm_compute; reflexivity|].
  destruct (generateQrCode_engine_call ModelEngine.engine
              {| Options.text := "A"; Options.mode := mode_auto; Options.ecl := LOW;
                 Options.minVersion := Finite (- 7 # 2); Options.maxVersion := Infinity false;
                 Options.mask := mask_index 3; Options.boostEcl := false |} _ eq_refl)
    as (segments & qr & a & b & _ & _ & _ & Ha & Hb & _ & Henc & Hv & _).
  vm_compute in Ha, Hb. subst a b.
  exists segments, qr. split; [exact Henc | exact Hv].
Defined.

Lemma actualEcl_by_ordinal_witness :
  exists r,
    generateQrCode boosting_engine (ModelEngine.request "12345" mode_numeric) = Ok r
    /\ Metadata.requestedEcl (metadata r) = MEDIUM
    /\ Metadata.actualEcl (metadata r) = Some HIGH.
Proof.
  eexists. split; [vm_compute; reflexivity|]. split; [reflexivity|].
  destruct (actualEcl_by_ordinal boosting_engine
              (ModelEngine.request "12345" mode_numeric) _ eq_refl)
    as (segments & qr & Hseg & Henc & Hsome & _).
  apply Hsome.
  vm_compute in Hseg. injection Hseg as <-.
  vm_compute in Henc. injection Henc as <-.
  reflexivity.
Defined.

(** X7: [usedMode] and [segmentCount] depend on the text and the
    requested mode only: two successful requests that agree on these two
    report the same values, whatever their levels, versions, masks and boost
    flags are. *)
Theorem usedMode_depends_on_text_and_mode (E : Engine) (o1 o2 : Options.GenerateQrOptions)
    (r1 r2 : GenerateQrResult) :
  Options.text o1 = Options.text o2 ->
  Options.mode o1 = Options.mode o2 ->
  generateQrCode E o1 = Ok r1 ->
  generateQrCode E o2 = Ok r2 ->
  Metadata.usedMode (metadata r1) = Metadata.usedMode (metadata r2)
  /\ Metadata.segmentCount (metadata r1) = Metadata.segmentCount (metadata r2).
Proof.
  intros Ht Hm H1 H2.
  apply generateQrCode_Ok in H1 as (s1 & q1 & _ & Hs1 & _ & -> & -> & _).
  apply generateQrCode_Ok in H2 as (s2 & q2 & _ & Hs2 & _ & -> & -> & _).
  rewrite Ht, Hm, Hs2 in Hs1. injection Hs1 as <-. split; reflexivity.
Qed.

Lemma usedMode_depends_on_text_and_mode_witness :
  exists r1 r2,
    generateQrCode ModelEngine.engine (ModelEngine.request "HELLO" mode_auto) = Ok r1
    /\ generateQrCode ModelEngine.engine
         {| Options.text := "HELLO"; Options.mode := mode_auto; Options.ecl := HIGH;
            Options.minVersion := of_Z 5; Options.maxVersion := of_Z 9;
            Options.mask := mask_index 7; Options.boostEcl := false |} = Ok r2
    /\ Metadata.usedMode (metadata r1) = Metadata.usedMode (metadata r2)
    /\ Metadata.version (metadata r1) <> Metadata.version (metadata r2).
Proof.
  eexists. eexists. split; [vm_compute; reflexivity|]. split; [vm_compute; reflexivity|].
  split; [|vm_compute; discriminate].
  eapply (usedMode_depends_on_text_and_mode ModelEngine.engine
            (ModelEngine.request "HELLO" mode_auto)
            {| Options.text := "HELLO"; Options.mode := mode_auto; Options.ecl := HIGH;
               Options.minVersion := of_Z 5; Options.maxVersion := of_Z 9;
               Options.mask := mask_index 7; Options.boostEcl := false |});
    reflexivity.
Defined.

(* ================================================================= *)
(** * More on the mode classifier *)

Lemma NoDup_Set_add (m : QrModeUsed) (used : list QrModeUsed) :
  NoDup used -> NoDup (Set_add m used).
Proof.
  intros Hnd. unfold Set_add. destruct (existsb (QrModeUsed_eqb m) used) eqn:Hm; [assumption|].
  apply NoDup_app; [assumption | constructor; [intros [] | constructor] | ].
  intros x Hx [Heq | []]. subst x.
  assert (H : existsb (QrModeUsed_eqb m) used = true).
  { apply existsb_exists. exists m. split; [assumption | now apply QrModeUsed_eqb_eq]. }
  congruence.
Qed.

Section ClassifierSets.
Variable E : Engine.

Lemma NoDup_used (segments : list (QrSegment E)) (used : list QrModeUsed) :
  NoDup used -> NoDup (fold_left (used_step E) segments used).
Proof.
  revert used. induction segments as [|s segments IH]; intros used Hnd; simpl; [assumption|].
  apply IH. now apply NoDup_Set_add.
Qed.

Lemma detectUsedMode_fold (segments : list (QrSegment E)) :
  segments <> [] ->
  detectUsedMode E segments
  = match fold_left (used_step E) segments [] with
    | [single] => single
    | _ => used_mixed
    end.
Proof. destruct segments; [congruence | reflexivity]. Qed.

Lemma detectUsedMode_same_modes (l1 l2 : list (QrSegment E)) :
  (forall bits, (exists s, In s l1 /\ modeBits E s = bits)
                <-> (exists s, In s l2 /\ modeBits E s = bits)) ->
  detectUsedMode E l1 = detectUsedMode E l2.
Proof.
  intros Hsame.
  destruct l1 as [|a1 l1], l2 as [|a2 l2]; [reflexivity| | |].
  - destruct (proj2 (Hsame (modeBits E a2))) as (s & [] & _). exists a2. split; [now left|reflexivity].
  - destruct (proj1 (Hsame (modeBits E a1))) as (s & [] & _). exists a1. split; [now left|reflexivity].
  - rewrite !detectUsedMode_fold by discriminate.
    set (u1 := fold_left (used_step E) (a1 :: l1) []).
    set (u2 := fold_left (used_step E) (a2 :: l2) []).
    assert (Hin : forall m, In m u1 <-> In m u2).
    { intros m. unfold u1, u2. rewrite !In_used. simpl In at 1 3.
      split; intros [[] | (s & Hs & <-)]; right.
      - destruct (proj1 (Hsame (modeBits E s))) as (s' & Hs' & Heq); [eauto|].
        exists s'. split; [assumption | now rewrite Heq].
      - destruct (proj2 (Hsame (modeBits E s))) as (s' & Hs' & Heq); [eauto|].
        exists s'. split; [assumption | now rewrite Heq]. }
    assert (Hperm : Permutation u1 u2).
    { apply NoDup_Permutation; [apply NoDup_used; constructor .. | assumption]. }
    pose proof (Permutation_length Hperm) as Hlen.
    destruct u1 as [|x1 [|y1 t1]], u2 as [|x2 [|y2 t2]]; try discriminate Hlen; try reflexivity.
    destruct (proj1 (Hin x1) (or_introl eq_refl)) as [-> | []]. reflexivity.
Qed.

Lemma detectUsedMode_table_inv (segments : list (QrSegment E)) (bits : Z) (m : QrModeUsed) :
  In (bits, m) MODE_BY_BITS ->
  detectUsedMode E segments = m ->
  segments <> [] /\ Forall (fun s => modeBits E s = bits) segments.
Proof.
  intros Hm Hres.
  assert (Hnm : m <> used_none /\ m <> used_mixed).
  { simpl in Hm. destruct Hm as [H | [H | [H | []]]]; injection H as <- <-;
      split; discriminate. }
  destruct segments as [|s0 segments].
  - rewrite (proj2 (detectUsedMode_none E []) eq_refl) in Hres. destruct Hnm. congruence.
  - split; [discriminate|]. rewrite detectUsedMode_fold in Hres by discriminate.
    destruct (fold_left (used_step E) (s0 :: segments) []) as [|single [|? ?]] eqn:Hused;
      try (destruct Hnm; congruence).
    subst single. apply Forall_forall. intros s Hs.
    assert (H : In (mode_of_bits (modeBits E s)) [m]).
    { rewrite <- Hused. apply In_used. right. eauto. }
    destruct H as [H | []].
    (* the table is injective on its three names *)
    revert H. unfold mode_of_bits, MODE_BY_BITS, lookup. simpl in Hm.
    destruct Hm as [Hm | [Hm | [Hm | []]]]; injection Hm as <- <-;
      destruct (Z.eqb_spec 1 (modeBits E s)); destruct (Z.eqb_spec 2 (modeBits E s));
      destruct (Z.eqb_spec 4 (modeBits E s)); intros H; try discriminate H; lia.
Qed.
End ClassifierSets.

(** X8: [detectUsedMode] depends only on the set of mode indicators
    that occur among the segments: order and repetition do not matter. *)
Theorem detectUsedMode_ignores_order_and_repeats (E : Engine) (l1 l2 : list (QrSegment E)) :
  (forall bits, (exists s, In s l1 /\ modeBits E s = bits)
                <-> (exists s, In s l2 /\ modeBits E s = bits)) ->
  detectUsedMode E l1 = detectUsedMode E l2.
Proof. apply detectUsedMode_same_modes. Qed.

(** X9: the three named results can be read back.  For an entry
    [(bits, m)] of [MODE_BY_BITS], the result is [m] exactly when there is at
    least one segment and every segment has the indicator [bits]. *)
Theorem detectUsedMode_reads_back (E : Engine) (segments : list (QrSegment E))
    (bits : Z) (m : QrModeUsed) :
  In (bits, m) MODE_BY_BITS ->
  (detectUsedMode E segments = m
   <-> segments <> [] /\ Forall (fun s => modeBits E s = bits) segments).
Proof.
  intros Hm. split; [now apply detectUsedMode_table_inv|].
  intros [Hne Hall]. rewrite <- (mode_of_bits_table bits m Hm).
  now apply detectUsedMode_common.
Qed.

(** X10: for a list with at least one segment, the result is
    ['mixed'] exactly when no entry of [MODE_BY_BITS] is shared by all
    segments: the segments disagree, or they agree on an indicator the table
    does not list (kanji, ECI). *)
Theorem detectUsedMode_mixed_iff (E : Engine) (segments : list (QrSegment E)) :
  segments <> [] ->
  (detectUsedMode E segments = used_mixed
   <-> ~ exists bits m, In (bits, m) MODE_BY_BITS
                        /\ Forall (fun s => modeBits E s = bits) segments).
Proof.
  intros Hne. split.
  - intros Hmixed (bits & m & Hm & Hall).
    rewrite (detectUsedMode_common E segments bits Hne Hall) in Hmixed.
    rewrite (mode_of_bits_table bits m Hm) in Hmixed. subst m.
    simpl in Hm. destruct Hm as [H | [H | [H | []]]]; discriminate H.
  - intros Hnone.
    destruct (detectUsedMode E segments) eqn:Hres; try reflexivity; exfalso.
    + now apply detectUsedMode_none in Hres.
    + apply Hnone. exists 1, used_numeric. split; [simpl; auto|].
      apply (detectUsedMode_table_inv E segments 1 used_numeric); simpl; auto.
    + apply Hnone. exists 2, used_alphanumeric. split; [simpl; auto|].
      apply (detectUsedMode_table_inv E segments 2 used_alphanumeric); simpl; auto.
    + apply Hnone. exists 4, used_byte. split; [simpl; auto|].
      apply (detectUsedMode_table_inv E segments 4 used_byte); simpl; auto.
Qed.

Lemma detectUsedMode_ignores_order_and_repeats_witness :
  detectUsedMode ModelEngine.engine
    [ {| ModelEngine.mode := ModelEngine.NUMERIC; ModelEngine.numChars := 1; ModelEngine.data := [49] |};
      {| ModelEngine.mode := ModelEngine.BYTE; ModelEngine.numChars := 1; ModelEngine.data := [97] |};
      {| ModelEngine.mode := ModelEngine.NUMERIC; ModelEngine.numChars := 1; ModelEngine.data := [50] |} ]
  = detectUsedMode ModelEngine.engine
      [ {| ModelEngine.mode := ModelEngine.BYTE; ModelEngine.numChars := 2; ModelEngine.data := [98; 99] |};
        {| ModelEngine.mode := ModelEngine.NUMERIC; ModelEngine.numChars := 1; ModelEngine.data := [51] |} ].
Proof.
  apply (detectUsedMode_ignores_order_and_repeats ModelEngine.engine).
  intros bits. split; intros (s & Hin & Hbits); subst bits; simpl in Hin.
  - destruct Hin as [<- | [<- | [<- | []]]].
    + eexists. split; [right; left; reflexivity | reflexivity].
    + eexists. split; [left; reflexivity | reflexivity].
    + eexists. split; [right; left; reflexivity | reflexivity].
  - destruct Hin as [<- | [<- | []]].
    + eexists. split; [right; left; reflexivity | reflexivity].
    + eexists. split; [left; reflexivity | reflexivity].
Defined.

Lemma detectUsedMode_reads_back_witness :
  detectUsedMode ModelEngine.engine
    [ {| ModelEngine.mode := ModelEngine.BYTE; ModelEngine.numChars := 1; ModelEngine.data := [97] |};
      {| ModelEngine.mode := ModelEngine.BYTE; ModelEngine.numChars := 1; ModelEngine.data := [98] |} ]
  = used_byte.
Proof.
  apply (detectUsedMode_reads_back ModelEngine.engine _ 4 used_byte).
  - simpl. auto.
  - split; [discriminate | repeat constructor].
Defined.

Lemma detectUsedMode_mixed_iff_witness :
  detectUsedMode ModelEngine.engine
    [ {| ModelEngine.mode := ModelEngine.BYTE; ModelEngine.numChars := 1; ModelEngine.data := [97] |};
      {| ModelEngine.mode := ModelEngine.NUMERIC; ModelEngine.numChars := 1; ModelEngine.data := [49] |} ]
  = used_mixed.
Proof.
  apply (detectUsedMode_mixed_iff ModelEngine.engine); [discriminate|].
  intros (bits & m & _ & Hall).
  pose proof (Forall_inv Hall) as H1.
  pose proof (Forall_inv (Forall_inv_tail Hall)) as H2.
  simpl in H1, H2. congruence.
Defined.

(* ================================================================= *)
(** * Dark modules, the empty path, the application *)

Lemma filter_length_zero {A} (p : A -> bool) (l : list A) :
  List.length (filter p l) = 0%nat <-> forall x, In x l -> p x = false.
Proof.
  induction l as [|a l IH]; simpl; [split; [intros _ x [] | reflexivity]|].
  destruct (p a) eqn:Ha; simpl.
  - split; [discriminate|]. intros H. rewrite (H a (or_introl eq_refl)) in Ha. discriminate.
  - rewrite IH. split; [intros H x [<- | Hx]; auto | auto].
Qed.

Lemma filter_length_le {A} (p : A -> bool) (l : list A) :
  (List.length (filter p l) <= List.length l)%nat.
Proof. induction l as [|a l IH]; simpl; [lia|]. destruct (p a); simpl; lia. Qed.

Lemma filter_length_full {A} (p : A -> bool) (l : list A) :
  List.length (filter p l) = List.length l <-> forall x, In x l -> p x = true.
Proof.
  induction l as [|a l IH]; simpl; [split; [intros _ x [] | reflexivity]|].
  pose proof (filter_length_le p l).
  destruct (p a) eqn:Ha; simpl.
  - split.
    + intros H' x [<- | Hx]; [assumption|]. apply IH; [lia | assumption].
    + intros H'. f_equal. apply IH. auto.
  - split; [lia|]. intros H'. rewrite (H' a (or_introl eq_refl)) in Ha. discriminate.
Qed.

Lemma length_range (n : Z) : Z.of_nat (List.length (range n)) = Z.max 0 n.
Proof. unfold range. rewrite length_map, length_seq. lia. Qed.

Lemma length_rows {A B} (rows : list B) (cols : list A) :
  List.length (flat_map (fun y => List.map (fun x => (x, y)) cols) rows)
  = (List.length rows * List.length cols)%nat.
Proof.
  induction rows as [|y rows IH]; simpl; [reflexivity|].
  now rewrite length_app, length_map, IH.
Qed.

Lemma length_row_major (n : Z) :
  Z.of_nat (List.length (row_major n)) = Z.max 0 n * Z.max 0 n.
Proof.
  unfold row_major. rewrite length_rows, Nat2Z.inj_mul, length_range. reflexivity.
Qed.

(** X11: [countDarkModules] lies between 0 and [size * size]; it is 0
    exactly when no module is dark and [size * size] exactly when every module
    is dark. *)
Theorem countDarkModules_bounds (E : Engine) (qr : QrCode.t (Ecc E)) :
  0 <= countDarkModules E qr <= QrCode.size qr * QrCode.size qr
  /\ (countDarkModules E qr = 0
      <-> forall x y, 0 <= x < QrCode.size qr -> 0 <= y < QrCode.size qr ->
                      QrCode.getModule qr x y = false)
  /\ (countDarkModules E qr = Z.max 0 (QrCode.size qr) * Z.max 0 (QrCode.size qr)
      <-> forall x y, 0 <= x < QrCode.size qr -> 0 <= y < QrCode.size qr ->
                      QrCode.getModule qr x y = true).
Proof.
  rewrite countDarkModules_dark_cells. unfold dark_cells.
  pose proof (filter_length_le (fun c => QrCode.getModule qr (fst c) (snd c))
                (row_major (QrCode.size qr))) as Hle.
  pose proof (length_row_major (QrCode.size qr)) as Hlen.
  split; [nia|]. split.
  - rewrite <- Nat2Z.inj_0, Nat2Z.inj_iff, filter_length_zero. split.
    + intros H x y Hx Hy. apply (H (x, y)). now apply In_row_major.
    + intros H [x y] Hc. apply In_row_major in Hc. now apply H.
  - rewrite <- Hlen, Nat2Z.inj_iff, filter_length_full. split.
    + intros H x y Hx Hy. apply (H (x, y)). now apply In_row_major.
    + intros H [x y] Hc. apply In_row_major in Hc. now apply H.
Qed.

Lemma str_app_inv_head (a b c : string) : (a ++ b = a ++ c)%string -> b = c.
Proof. induction a as [|x a IH]; simpl; [trivial|]. intros [= H]. auto. Qed.

Lemma str_app_self (d s : string) : (d ++ s = s)%string -> d = EmptyString.
Proof.
  intros H. apply (f_equal String.length) in H. rewrite str_length_app in H.
  destruct d; [reflexivity | simpl in H; lia].
Qed.

Lemma str_app_inv_tail (a a' b : string) : (a ++ b = a' ++ b)%string -> a = a'.
Proof.
  intros H. apply app_same_length in H; [tauto|].
  apply (f_equal String.length) in H. rewrite !str_length_app in H. lia.
Qed.

Lemma svg_document_inj (w : Z) (d d' : string) :
  svg_document w d = svg_document w d' -> d = d'.
Proof.
  unfold svg_document. intros H.
  repeat (apply str_app_inv_head in H).
  cbn [String.append] in H. injection H as H.
  now apply str_app_inv_tail in H.
Qed.

Lemma joined_subpaths_empty (cells : list (Z * Z)) :
  String.concat " " (List.map subpath cells) = EmptyString -> cells = [].
Proof.
  destruct cells as [|c cells]; [reflexivity|]. intros H. exfalso.
  revert H. apply (concat_pieces_nonempty (subpath c) (List.map subpath cells)).
  unfold subpath. discriminate.
Qed.

(** X12: [toSvg] produces the document with the empty path
    (attribute [d] empty, after the trim) exactly when no module is dark, which
    is exactly when [countDarkModules] is 0. *)
Theorem light_matrix_has_empty_path (E : Engine) (qr : QrCode.t (Ecc E)) :
  (toSvg E qr = svg_document (QrCode.size qr + 4) EmptyString
   <-> forall x y, 0 <= x < QrCode.size qr -> 0 <= y < QrCode.size qr ->
                   QrCode.getModule qr x y = false)
  /\ (toSvg E qr = svg_document (QrCode.size qr + 4) EmptyString
      <-> countDarkModules E qr = 0).
Proof.
  assert (Hcells : toSvg E qr = svg_document (QrCode.size qr + 4) EmptyString
                   <-> dark_cells qr = []).
  { rewrite toSvg_dark_cells. split.
    - intros H. apply svg_document_inj in H. now apply joined_subpaths_empty.
    - intros ->. reflexivity. }
  split; rewrite Hcells.
  - split.
    + intros Hnil x y Hx Hy.
      destruct (QrCode.getModule qr x y) eqn:Hm; [|reflexivity].
      assert (Hin : In (x, y) (dark_cells qr)) by (apply In_dark_cells; simpl; auto).
      rewrite Hnil in Hin. destruct Hin.
    + intros H. destruct (dark_cells qr) as [|c cells] eqn:Hc; [reflexivity|].
      assert (Hin : In c (dark_cells qr)) by (rewrite Hc; now left).
      apply In_dark_cells in Hin as (Hx & Hy & Hm). rewrite (H _ _ Hx Hy) in Hm. discriminate.
  - rewrite countDarkModules_dark_cells. split.
    + intros ->. reflexivity.
    + destruct (dark_cells qr); [reflexivity | simpl; lia].
Qed.

(** X13: in the modes [numeric], [alphanumeric] and [byte], for every
    text, a successful result was built from exactly one segment, the one the
    engine's constructor returned: [segmentCount] is 1 and [usedMode] is the
    table entry of that segment's indicator, never ['none']. *)
Theorem explicit_mode_has_one_segment (E : Engine) (o : Options.GenerateQrOptions)
    (r : GenerateQrResult) :
  Options.mode o <> mode_auto ->
  generateQrCode E o = Ok r ->
  exists s,
    buildSegments E (Options.text o) (Options.mode o) = Ok [s]
    /\ Metadata.segmentCount (metadata r) = 1
    /\ Metadata.usedMode (metadata r) = mode_of_bits (modeBits E s)
    /\ Metadata.usedMode (metadata r) <> used_none.
Proof.
  intros Hmode H.
  apply generateQrCode_Ok in H as (segments & qr & _ & Hseg & _ & -> & -> & _).
  destruct (buildSegments_explicit E _ _ _ Hmode Hseg) as (s & ->).
  exists s. repeat split; try assumption; try reflexivity.
  apply mode_of_bits_not_none.
Qed.

Lemma explicit_mode_has_one_segment_witness :
  exists r,
    generateQrCode ModelEngine.engine (ModelEngine.request "HELLO WORLD" mode_byte) = Ok r
    /\ Metadata.segmentCount (metadata r) = 1
    /\ Metadata.usedMode (metadata r) = used_byte.
Proof.
  eexists. split; [vm_compute; reflexivity|].
  destruct (explicit_mode_has_one_segment ModelEngine.engine
              (ModelEngine.request "HELLO WORLD" mode_byte) _
              ltac:(discriminate) eq_refl) as (s & _ & Hcount & _ & _).
  split; [exact Hcount | vm_compute; reflexivity].
Defined.

(** X14: the outcomes of [saveSvgAsPng].  It succeeds exactly when
    the image loads and the canvas has a 2D context, and fails with the message
    of line 50 exactly when the image does not load, with that of line 61
    exactly when the context is missing.  The download link is clicked exactly
    on success, with the PNG data URL and the given file name and with nothing
    else; a canvas is created exactly when the image has loaded. *)
Theorem download_exactly_on_success (h : host) (svg filename : string) (w : world) :
  exists steps,
    trace (snd (saveSvgAsPng h svg filename w)) = (trace w ++ steps)%list
    /\ (fst (saveSvgAsPng h svg filename w) = inl tt
        <-> image_loads h svg = true /\ has_2d_context h = true)
    /\ (fst (saveSvgAsPng h svg filename w) = inr (Error "Unable to render QR image")
        <-> image_loads h svg = false)
    /\ (fst (saveSvgAsPng h svg filename w) = inr (Error "Unable to create image canvas")
        <-> image_loads h svg = true /\ has_2d_context h = false)
    /\ (In (LinkClick (png_data_url h) filename) steps
        <-> fst (saveSvgAsPng h svg filename w) = inl tt)
    /\ (forall href name, In (LinkClick href name) steps ->
          href = png_data_url h /\ name = filename
          /\ fst (saveSvgAsPng h svg filename w) = inl tt)
    /\ (In CreateCanvas steps <-> image_loads h svg = true).
Proof.
  rewrite saveSvgAsPng_run. cbn [fst snd trace].
  eexists. split; [reflexivity|].
  unfold export_outcome, export_steps.
  destruct (image_loads h svg), (has_2d_context h); cbn [List.app In];
    repeat split; try discriminate; try tauto;
    try (intros; intuition (try discriminate; try congruence)).
Qed.

Section AppProps.
Variable E : Engine.
Variable Error_message : exn E -> option string.

(** X15: the application's [result] holds data exactly on success and
    an error exactly otherwise.  A reversed version range shows the error box
    with the range message; a success shows the preview of the generated
    symbol; the error box never shows an empty text.  No panel can be rendered
    ([result.data!] is read on [null]) exactly when the engine throws an
    [Error] with an empty message, which line 255 takes for no error. *)
Theorem App_shows_result_or_error (o : Options.GenerateQrOptions) :
  let result := App_result E Error_message o in
  (forall r, App.data result = Some r <-> generateQrCode E o = Ok r)
  /\ (App.error result = None <-> App.data result <> None)
  /\ (clamped_version (Options.maxVersion o) < clamped_version (Options.minVersion o) ->
      App.data result = None
      /\ App_panel result
         = Some (App.ErrorBox "Minimum version cannot be greater than maximum version"))
  /\ (forall r, generateQrCode E o = Ok r ->
        App_panel result = Some (App.Preview (svg r) (metadata r)))
  /\ (forall message, App_panel result = Some (App.ErrorBox message) ->
        message <> EmptyString /\ App.data result = None
        /\ exists t, generateQrCode E o = Throw t /\ caught_message E Error_message t = message)
  /\ (App_panel result = None
      <-> exists x, generateQrCode E o = Throw (Raised x)
                    /\ Error_message x = Some EmptyString).
Proof.
  cbv zeta. unfold App_result.
  split; [|split; [|split; [|split; [|split]]]].
  - intros r. destruct (generateQrCode E o); simpl; split; congruence.
  - destruct (generateQrCode E o); simpl; split; congruence.
  - intros Hlt. rewrite generateQrCode_unfold, greater_than_clampVersion.
    apply Z.ltb_lt in Hlt. rewrite Hlt. split; reflexivity.
  - intros r ->. reflexivity.
  - intros message. destruct (generateQrCode E o) as [r|t]; [discriminate|].
    unfold App_panel. simpl.
    destruct (caught_message E Error_message t) eqn:Hm; [discriminate|].
    intros [= <-]. split; [discriminate|]. split; [reflexivity|]. now exists t.
  - destruct (generateQrCode E o) as [r|t] eqn:Hg.
    + split; [discriminate | intros (x & H & _); discriminate].
    + unfold App_panel. simpl.
      destruct (caught_message E Error_message t) eqn:Hm.
      * split; [intros _ | reflexivity].
        destruct t as [message|x]; simpl in Hm.
        -- subst message. rewrite generateQrCode_unfold in Hg.
           destruct (greater_than _ _); [discriminate Hg|].
           destruct (buildSegments E _ _); [destruct (encodeSegments E _ _ _ _ _ _)|];
             discriminate Hg.
        -- exists x. split; [reflexivity|].
           destruct (Error_message x) as [m|]; [now subst m | discriminate].
      * split; [discriminate|]. intros (x & [= ->] & Hx). simpl in Hm.
        rewrite Hx in Hm. discriminate.
Qed.

(** X16: [handleSavePng] does nothing without data.  With data it
    runs the export of the generated document under the name [qr-code.png]:
    no alert is shown exactly when the download link was clicked, the two
    failures of the export are shown with their messages, and in every case
    the object URL created first is revoked last. *)
Theorem handleSavePng_alerts_or_downloads (h : host) (o : Options.GenerateQrOptions)
    (w : world) :
  let result := App_result E Error_message o in
  let after := handleSavePng h result w in
  (App.data result = None -> after = (None, w))
  /\ (forall r, generateQrCode E o = Ok r ->
        snd after = snd (saveSvgAsPng h (svg r) "qr-code.png" w)
        /\ (fst after = None
            <-> In (LinkClick (png_data_url h) "qr-code.png")
                  (export_steps h (svg r) "qr-code.png" (next_url w)))
        /\ (fst after = Some "Unable to render QR image" <-> image_loads h (svg r) = false)
        /\ (fst after = Some "Unable to create image canvas"
            <-> image_loads h (svg r) = true /\ has_2d_context h = false)
        /\ trace (snd after)
           = (trace w ++ [CreateObjectURL (next_url w)]
                ++ export_steps h (svg r) "qr-code.png" (next_url w)
                ++ [RevokeObjectURL (next_url w)])%list).
Proof.
  cbv zeta. unfold App_result, handleSavePng. split.
  - destruct (generateQrCode E o); simpl; [discriminate | reflexivity].
  - intros r ->. cbn [App.data]. rewrite saveSvgAsPng_run.
    unfold export_outcome, export_steps.
    destruct (image_loads h (svg r)), (has_2d_context h); cbn [fst snd trace List.app In];
      (split; [reflexivity|]);
      repeat split; try discriminate; try tauto;
      try (intros; intuition (try discriminate; try congruence)).
Qed.
End AppProps.

(* ================================================================= *)
(** * From the renderer to the exporter *)

Lemma digits2_pos_log2 (p : positive) : Zpos (digits2_pos p) = Z.log2 (Zpos p) + 1.
Proof.
  induction p as [p IH|p IH|]; simpl digits2_pos; try reflexivity.
  - rewrite Pos2Z.inj_succ, IH. change (Zpos p~1) with (2 * Zpos p + 1).
    rewrite Z.log2_succ_double by lia. lia.
  - rewrite Pos2Z.inj_succ, IH. change (Zpos p~0) with (2 * Zpos p).
    rewrite Z.log2_double by lia. lia.
Qed.

Lemma Zdigits2_log2 (z : Z) : 0 < z -> Zdigits2 z = Z.log2 z + 1.
Proof. destruct z; try lia. intros _. apply digits2_pos_log2. Qed.

Lemma div_eucl_1 (m : Z) : Z.div_eucl m 1 = (m, 0).
Proof.
  pose proof (Z.div_1_r m) as Hd. pose proof (Z.mod_1_r m) as Hm.
  unfold Z.div, Z.modulo in *. destruct (Z.div_eucl m 1). simpl in *. congruence.
Qed.

Lemma pos_shiftl_pow2 (k : positive) : Zpos (Pos.shiftl 1 (Npos k)) = 2 ^ Zpos k.
Proof.
  simpl Pos.shiftl. induction k using Pos.peano_ind.
  - reflexivity.
  - rewrite Pos.iter_succ, Pos2Z.inj_succ, Z.pow_succ_r by lia.
    rewrite <- IHk. reflexivity.
Qed.

Lemma Qred_inject_Z (n : Z) : Qred (inject_Z n) = inject_Z n.
Proof.
  unfold Qred, inject_Z. simpl Qnum. simpl Qden.
  pose proof (Z.ggcd_gcd n 1) as Hg. pose proof (Z.ggcd_correct_divisors n 1) as Hc.
  destruct (Z.ggcd n 1) as (g, (a, b)). simpl in *.
  rewrite Z.gcd_1_r in Hg. subst g. destruct Hc as [Ha Hb].
  rewrite Z.mul_1_l in Ha, Hb. subst a b. reflexivity.
Qed.

(** Division by one of an integer below [2^53] rounds to that integer. *)
Lemma SFdiv_by_one (n : positive) :
  Zpos n < 2 ^ 53 ->
  exists (P : positive) (e : Z),
    SFdiv 53 1024 (S754_finite false n 0) (S754_finite false 1 0) = S754_finite false P e
    /\ e <= 0 /\ Zpos P = Zpos n * 2 ^ (- e).
Proof.
  intros Hn.
  set (d := Zpos (digits2_pos n)).
  assert (Hd : d = Z.log2 (Zpos n) + 1) by apply digits2_pos_log2.
  assert (Hd53 : 1 <= d <= 53).
  { pose proof (Z.log2_nonneg (Zpos n)).
    assert (Z.log2 (Zpos n) < 53) by (apply Z.log2_lt_pow2; lia). lia. }
  set (P := Z.to_pos (Zpos n * 2 ^ (53 - d))).
  assert (HP : Zpos P = Zpos n * 2 ^ (53 - d)).
  { unfold P. rewrite Z2Pos.id; [reflexivity|].
    apply Z.mul_pos_pos; [lia | apply Z.pow_pos_nonneg; lia]. }
  exists P, (d - 53). split; [|split; [lia | rewrite HP; f_equal; f_equal; lia]].
  assert (Hshift : Z.shiftl (Zpos n) (54 - d) = Zpos P~0).
  { rewrite Z.shiftl_mul_pow2 by lia. change (Zpos P~0) with (2 * Zpos P). rewrite HP.
    replace (54 - d) with (Z.succ (53 - d)) by lia. rewrite Z.pow_succ_r by lia. lia. }
  assert (HlogP : Z.log2 (Zpos P) = 52).
  { rewrite HP, Z.log2_mul_pow2 by lia. lia. }
  unfold SFdiv, SFdiv_core_binary.
  change (Zdigits2 (Zpos n)) with d. change (Zdigits2 1) with 1.
  replace (Z.min (fexp 53 1024 (d + 0 - (1 + 0))) (0 - 0)) with (d - 54)
    by (unfold fexp, emin; lia).
  replace (0 - 0 - (d - 54)) with (54 - d) by lia.
  rewrite Hshift. destruct (54 - d) eqn:Hs; try lia.
  rewrite div_eucl_1. cbn [xorb new_location].
  change (new_location 1 0) with loc_Exact.
  unfold binary_round_aux, shr_fexp.
  rewrite (Zdigits2_log2 (Zpos P~0)) by lia.
  change (Zpos P~0) with (2 * Zpos P). rewrite Z.log2_double, HlogP by lia.
  replace (fexp 53 1024 (Z.succ 52 + 1 + (d - 54)) - (d - 54)) with 1
    by (unfold fexp, emin; lia).
  cbn [shr shr_record_of_loc iter_pos]. change (2 * Zpos P) with (Zpos P~0).
  cbn [shr_1 loc_of_shr_record round_nearest_even shr_m shr_r shr_s orb].
  rewrite (Zdigits2_log2 (Zpos P)), HlogP by lia.
  replace (fexp 53 1024 (52 + 1 + (d - 54 + 1)) - (d - 54 + 1)) with 0
    by (unfold fexp, emin; lia).
  cbn [shr shr_record_of_loc shr_m].
  replace (d - 54 + 1 <=? 1024 - 53) with true by (symmetry; apply Z.leb_le; lia).
  f_equal. lia.
Qed.

Lemma round64_exact (n : Z) : 0 <= n < 2 ^ 53 -> round64 (inject_Z n) = of_Z n.
Proof.
  intros Hn. unfold round64, of_Z. simpl Qnum. simpl Qden.
  destruct n as [|p|p]; try lia; [reflexivity|].
  destruct (SFdiv_by_one p ltac:(lia)) as (P & e & -> & He & HP).
  unfold of_spec_float. f_equal.
  transitivity (Qred (inject_Z (Zpos p))); [|apply Qred_inject_Z].
  apply Qred_complete. destruct e as [|k|k]; try lia.
  - unfold Qeq, inject_Z. cbn [Qnum Qden]. rewrite HP.
    change (- 0) with 0. rewrite !Z.pow_0_r. lia.
  - unfold Qeq, inject_Z. cbn [Qnum Qden]. rewrite pos_shiftl_pow2, HP.
    change (- Zneg k) with (Zpos k). lia.
Qed.


Lemma string_of_uint_all_digits (d : Decimal.uint) :
  every is_digit (NilEmpty.string_of_uint d) = true.
Proof. induction d; simpl; auto. Qed.

Lemma scan_uint_acc (d : Decimal.uint) :
  forall (z : Z) (a : positive) (sc : Z),
    z = Zpos a ->
    scan_decimal (NilEmpty.string_of_uint d)
      {| digits := z; scale := sc; seen_dot := false; seen_digit := true |}
    = Some {| digits := Zpos (Pos.of_uint_acc d a); scale := sc;
              seen_dot := false; seen_digit := true |}.
Proof.
  induction d; intros z a sc ->; cbn [NilEmpty.string_of_uint scan_decimal Pos.of_uint_acc];
    try reflexivity;
    match goal with
    | |- context [is_digit ?c] => change (is_digit c) with true
    end; cbv iota; cbn [seen_dot seen_digit digits scale];
    apply IHd;
    match goal with
    | |- context [digit_value ?c] =>
        let v := eval vm_compute in (digit_value c) in change (digit_value c) with v
    end; rewrite ?Pos2Z.inj_add, ?Pos2Z.inj_mul; lia.
Qed.

Lemma scan_uint_zero (d : Decimal.uint) :
  forall sc,
    scan_decimal (NilEmpty.string_of_uint d)
      {| digits := 0; scale := sc; seen_dot := false; seen_digit := true |}
    = Some {| digits := Z.of_N (Pos.of_uint d); scale := sc;
              seen_dot := false; seen_digit := true |}.
Proof.
  induction d; intros sc; cbn [NilEmpty.string_of_uint scan_decimal Pos.of_uint];
    try reflexivity;
    match goal with
    | |- context [is_digit ?c] => change (is_digit c) with true
    end; cbv iota; cbn [seen_dot seen_digit digits scale];
    [apply IHd | apply scan_uint_acc; reflexivity ..].
Qed.

Lemma scan_uint (d : Decimal.uint) :
  d <> Decimal.Nil ->
  scan_decimal (NilEmpty.string_of_uint d)
    {| digits := 0; scale := 1; seen_dot := false; seen_digit := false |}
  = Some {| digits := Z.of_N (Pos.of_uint d); scale := 1;
            seen_dot := false; seen_digit := true |}.
Proof.
  destruct d; intros Hd; [congruence | ..];
    cbn [NilEmpty.string_of_uint scan_decimal Pos.of_uint];
    match goal with
    | |- context [is_digit ?c] => change (is_digit c) with true
    end; cbv iota; cbn [seen_dot seen_digit digits scale];
    [apply scan_uint_zero | apply scan_uint_acc; reflexivity ..].
Qed.

Lemma ToString_pos (p : positive) :
  ToString (Zpos p) = NilEmpty.string_of_uint (Pos.to_uint p).
Proof.
  unfold ToString, NilZero.string_of_int, NilZero.string_of_uint. simpl Z.to_int.
  pose proof (Unsigned.to_uint_nonnil p). destruct (Pos.to_uint p); congruence.
Qed.

(** Reading back a printed integer. *)
Lemma Number_ToString (n : Z) : 0 <= n -> Number (ToString n) = round64 (inject_Z n).
Proof.
  intros Hn. destruct n as [|p|p]; try lia; [reflexivity|].
  unfold Number. rewrite ToString_pos, scan_uint by apply Unsigned.to_uint_nonnil.
  cbn [digits scale]. now rewrite Unsigned.of_to.
Qed.

Lemma ToString_is_token (n : Z) : 0 <= n -> is_token (ToString n) = true.
Proof.
  intros Hn. destruct n as [|p|p]; try lia; [reflexivity|].
  rewrite ToString_pos. pose proof (string_of_uint_all_digits (Pos.to_uint p)) as Hd.
  pose proof (Unsigned.to_uint_nonnil p) as Hnil.
  destruct (Pos.to_uint p) eqn:Hu; try congruence;
    cbn [NilEmpty.string_of_uint is_token] in *;
    (eapply every_impl; [|exact Hd]); intros c Hc; unfold digit_or_dot; now rewrite Hc.
Qed.

Lemma svg_document_first_viewBox (w : Z) (d : string) :
  0 <= w -> first_viewBox (svg_document w d) (ToString w) (ToString w).
Proof.
  intros Hw.
  exists ("<svg xmlns=" ++ String dquote "http://www.w3.org/2000/svg" ++ String dquote " ")%string.
  eexists. split; [|split].
  - unfold svg_document. cbn [String.append]. reflexivity.
  - vm_compute. reflexivity.
  - exists "viewBox=", "0 0", " "%char, " "%char. eexists.
    split; [cbn [String.append]; reflexivity|].
    repeat split; try reflexivity; now apply ToString_is_token.
Qed.

Lemma Math_max_same (a : number) : Math_max a a = a.
Proof. destruct a as [|s|q]; cbn [Math_max]; try reflexivity; now destruct (less_than _ _). Qed.

Lemma Math_round_of_Z (n : Z) : Math_round (of_Z n) = of_Z n.
Proof.
  unfold Math_round, of_Z. f_equal. f_equal. unfold Qfloor, Qplus, inject_Z.
  cbn [Qnum Qden]. change (Zpos (1 * 2)) with 2.
  replace (n * 2 + 1 * 1) with (1 + n * 2) by lia.
  rewrite Z.div_add by lia. reflexivity.
Qed.

Lemma mul_of_Z (a b : Z) : 0 <= a * b < 2 ^ 53 -> mul (of_Z a) (of_Z b) = of_Z (a * b).
Proof. intros H. unfold mul, of_Z. now apply round64_exact. Qed.

Lemma getSvgSize_svg_document (w : Z) (d : string) :
  0 < w < 2 ^ 53 -> getSvgSize (svg_document w d) = of_Z w.
Proof.
  intros Hw.
  rewrite (getSvgSize_leftmost _ (ToString w) (ToString w))
    by (apply first_viewBox_declares, svg_document_first_viewBox; lia).
  unfold size_of_tokens. rewrite Math_max_same, Number_ToString, round64_exact by lia.
  unfold greater_than. rewrite less_than_of_Z.
  replace (0 <? w) with true by (symmetry; apply Z.ltb_lt; lia). reflexivity.
Qed.

(** X17: the renderer and the exporter agree.  For a generated
    symbol, [getSvgSize] reads from the document of [toSvg] the side
    [size + 4] that [toSvg] wrote in its [viewBox], the raster side is
    [16 * (size + 4)], and, when the image loads, the canvas gets this width
    and height.  (Sides are integers below [2^53], where printing, parsing and
    the product are exact.) *)
Theorem exported_side_of_generated_symbol (E : Engine) (o : Options.GenerateQrOptions)
    (r : GenerateQrResult) (h : host) (filename : string) (w : world) :
  generateQrCode E o = Ok r ->
  0 < Metadata.size (metadata r) + 4 ->
  16 * (Metadata.size (metadata r) + 4) < 2 ^ 53 ->
  getSvgSize (svg r) = of_Z (Metadata.size (metadata r) + 4)
  /\ raster_side (svg r) = of_Z (16 * (Metadata.size (metadata r) + 4))
  /\ (image_loads h (svg r) = true ->
      exists before after,
        trace (snd (saveSvgAsPng h (svg r) filename w))
        = (trace w ++ before
             ++ [CanvasWidth (of_Z (16 * (Metadata.size (metadata r) + 4)));
                 CanvasHeight (of_Z (16 * (Metadata.size (metadata r) + 4)))]
             ++ after)%list).
Proof.
  intros H Hpos Hbound.
  apply generateQrCode_Ok in H as (segments & qr & _ & _ & Hsvg & _ & _ & Hsize & _).
  rewrite Hsvg, Hsize in *. rewrite toSvg_dark_cells.
  assert (Hget : getSvgSize (svg_document (QrCode.size qr + 4)
                   (String.concat " " (List.map subpath (dark_cells qr))))
                 = of_Z (QrCode.size qr + 4)) by (apply getSvgSize_svg_document; lia).
  assert (Hside : raster_side (svg_document (QrCode.size qr + 4)
                    (String.concat " " (List.map subpath (dark_cells qr))))
                  = of_Z (16 * (QrCode.size qr + 4))).
  { unfold raster_side, PNG_SCALE. rewrite Hget, mul_of_Z, Math_round_of_Z by lia.
    f_equal. lia. }
  split; [assumption|]. split; [assumption|].
  intros Hload. rewrite saveSvgAsPng_run. cbn [trace snd]. unfold export_steps.
  rewrite Hload, Hside.
  exists [CreateObjectURL (next_url w); ImageSrc (next_url w); CreateCanvas].
  eexists. cbn [List.app]. reflexivity.
Qed.

Lemma exported_side_of_generated_symbol_witness :
  exists r,
    generateQrCode ModelEngine.engine (ModelEngine.request "12345" mode_numeric) = Ok r
    /\ getSvgSize (svg r) = of_Z 25
    /\ raster_side (svg r) = of_Z 400.
Proof.
  eexists. split; [vm_compute; reflexivity|].
  destruct (exported_side_of_generated_symbol ModelEngine.engine
              (ModelEngine.request "12345" mode_numeric) _ sample_host "qr-code.png"
              sample_world eq_refl) as (Hsize & Hside & _).
  - vm_compute. reflexivity.
  - vm_compute. reflexivity.
  - split; [exact Hsize | exact Hside].
Defined.
